(** * Blackjack engine of card-games-be: a shallow embedding and its properties

    The development follows package [internal/game]: cards ([card.go]), the
    deck ([deck.go]) and the game engine ([blackjack.go]); then the
    in-memory game store of [internal/store], and, of [internal/api], the
    registry of the WebSocket hub and the result the [Stand] handler
    records.

    - Go slices are lists; a slice element updated in place is [alter] at
      its index.  Every engine method takes the game and returns the game it
      leaves behind together with its Go result.
    - [Suit] and [Rank] are strings, as in the source; the statuses, which
      the engine only ever sets to its named constants, are enumerations.
    - [int] is kept in [Z]; sums of amounts supplied by callers (bets and
      balances) wrap around at 64 bits.  The 3:2 payout goes through
      [float64], modelled by the binary64 operations of [SpecFloat].
    - The two outside influences of the engine are parameters: [rnd], the
      values drawn from [math/rand] by [Shuffle], and [now], the clock read
      by [time.Now()]. *)

From Stdlib Require Import ZArith Lia Bool SpecFloat.
From stdpp Require Import base list strings gmap.

Local Open Scope Z_scope.

(** ** Go's [int]

    [int] is a 64-bit two's complement integer on the platforms the server
    is built for.  Integer fields are kept in [Z]; where the engine does
    arithmetic on amounts supplied by callers the result is wrapped. *)

Definition int_min : Z := - 2 ^ 63.
Definition int_max : Z := 2 ^ 63 - 1.

Definition in_range (z : Z) : Prop := int_min <= z <= int_max.

Definition wrap (z : Z) : Z := (z + 2 ^ 63) mod 2 ^ 64 - 2 ^ 63.

(** ** Cards ([card.go])

    [Suit] and [Rank] are Go string types; the named constants are the
    values the engine produces, and the zero value of [Card] (returned by
    [DrawCard] on an empty deck) carries empty strings. *)

Definition Suit := string.
Definition Rank := string.

Definition Hearts : Suit := "Hearts".
Definition Diamonds : Suit := "Diamonds".
Definition Clubs : Suit := "Clubs".
Definition Spades : Suit := "Spades".

Definition Ace : Rank := "Ace".
Definition Two : Rank := "2".
Definition Three : Rank := "3".
Definition Four : Rank := "4".
Definition Five : Rank := "5".
Definition Six : Rank := "6".
Definition Seven : Rank := "7".
Definition Eight : Rank := "8".
Definition Nine : Rank := "9".
Definition Ten : Rank := "10".
Definition Jack : Rank := "Jack".
Definition Queen : Rank := "Queen".
Definition King : Rank := "King".

Module Card.
Record t : Type := mk
  { Suit : string;
    Rank : string;
    Value : Z;
    Face : bool }.

(** [Card{}] *)
Definition zero : t := mk "" "" 0 false.

Definition set_Face (b : bool) (c : t) : t :=
  mk (Suit c) (Rank c) (Value c) b.
End Card.

(** [func (c Card) GetValue() int] *)
Definition GetValue (c : Card.t) : Z :=
  let r := Card.Rank c in
  if String.eqb r Ace then 11
  else if String.eqb r Ten || String.eqb r Jack
          || String.eqb r Queen || String.eqb r King then 10
  else if String.eqb r Two then 2
  else if String.eqb r Three then 3
  else if String.eqb r Four then 4
  else if String.eqb r Five then 5
  else if String.eqb r Six then 6
  else if String.eqb r Seven then 7
  else if String.eqb r Eight then 8
  else if String.eqb r Nine then 9
  else 0.

(** ** The deck ([deck.go]) *)

Module Deck.
Record t : Type := mk { Cards : list Card.t }.
End Deck.

Definition suits : list Suit := [Hearts; Diamonds; Clubs; Spades].
Definition ranks : list Rank :=
  [Ace; Two; Three; Four; Five; Six; Seven; Eight; Nine; Ten; Jack; Queen; King].

(** [func NewDeck() *Deck]: the two nested [range] loops append one card
    per suit and rank. *)
Definition NewDeck : Deck.t :=
  Deck.mk
    (foldl (fun cards suit =>
              foldl (fun cards rank => cards ++ [Card.mk suit rank 0 true])
                    cards ranks)
           [] suits).

(** [d.Cards[i], d.Cards[j] = d.Cards[j], d.Cards[i]]: both operands are
    read before the two stores. *)
Definition swap (i j : nat) (cards : list Card.t) : list Card.t :=
  match cards !! i, cards !! j with
  | Some ci, Some cj => <[j := ci]> (<[i := cj]> cards)
  | _, _ => cards
  end.

(** The loop of [Shuffle], [for i := len(d.Cards) - 1; i > 0; i--], entered
    at index [i].  [rnd i] is the raw value behind the call [r.Intn(i + 1)]
    made at index [i]; [Intn] returns a value below its argument. *)
Fixpoint shuffle_from (rnd : nat -> nat) (i : nat) (cards : list Card.t)
  : list Card.t :=
  match i with
  | O => cards
  | S i' =>
      let j := (rnd i mod (i + 1))%nat in
      shuffle_from rnd i' (swap i j cards)
  end.

(** [func (d *Deck) Shuffle()] *)
Definition Shuffle (rnd : nat -> nat) (d : Deck.t) : Deck.t :=
  Deck.mk (shuffle_from rnd (length (Deck.Cards d) - 1)%nat (Deck.Cards d)).

(** [func (d *Deck) DrawCard() (Card, bool)] *)
Definition DrawCard (d : Deck.t) : Card.t * bool * Deck.t :=
  match Deck.Cards d with
  | [] => (Card.zero, false, d)
  | card :: rest => (card, true, Deck.mk rest)
  end.

(** [func (d *Deck) RemainingCards() int] *)
Definition RemainingCards (d : Deck.t) : Z := Z.of_nat (length (Deck.Cards d)).

(** ** Hand scoring ([blackjack.go], [CalculateHandScore]) *)

(** First pass: [score] and [aces] after the [range] loop over the hand.
    A hand of [n] cards scores at most [11 * n], so [score] never
    wraps. *)
Definition count_hand (hand : list Card.t) : Z * nat :=
  foldl (fun '(score, aces) card =>
           (score + GetValue card,
            if String.eqb (Card.Rank card) Ace then S aces else aces))
        (0, O) hand.

(** Second pass: [for aces > 0 && score > 21 { score -= 10; aces-- }]. *)
Fixpoint convert_aces (aces : nat) (score : Z) : Z :=
  match aces with
  | O => score
  | S aces' => if 21 <? score then convert_aces aces' (score - 10) else score
  end.

Definition CalculateHandScore (hand : list Card.t) : Z :=
  let '(score, aces) := count_hand hand in
  convert_aces aces score.

(** ** Engine state ([blackjack.go]) *)

Inductive GameStatus : Type :=
  | Waiting      (* "waiting" *)
  | Betting      (* "betting" *)
  | InProgress   (* "inProgress" *)
  | Completed.   (* "completed" *)

Inductive PlayerStatus : Type :=
  | PlayerActive      (* "active" *)
  | PlayerBusted      (* "busted" *)
  | PlayerStood       (* "stood" *)
  | PlayerBlackjack.  (* "blackjack" *)

#[global] Instance GameStatus_eq_dec : EqDecision GameStatus.
Proof. solve_decision. Defined.

#[global] Instance PlayerStatus_eq_dec : EqDecision PlayerStatus.
Proof. solve_decision. Defined.

Definition GameStatus_eqb (a b : GameStatus) : bool :=
  match a, b with
  | Waiting, Waiting | Betting, Betting
  | InProgress, InProgress | Completed, Completed => true
  | _, _ => false
  end.

Definition PlayerStatus_eqb (a b : PlayerStatus) : bool :=
  match a, b with
  | PlayerActive, PlayerActive | PlayerBusted, PlayerBusted
  | PlayerStood, PlayerStood | PlayerBlackjack, PlayerBlackjack => true
  | _, _ => false
  end.

(** [time.Time], as a count of nanoseconds. *)
Definition Time := Z.

Module Player.
Record t : Type := mk
  { ID : string;
    Name : string;
    Hand : list Card.t;
    Score : Z;
    Status : PlayerStatus;
    Bet : Z;
    Balance : Z;
    IsActive : bool }.

Definition set_Hand (h : list Card.t) (p : t) : t :=
  mk (ID p) (Name p) h (Score p) (Status p) (Bet p) (Balance p) (IsActive p).
Definition set_Score (s : Z) (p : t) : t :=
  mk (ID p) (Name p) (Hand p) s (Status p) (Bet p) (Balance p) (IsActive p).
Definition set_Status (s : PlayerStatus) (p : t) : t :=
  mk (ID p) (Name p) (Hand p) (Score p) s (Bet p) (Balance p) (IsActive p).
Definition set_Bet (b : Z) (p : t) : t :=
  mk (ID p) (Name p) (Hand p) (Score p) (Status p) b (Balance p) (IsActive p).
Definition set_Balance (b : Z) (p : t) : t :=
  mk (ID p) (Name p) (Hand p) (Score p) (Status p) (Bet p) b (IsActive p).
Definition set_IsActive (a : bool) (p : t) : t :=
  mk (ID p) (Name p) (Hand p) (Score p) (Status p) (Bet p) (Balance p) a.
End Player.

Module Dealer.
Record t : Type := mk
  { Hand : list Card.t;
    Score : Z }.
End Dealer.

Module BlackjackGame.
Record t : Type := mk
  { ID : string;
    Players : list Player.t;
    Dealer : Dealer.t;
    Deck : Deck.t;
    Status : GameStatus;
    CreatedAt : Time;
    UpdatedAt : Time;
    MinBet : Z;
    MaxBet : Z;
    TableID : string;
    CurrentPlayerIndex : nat }.

Definition set_Players (ps : list Player.t) (g : t) : t :=
  mk (ID g) ps (Dealer g) (Deck g) (Status g) (CreatedAt g) (UpdatedAt g)
     (MinBet g) (MaxBet g) (TableID g) (CurrentPlayerIndex g).
Definition set_Dealer (d : Dealer.t) (g : t) : t :=
  mk (ID g) (Players g) d (Deck g) (Status g) (CreatedAt g) (UpdatedAt g)
     (MinBet g) (MaxBet g) (TableID g) (CurrentPlayerIndex g).
Definition set_Deck (d : Deck.t) (g : t) : t :=
  mk (ID g) (Players g) (Dealer g) d (Status g) (CreatedAt g) (UpdatedAt g)
     (MinBet g) (MaxBet g) (TableID g) (CurrentPlayerIndex g).
Definition set_Status (s : GameStatus) (g : t) : t :=
  mk (ID g) (Players g) (Dealer g) (Deck g) s (CreatedAt g) (UpdatedAt g)
     (MinBet g) (MaxBet g) (TableID g) (CurrentPlayerIndex g).
Definition set_UpdatedAt (u : Time) (g : t) : t :=
  mk (ID g) (Players g) (Dealer g) (Deck g) (Status g) (CreatedAt g) u
     (MinBet g) (MaxBet g) (TableID g) (CurrentPlayerIndex g).
Definition set_CurrentPlayerIndex (i : nat) (g : t) : t :=
  mk (ID g) (Players g) (Dealer g) (Deck g) (Status g) (CreatedAt g)
     (UpdatedAt g) (MinBet g) (MaxBet g) (TableID g) i.

(** [g.Players[i] = f(g.Players[i])] *)
Definition update_player (i : nat) (f : Player.t -> Player.t) (g : t) : t :=
  set_Players (alter f i (Players g)) g.
End BlackjackGame.

Import BlackjackGame.

(** The index at which a [for i, p := range ...] loop first meets an element
    satisfying its [if]. *)
Fixpoint first_index {A : Type} (f : A -> bool) (l : list A) : option nat :=
  match l with
  | [] => None
  | x :: l' => if f x then Some O else S <$> first_index f l'
  end.

(** ** Engine operations *)

(** [func NewBlackjackGame(tableID string, minBet, maxBet int) *BlackjackGame];
    [id] is the fresh UUID. *)
Definition NewBlackjackGame (id : string) (rnd : nat -> nat) (now : Time)
    (tableID : string) (minBet maxBet : Z) : BlackjackGame.t :=
  let deck := Shuffle rnd NewDeck in
  BlackjackGame.mk id [] (Dealer.mk [] 0) deck Waiting now now
                   minBet maxBet tableID O.

(** [func (g *BlackjackGame) AddPlayer(playerID, playerName string,
    initialBalance int) *Player].  The result is the seat the returned
    pointer refers to, [None] for [nil].  (The [fmt.Println] calls write to
    standard output only.) *)
Definition AddPlayer (now : Time) (g : BlackjackGame.t)
    (playerID playerName : string) (initialBalance : Z)
  : option Player.t * BlackjackGame.t :=
  match first_index (fun p => String.eqb (Player.ID p) playerID) (Players g) with
  | Some i =>
      if GameStatus_eqb (Status g) Waiting then
        let g' := update_player i (Player.set_IsActive true) g in
        (Players g' !! i, g')
      else (Players g !! i, g)
  | None =>
      if negb (GameStatus_eqb (Status g) Waiting) then (None, g)
      else
        let player :=
          Player.mk playerID playerName [] 0 PlayerActive 0 initialBalance false in
        (Some player,
         set_UpdatedAt now (set_Players (Players g ++ [player]) g))
  end.

(** [func (g *BlackjackGame) RemovePlayer(playerID string) bool] *)
Definition RemovePlayer (now : Time) (g : BlackjackGame.t) (playerID : string)
  : bool * BlackjackGame.t :=
  match first_index (fun p => String.eqb (Player.ID p) playerID) (Players g) with
  | Some i =>
      (true,
       set_UpdatedAt now
         (set_Players (take i (Players g) ++ drop (S i) (Players g)) g))
  | None => (false, g)
  end.

(** [func (g *BlackjackGame) PlaceBet(playerID string, amount int) bool] *)
Definition PlaceBet (now : Time) (g : BlackjackGame.t) (playerID : string)
    (amount : Z) : bool * BlackjackGame.t :=
  if negb (GameStatus_eqb (Status g) Betting) then (false, g)
  else if (amount <? MinBet g) || (MaxBet g <? amount) then (false, g)
  else
    match first_index (fun p => String.eqb (Player.ID p) playerID) (Players g) with
    | Some i =>
        match Players g !! i with
        | Some p =>
            if Player.Balance p <? amount then (false, g)
            else
              let g1 := update_player i (Player.set_Bet amount) g in
              let g2 :=
                update_player i
                  (fun q => Player.set_Balance (wrap (Player.Balance q - amount)) q)
                  g1 in
              (true, set_UpdatedAt now g2)
        | None => (false, g)
        end
    | None => (false, g)
    end.

(** One iteration of the player loop of [DealInitialCards].  The second
    result of [DrawCard] is discarded, as in the source. *)
Definition deal_player (deck : Deck.t) (p : Player.t) : Deck.t * Player.t :=
  let '(card1, _, deck1) := DrawCard deck in
  let card1 := Card.set_Face true card1 in
  let p1 := Player.set_Hand (Player.Hand p ++ [card1]) p in
  let '(card2, _, deck2) := DrawCard deck1 in
  let card2 := Card.set_Face true card2 in
  let p2 := Player.set_Hand (Player.Hand p1 ++ [card2]) p1 in
  let p3 := Player.set_Score (CalculateHandScore (Player.Hand p2)) p2 in
  let p4 :=
    if Player.Score p3 =? 21 then Player.set_Status PlayerBlackjack p3 else p3 in
  (deck2, p4).

Fixpoint deal_players (deck : Deck.t) (players : list Player.t)
  : Deck.t * list Player.t :=
  match players with
  | [] => (deck, [])
  | p :: rest =>
      let '(deck1, p') := deal_player deck p in
      let '(deck2, rest') := deal_players deck1 rest in
      (deck2, p' :: rest')
  end.

(** [func (g *BlackjackGame) DealInitialCards()] *)
Definition DealInitialCards (g : BlackjackGame.t) : BlackjackGame.t :=
  let '(deck1, players) := deal_players (Deck g) (Players g) in
  let '(dealerCard1, _, deck2) := DrawCard deck1 in
  let dealerCard1 := Card.set_Face true dealerCard1 in
  let hand1 := Dealer.Hand (Dealer g) ++ [dealerCard1] in
  let '(dealerCard2, _, deck3) := DrawCard deck2 in
  let dealerCard2 := Card.set_Face false dealerCard2 in
  let hand2 := hand1 ++ [dealerCard2] in
  set_Dealer (Dealer.mk hand2 (GetValue dealerCard1))
    (set_Deck deck3 (set_Players players g)).

(** [func (g *BlackjackGame) Start() bool] *)
Definition Start (now : Time) (g : BlackjackGame.t) : bool * BlackjackGame.t :=
  if negb (GameStatus_eqb (Status g) Betting)
     || (length (Players g) =? 0)%nat then (false, g)
  else if existsb (fun p => Player.Bet p =? 0) (Players g) then (false, g)
  else
    let g1 := DealInitialCards g in
    let g2 := set_UpdatedAt now (set_Status InProgress g1) in
    let g3 := set_CurrentPlayerIndex O g2 in
    (true, update_player O (Player.set_IsActive true) g3).

(** [float64(z)]: the binary64 float nearest to the integer [z] (IEEE 754,
    53 bits of precision, round to nearest even). *)
Definition float64_of_int (z : Z) : spec_float :=
  binary_normalize 53 1024 z 0 false.

(** The constant [1.5], that is [3 * 2 ^ 51 * 2 ^ (-52)]. *)
Definition float64_1_5 : spec_float := S754_finite false 6755399441055744 (-52).

(** [int(f)]: the fraction is discarded (rounding toward zero).  For a
    value that does not fit [int], for an infinity and for a NaN the Go
    specification leaves the result to the implementation; amd64 yields
    the least [int]. *)
Definition int_of_float64 (f : spec_float) : Z :=
  match f with
  | S754_zero _ => 0
  | S754_finite s m e =>
      let magnitude :=
        match e with
        | Z0 => Zpos m
        | Zpos k => Zpos m * 2 ^ Zpos k
        | Zneg k => Zpos m / 2 ^ Zpos k
        end in
      let z := if s then - magnitude else magnitude in
      if (int_min <=? z) && (z <=? int_max) then z else int_min
  | _ => int_min
  end.

(** [int(float64(bet) * 1.5)] *)
Definition mul_1_5_to_int (bet : Z) : Z :=
  int_of_float64 (SFmul 53 1024 (float64_of_int bet) float64_1_5).

(** Bets up to this magnitude go through [float64] without rounding
    (see [mul_1_5_to_int_exact]). *)
Definition float64_exact_bound : Z := 2 ^ 51.

(** The body of the loop of [DetermineWinners] for one seat; [default]
    covers [PlayerActive] and [PlayerStood]. *)
Definition settle (dealer : Dealer.t) (player : Player.t) : Player.t :=
  let dealerScore := Dealer.Score dealer in
  let dealerBusted := 21 <? dealerScore in
  let playerScore := Player.Score player in
  let bet := Player.Bet player in
  let pay amount :=
    Player.set_Balance (wrap (Player.Balance player + amount)) player in
  match Player.Status player with
  | PlayerBusted => player
  | PlayerBlackjack =>
      if (length (Dealer.Hand dealer) =? 2)%nat && (dealerScore =? 21)
      then pay bet
      else pay (wrap (bet + mul_1_5_to_int bet))
  | _ =>
      if dealerBusted then pay (wrap (bet * 2))
      else if dealerScore <? playerScore then pay (wrap (bet * 2))
      else if playerScore =? dealerScore then pay bet
      else player
  end.

(** [func (g *BlackjackGame) DetermineWinners()] *)
Definition DetermineWinners (g : BlackjackGame.t) : BlackjackGame.t :=
  set_Players (settle (Dealer g) <$> Players g) g.

(** The drawing loop of [DealerTurn], [for g.Dealer.Score < 17 { ... }],
    over the cards left in the deck; on an empty deck [DrawCard] fails and
    the loop breaks. *)
Fixpoint dealer_draws (cards : list Card.t) (dealer : Dealer.t)
  : list Card.t * Dealer.t :=
  match cards with
  | [] => ([], dealer)
  | card :: rest =>
      if Dealer.Score dealer <? 17 then
        let hand := Dealer.Hand dealer ++ [Card.set_Face true card] in
        dealer_draws rest (Dealer.mk hand (CalculateHandScore hand))
      else (cards, dealer)
  end.

(** [func (g *BlackjackGame) DealerTurn()] *)
Definition DealerTurn (now : Time) (g : BlackjackGame.t) : BlackjackGame.t :=
  let hand := Card.set_Face true <$> Dealer.Hand (Dealer g) in
  let dealer := Dealer.mk hand (CalculateHandScore hand) in
  let '(cards, dealer') := dealer_draws (Deck.Cards (Deck g)) dealer in
  let g1 := set_Deck (Deck.mk cards) (set_Dealer dealer' g) in
  let g2 := DetermineWinners g1 in
  set_UpdatedAt now (set_Status Completed g2).

Definition status_at (g : BlackjackGame.t) (i : nat) : option PlayerStatus :=
  Player.Status <$> Players g !! i.

(** The [for { ... }] loop of [NextPlayer]; [fuel] bounds the number of
    iterations, and [length (Players g)] of them are enough
    (see [scan_players_spec] and [NextPlayer_spec]). *)
Fixpoint scan_players (fuel : nat) (now : Time) (startIndex nextIndex : nat)
    (g : BlackjackGame.t) : option BlackjackGame.t :=
  match fuel with
  | O => None
  | S fuel' =>
      match status_at g nextIndex with
      | Some PlayerActive =>
          Some (update_player nextIndex (Player.set_IsActive true)
                  (set_CurrentPlayerIndex nextIndex g))
      | _ =>
          let nextIndex' := ((nextIndex + 1) mod length (Players g))%nat in
          if (nextIndex' =? startIndex)%nat then Some (DealerTurn now g)
          else scan_players fuel' now startIndex nextIndex' g
      end
  end.

(** [func (g *BlackjackGame) NextPlayer()].  Both callers hold the index of
    a seat, so [Players g] is not empty and [%] does not divide by zero. *)
Definition NextPlayer (now : Time) (g : BlackjackGame.t) : BlackjackGame.t :=
  let nextIndex := ((CurrentPlayerIndex g + 1) mod length (Players g))%nat in
  default g (scan_players (length (Players g)) now nextIndex nextIndex g).

(** The test of the [range] loops of [Hit] and [Stand]. *)
Definition may_act (playerID : string) (p : Player.t) : bool :=
  String.eqb (Player.ID p) playerID && Player.IsActive p
  && PlayerStatus_eqb (Player.Status p) PlayerActive.

(** [func (g *BlackjackGame) Hit(playerID string) (Card, bool)] *)
Definition Hit (now : Time) (g : BlackjackGame.t) (playerID : string)
  : Card.t * bool * BlackjackGame.t :=
  if negb (GameStatus_eqb (Status g) InProgress) then (Card.zero, false, g)
  else
    match first_index (may_act playerID) (Players g) with
    | None => (Card.zero, false, g)
    | Some i =>
        let '(card, success, deck) := DrawCard (Deck g) in
        if negb success then (Card.zero, false, g)
        else
          let card := Card.set_Face true card in
          let g1 :=
            update_player i
              (fun p => Player.set_Hand (Player.Hand p ++ [card]) p)
              (set_Deck deck g) in
          let g2 :=
            update_player i
              (fun p => Player.set_Score (CalculateHandScore (Player.Hand p)) p)
              g1 in
          let busted :=
            match Players g2 !! i with
            | Some p => 21 <? Player.Score p
            | None => false
            end in
          let g3 :=
            if busted then
              NextPlayer now
                (update_player i (Player.set_IsActive false)
                   (update_player i (Player.set_Status PlayerBusted) g2))
            else g2 in
          (card, true, set_UpdatedAt now g3)
    end.

(** [func (g *BlackjackGame) Stand(playerID string) bool] *)
Definition Stand (now : Time) (g : BlackjackGame.t) (playerID : string)
  : bool * BlackjackGame.t :=
  if negb (GameStatus_eqb (Status g) InProgress) then (false, g)
  else
    match first_index (may_act playerID) (Players g) with
    | None => (false, g)
    | Some i =>
        let g1 :=
          update_player i (Player.set_IsActive false)
            (update_player i (Player.set_Status PlayerStood) g) in
        (true, set_UpdatedAt now (NextPlayer now g1))
    end.

(** [func (g *BlackjackGame) PrepareForNextRound()] *)
Definition PrepareForNextRound (rnd : nat -> nat) (now : Time)
    (g : BlackjackGame.t) : BlackjackGame.t :=
  let deck := Shuffle rnd NewDeck in
  let reset p :=
    Player.set_IsActive false
      (Player.set_Bet 0
         (Player.set_Status PlayerActive
            (Player.set_Score 0 (Player.set_Hand [] p)))) in
  set_UpdatedAt now
    (set_Status Betting
       (set_Players (reset <$> Players g)
          (set_Dealer (Dealer.mk [] 0) (set_Deck deck g)))).

(** ** Engine runs *)

Inductive Op : Type :=
  | OpAddPlayer (playerID playerName : string) (initialBalance : Z)
  | OpRemovePlayer (playerID : string)
  | OpPlaceBet (playerID : string) (amount : Z)
  | OpStart
  | OpHit (playerID : string)
  | OpStand (playerID : string)
  | OpPrepareForNextRound (rnd : nat -> nat)
  | OpCloseIdleTable.

(** What the table host does after a seat is removed
    ([if len(g.Players) == 0 { g.Status = game.Completed }]). *)
Definition CloseIdleTable (g : BlackjackGame.t) : BlackjackGame.t :=
  if (length (Players g) =? 0)%nat then set_Status Completed g else g.

(** The game an engine call leaves behind. *)
Definition exec (now : Time) (op : Op) (g : BlackjackGame.t) : BlackjackGame.t :=
  match op with
  | OpAddPlayer playerID playerName initialBalance =>
      (AddPlayer now g playerID playerName initialBalance).2
  | OpRemovePlayer playerID => (RemovePlayer now g playerID).2
  | OpPlaceBet playerID amount => (PlaceBet now g playerID amount).2
  | OpStart => (Start now g).2
  | OpHit playerID => (Hit now g playerID).2
  | OpStand playerID => (Stand now g playerID).2
  | OpPrepareForNextRound rnd => PrepareForNextRound rnd now g
  | OpCloseIdleTable => CloseIdleTable g
  end.

Fixpoint run (calls : list (Time * Op)) (g : BlackjackGame.t) : BlackjackGame.t :=
  match calls with
  | [] => g
  | (now, op) :: rest => run rest (exec now op g)
  end.

(** Games the engine can be in: a new game, then any calls, and closings of
    the idle table by its host, that satisfy [allowed] in the state they
    are made in. *)
Inductive reachable_by (allowed : BlackjackGame.t -> Op -> Prop)
  : BlackjackGame.t -> Prop :=
  | reachable_new id rnd now tableID minBet maxBet :
      reachable_by allowed (NewBlackjackGame id rnd now tableID minBet maxBet)
  | reachable_call g now op :
      reachable_by allowed g -> allowed g op ->
      reachable_by allowed (exec now op g).

Definition reachable : BlackjackGame.t -> Prop := reachable_by (fun _ _ => True).

(** Calls that remove no seat while a round is in progress. *)
Definition keeps_seats (g : BlackjackGame.t) (op : Op) : Prop :=
  forall playerID, op = OpRemovePlayer playerID -> Status g <> InProgress.

Definition is_play (op : Op) : bool :=
  match op with
  | OpHit _ | OpStand _ => true
  | _ => false
  end.

(** ** Notions the properties are stated with *)

(** The first seat with the given id, as the [range] loops of [AddPlayer],
    [RemovePlayer] and [PlaceBet] find it. *)
Definition seat_of (g : BlackjackGame.t) (playerID : string) : option nat :=
  first_index (fun p => String.eqb (Player.ID p) playerID) (Players g).

(** Sum of the card values of a hand, and its number of aces. *)
Definition hand_total (hand : list Card.t) : Z :=
  foldr (fun card total => GetValue card + total) 0 hand.

Definition aces_in (hand : list Card.t) : nat :=
  length (filter (fun card => Card.Rank card = Ace) hand).

(** Card values by rank: ace 11, ten and faces 10, numerals at face value. *)
Definition rank_values : list (Rank * Z) :=
  [(Ace, 11); (Two, 2); (Three, 3); (Four, 4); (Five, 5); (Six, 6); (Seven, 7);
   (Eight, 8); (Nine, 9); (Ten, 10); (Jack, 10); (Queen, 10); (King, 10)].

(** The dealer holds a blackjack: two cards that total 21. *)
Definition dealer_blackjack (dealer : Dealer.t) : Prop :=
  length (Dealer.Hand dealer) = 2%nat /\ Dealer.Score dealer = 21.

#[local] Instance dealer_blackjack_dec dealer : Decision (dealer_blackjack dealer).
Proof. unfold dealer_blackjack. apply _. Defined.

(** What a seat is paid at settlement, in the words of the rules: nothing
    when busted; on a blackjack the bet back when the dealer has one too,
    else the bet and one and a half bets, rounded toward zero; otherwise
    twice the bet against a dealer over 21 or a lower dealer score, the bet
    on equal scores, nothing on a lower score. *)
Definition payout (dealer : Dealer.t) (p : Player.t) : Z :=
  match Player.Status p with
  | PlayerBusted => 0
  | PlayerBlackjack =>
      if decide (dealer_blackjack dealer) then Player.Bet p
      else Player.Bet p + Z.quot (3 * Player.Bet p) 2
  | PlayerActive | PlayerStood =>
      if decide (21 < Dealer.Score dealer \/ Dealer.Score dealer < Player.Score p)
      then 2 * Player.Bet p
      else if decide (Player.Score p = Dealer.Score dealer) then Player.Bet p
      else 0
  end.

(** The same for a bet of any size: the doubling is done in [int], and the
    one and a half bets are [int(float64(bet) * 1.5)], which is
    [Z.quot (3 * bet) 2] as long as [float64] holds the bet exactly. *)
Definition payout_int (dealer : Dealer.t) (p : Player.t) : Z :=
  match Player.Status p with
  | PlayerBusted => 0
  | PlayerBlackjack =>
      if decide (dealer_blackjack dealer) then Player.Bet p
      else wrap (Player.Bet p + mul_1_5_to_int (Player.Bet p))
  | PlayerActive | PlayerStood =>
      if decide (21 < Dealer.Score dealer \/ Dealer.Score dealer < Player.Score p)
      then wrap (2 * Player.Bet p)
      else if decide (Player.Score p = Dealer.Score dealer) then Player.Bet p
      else 0
  end.

(** What identifies a card, whichever way it faces. *)
Definition card_id (c : Card.t) : Suit * Rank := (Card.Suit c, Card.Rank c).

(** The cards of a game: deck, hands of the seats, dealer's hand. *)

Definition hands (players : list Player.t) : list Card.t :=
  concat (Player.Hand <$> players).

Definition all_cards (g : BlackjackGame.t) : list Card.t :=
  Deck.Cards (Deck g) ++ hands (Players g) ++ Dealer.Hand (Dealer g).

Definition standard52 : list (Suit * Rank) :=
  s ← suits; r ← ranks; [(s, r)].

Definition conserves_cards (g : BlackjackGame.t) : Prop :=
  card_id <$> all_cards g ≡ₚ standard52.

(** A seat after it is dealt one more card face up, as [Hit] does. *)
Definition dealt (card : Card.t) (p : Player.t) : Player.t :=
  let hand := Player.Hand p ++ [Card.set_Face true card] in
  Player.set_Score (CalculateHandScore hand) (Player.set_Hand hand p).

(** A seat at the end of its turn. *)
Definition retire (status : PlayerStatus) (p : Player.t) : Player.t :=
  Player.set_IsActive false (Player.set_Status status p).

(** Handing the turn to seat [j], as [NextPlayer] does. *)
Definition give_turn (j : nat) (g : BlackjackGame.t) : BlackjackGame.t :=
  update_player j (Player.set_IsActive true) (set_CurrentPlayerIndex j g).

(** A table between rounds: the deck holds the 52 cards and no hand holds
    any. *)
Definition fresh_table (g : BlackjackGame.t) : Prop :=
  card_id <$> Deck.Cards (Deck g) ≡ₚ standard52 /\
  Dealer.Hand (Dealer g) = [] /\
  Forall (fun p => Player.Hand p = []) (Players g).

(** Two games hold the same cards, whatever their faces show. *)
Definition same_cards (g1 g2 : BlackjackGame.t) : Prop :=
  card_id <$> all_cards g1 ≡ₚ card_id <$> all_cards g2.

(** Calls that remove no seat during a round and start a round only when
    the 52 cards cover the initial deal: two cards a seat and two for the
    dealer. *)
Definition covered_deal (g : BlackjackGame.t) (op : Op) : Prop :=
  keeps_seats g op /\
  (op = OpStart -> (2 * length (Players g) + 2 <= 52)%nat).

(** Number of seats whose turn flag is set. *)
Definition flag (p : Player.t) : nat := if Player.IsActive p then 1 else 0.

Fixpoint active_seats (players : list Player.t) : nat :=
  match players with
  | [] => O
  | p :: rest => (flag p + active_seats rest)%nat
  end.

(** While a round is in progress exactly one seat has the turn. *)
Definition turn_invariant (g : BlackjackGame.t) : Prop :=
  Status g = InProgress -> active_seats (Players g) = 1%nat.

(** Calls that, while a round is in progress, do not remove the seat that
    holds the turn: the seat [RemovePlayer] would remove, the first one
    with the id, is not flagged.  Any other seat may leave, at any time. *)
Definition keeps_turn_seat (g : BlackjackGame.t) (op : Op) : Prop :=
  forall playerID i p,
    op = OpRemovePlayer playerID -> Status g = InProgress ->
    seat_of g playerID = Some i -> Players g !! i = Some p ->
    Player.IsActive p = false.


(** Settlement under which a blackjack is only refunded when the dealer
    reaches 21 with three or more cards. *)
Definition long_21_pushes (g : BlackjackGame.t) : Prop :=
  forall i p p',
    Players g !! i = Some p ->
    Players (DetermineWinners g) !! i = Some p' ->
    Player.Status p = PlayerBlackjack ->
    (3 <= length (Dealer.Hand (Dealer g)))%nat ->
    Dealer.Score (Dealer g) = 21 ->
    Player.Balance p' = Player.Balance p + Player.Bet p.

(** Joining again never changes a seat or the game. *)
Definition rejoin_is_noop (g : BlackjackGame.t) : Prop :=
  forall now playerID playerName initialBalance i p,
    seat_of g playerID = Some i ->
    Players g !! i = Some p ->
    AddPlayer now g playerID playerName initialBalance = (Some p, g).

(** ** Concrete games *)

Definition up (suit : Suit) (rank : Rank) : Card.t := Card.mk suit rank 0 true.


(** A table about to be settled: Ann holds a blackjack on a bet of 10, Bob
    stood on 19, the dealer drew to 21 with three sevens. *)
Definition game_long_21 : BlackjackGame.t :=
  BlackjackGame.mk "g2"
    [Player.mk "p1" "Ann" [up Spades Ace; up Hearts King] 21 PlayerBlackjack 10 90 false;
     Player.mk "p2" "Bob" [up Spades Ten; up Hearts Nine] 19 PlayerStood 10 90 false]
    (Dealer.mk [up Clubs Seven; up Diamonds Seven; up Hearts Seven] 21)
    (Deck.mk []) InProgress 0 0 1 100 "t1" 1%nat.

(** A random source under which [Shuffle] leaves the order as it is. *)
Definition no_shuffle : nat -> nat := fun i => i.

(** Ann and Bob have joined a new table and the round is prepared. *)
Definition table_open : BlackjackGame.t :=
  run [(1, OpAddPlayer "p1" "Ann" 1000); (2, OpAddPlayer "p2" "Bob" 1000);
       (3, OpPrepareForNextRound no_shuffle)]
      (NewBlackjackGame "g7" no_shuffle 0 "t1" 10 1000).

(** A new table that Ann has joined. *)
Definition game_waiting : BlackjackGame.t :=
  (AddPlayer 1 (NewBlackjackGame "g3" no_shuffle 0 "t1" 10 1000) "p1" "Ann" 1000).2.

(** Ann and Bob join a new table, the round is prepared, both bet 10 and
    the round starts; with the deck in its initial order Ann holds ace and
    two, Bob three and four, the dealer five and six. *)
Definition round_of_two : BlackjackGame.t :=
  run [(1, OpAddPlayer "p1" "Ann" 1000); (2, OpAddPlayer "p2" "Bob" 1000);
       (3, OpPrepareForNextRound no_shuffle);
       (4, OpPlaceBet "p1" 10); (5, OpPlaceBet "p2" 10); (6, OpStart)]
      (NewBlackjackGame "g5" no_shuffle 0 "t1" 10 1000).

(** A random source whose only exchange puts the king of hearts behind the
    ace of hearts on top of the deck. *)
Definition blackjack_shuffle : nat -> nat :=
  fun i => if (i =? 12)%nat then 1%nat else i.

(** Ann and Bob have bet on a deck that deals Ann ace and king. *)
Definition table_before_blackjack : BlackjackGame.t :=
  run [(1, OpAddPlayer "p1" "Ann" 1000); (2, OpAddPlayer "p2" "Bob" 1000);
       (3, OpPrepareForNextRound blackjack_shuffle);
       (4, OpPlaceBet "p1" 10); (5, OpPlaceBet "p2" 10)]
      (NewBlackjackGame "g6" no_shuffle 0 "t1" 10 1000).

(** Twenty-six players join a new table, the round is prepared and each
    bets 10. *)
Definition crowd : list string :=
  ["a"; "b"; "c"; "d"; "e"; "f"; "g"; "h"; "i"; "j"; "k"; "l"; "m";
   "n"; "o"; "p"; "q"; "r"; "s"; "t"; "u"; "v"; "w"; "x"; "y"; "z"].

Definition crowded_table : BlackjackGame.t :=
  run (((fun id => (1, OpAddPlayer id id 1000)) <$> crowd)
       ++ [(2, OpPrepareForNextRound no_shuffle)]
       ++ ((fun id => (3, OpPlaceBet id 10)) <$> crowd))
      (NewBlackjackGame "g4" no_shuffle 0 "t1" 10 1000).

(** The round is started on the crowded table. *)
Definition crowded_round : BlackjackGame.t := (Start 4 crowded_table).2.

(** Ann, whose turn it is, leaves the table. *)
Definition game_abandoned : BlackjackGame.t :=
  run [(7, OpRemovePlayer "p1")] round_of_two.

(** A table at the dealer's turn: Ann stood on 17 and Bob on 19, each on
    a bet of 10; the dealer holds ten and five, the five face down, and
    the deck two and nine. *)
Definition game_dealer_to_play : BlackjackGame.t :=
  BlackjackGame.mk "g8"
    [Player.mk "p1" "Ann" [up Spades Ten; up Hearts Seven] 17 PlayerStood 10 90 false;
     Player.mk "p2" "Bob" [up Spades Nine; up Hearts Ten] 19 PlayerStood 10 90 false]
    (Dealer.mk [up Clubs Ten; Card.mk Diamonds Five 0 false] 10)
    (Deck.mk [up Hearts Two; up Clubs Nine]) InProgress 0 0 1 100 "t1" 1%nat.

(** The round of Ann and Bob, Ann to move, with no card left in the deck. *)
Definition game_deck_empty : BlackjackGame.t :=
  set_Deck (Deck.mk []) round_of_two.


(** ** Further notions *)

(** The total of a hand with every ace counted as 1. *)
Definition hard_total (hand : list Card.t) : Z :=
  hand_total hand - 10 * Z.of_nat (aces_in hand).

(** A seat after the initial deal gave it [c1] and [c2]. *)
Definition seat_dealt (c1 c2 : Card.t) (p : Player.t) : Player.t :=
  let hand := Player.Hand p ++ [Card.set_Face true c1; Card.set_Face true c2] in
  let score := CalculateHandScore hand in
  Player.mk (Player.ID p) (Player.Name p) hand score
            (if score =? 21 then PlayerBlackjack else Player.Status p)
            (Player.Bet p) (Player.Balance p) (Player.IsActive p).

(** The ids of the seats, in seating order. *)
Definition seat_ids (g : BlackjackGame.t) : list string :=
  Player.ID <$> Players g.

(** A seat after a deal holds the same id, bet and balance. *)
Definition same_stake (p p' : Player.t) : Prop :=
  Player.ID p' = Player.ID p /\ Player.Bet p' = Player.Bet p /\
  Player.Balance p' = Player.Balance p.

(** * Game storage ([internal/store]: [MemoryStore])

    The store keeps pointers to games.  A pointer is an address [ptr], and
    the games the addresses hold are given by a heap [h]; the store reads a
    game's [ID], [TableID] and [Status] through its pointer at the time of
    the call.  (Callers pass the games they created or got from the store;
    [nil] is not an address.)  The two Go maps are finite maps, the slices
    of a table are lists.  The mutex is not modelled: every method holds
    it from its first to its last statement. *)

Definition ptr : Type := nat.

Definition Heap : Type := ptr -> BlackjackGame.t.

(** A Go result [(T, error)]. *)
Inductive result (A : Type) : Type :=
  | Ok (a : A)
  | Err (msg : string).

Arguments Ok {A} a.
Arguments Err {A} msg.

Module MemoryStore.
Record t : Type := mk {
  games : gmap string ptr;
  tables : gmap string (list ptr)
}.
End MemoryStore.

(** [func NewMemoryStore() *MemoryStore] *)
Definition NewMemoryStore : MemoryStore.t := MemoryStore.mk ∅ ∅.

(** [func (s *MemoryStore) SaveGame(g *game.BlackjackGame) error]; the
    error is always [nil]. *)
Definition SaveGame (h : Heap) (s : MemoryStore.t) (g : ptr) : MemoryStore.t :=
  let games := <[ID (h g) := g]> (MemoryStore.games s) in
  let tableGames := default [] (MemoryStore.tables s !! TableID (h g)) in
  MemoryStore.mk games
    (<[TableID (h g) := tableGames ++ [g]]> (MemoryStore.tables s)).

(** [func (s *MemoryStore) GetGame(id string)], returning the game or an
    error. *)
Definition GetGame (s : MemoryStore.t) (id : string) : result ptr :=
  match MemoryStore.games s !! id with
  | Some g => Ok g
  | None => Err "game not found"
  end.

(** [func (s *MemoryStore) GetTableGames(tableID string)]; the error is
    always [nil]. *)
Definition GetTableGames (s : MemoryStore.t) (tableID : string) : list ptr :=
  match MemoryStore.tables s !! tableID with
  | Some games => games
  | None => []
  end.

(** The loop of [GetActiveTableGame]. *)
Fixpoint first_active (h : Heap) (games : list ptr) : option ptr :=
  match games with
  | [] => None
  | g :: rest =>
      if negb (GameStatus_eqb (Status (h g)) Completed) then Some g
      else first_active h rest
  end.

(** [func (s *MemoryStore) GetActiveTableGame(tableID string)], returning
    the game or an error. *)
Definition GetActiveTableGame (h : Heap) (s : MemoryStore.t) (tableID : string)
  : result ptr :=
  match MemoryStore.tables s !! tableID with
  | None => Err "table not found"
  | Some games =>
      match first_active h games with
      | Some g => Ok g
      | None => Err "no active game found for table"
      end
  end.

(** [func (s *MemoryStore) DeleteGame(id string) error]: the error, if any,
    and the store it leaves. *)
Definition DeleteGame (h : Heap) (s : MemoryStore.t) (id : string)
  : option string * MemoryStore.t :=
  match MemoryStore.games s !! id with
  | None => (Some "game not found", s)
  | Some g =>
      let games := delete id (MemoryStore.games s) in
      let tables :=
        match MemoryStore.tables s !! TableID (h g) with
        | Some tableGames =>
            match first_index (fun game => String.eqb (ID (h game)) id)
                    tableGames with
            | Some i =>
                <[TableID (h g) := take i tableGames ++ drop (S i) tableGames]>
                  (MemoryStore.tables s)
            | None => MemoryStore.tables s
            end
        | None => MemoryStore.tables s
        end in
      (None, MemoryStore.mk games tables)
  end.

(** A handler that changed a game saves it again
    ([h.store.SaveGame(g)] after [GetGame] and the engine call):
    [n] such saves of the game at [g]. *)
Definition save_again (h : Heap) (n : nat) (g : ptr) (s : MemoryStore.t)
  : MemoryStore.t :=
  Nat.iter n (fun s => SaveGame h s g) s.

(** The heap after the game at [g] has been changed in place. *)
Definition heap_set (h : Heap) (g : ptr) (game : BlackjackGame.t) : Heap :=
  fun p => if (p =? g)%nat then game else h p.

(** What identifies a game for its callers and for the store. *)
Definition same_identity (g g' : BlackjackGame.t) : Prop :=
  ID g' = ID g /\ TableID g' = TableID g /\ CreatedAt g' = CreatedAt g /\
  MinBet g' = MinBet g /\ MaxBet g' = MaxBet g.

(** * The result the [Stand] handler records for a seat

    The body of the loop [for _, player := range g.Players] that the
    handler runs once the game is completed: the [result] and [winnings]
    it passes to [SaveGameResult]. *)
Definition recorded_result (dealer : Dealer.t) (player : Player.t) : string * Z :=
  if PlayerStatus_eqb (Player.Status player) PlayerBusted then ("lose", 0)
  else if PlayerStatus_eqb (Player.Status player) PlayerBlackjack then
    ("blackjack", wrap (Player.Bet player + mul_1_5_to_int (Player.Bet player)))
  else
    let dealerScore := Dealer.Score dealer in
    let playerScore := Player.Score player in
    if (21 <? dealerScore) || (dealerScore <? playerScore) then
      ("win", wrap (Player.Bet player * 2))
    else if playerScore =? dealerScore then ("push", Player.Bet player)
    else ("lose", 0).

(** * The view of a game sent to a player ([GetGameState])

    A [map[string]interface{}] is a finite map from keys to the values the
    function stores: fields of the game and of its seats, and, under
    "players", the list of the maps built for the seats. *)
Inductive Field : Type :=
  | FString (s : string)
  | FInt (z : Z)
  | FBool (b : bool)
  | FGameStatus (s : GameStatus)
  | FPlayerStatus (s : PlayerStatus)
  | FHand (hand : list Card.t)
  | FDealer (dealer : Dealer.t).

Inductive Value : Type :=
  | VField (f : Field)
  | VPlayers (players : list (gmap string Field)).

(** The map built for one seat in the loop of [GetGameState]. *)
Definition sanitizedPlayer (playerID : string) (player : Player.t)
  : gmap string Field :=
  let m : gmap string Field :=
    list_to_map
      [("id", FString (Player.ID player));
       ("name", FString (Player.Name player));
       ("score", FInt (Player.Score player));
       ("status", FPlayerStatus (Player.Status player));
       ("bet", FInt (Player.Bet player));
       ("isActive", FBool (Player.IsActive player))] in
  if String.eqb (Player.ID player) playerID then
    <["balance" := FInt (Player.Balance player)]>
      (<["hand" := FHand (Player.Hand player)]> m)
  else <["hand" := FHand (Player.Hand player)]> m.

(** [func (g *BlackjackGame) GetGameState(playerID string)
    map[string]interface{}] *)
Definition GetGameState (g : BlackjackGame.t) (playerID : string)
  : gmap string Value :=
  let gameState : gmap string Value :=
    list_to_map
      [("id", VField (FString (ID g)));
       ("status", VField (FGameStatus (Status g)));
       ("dealer", VField (FDealer (Dealer g)));
       ("tableId", VField (FString (TableID g)));
       ("minBet", VField (FInt (MinBet g)));
       ("maxBet", VField (FInt (MaxBet g)))] in
  <["players" := VPlayers (sanitizedPlayer playerID <$> Players g)]> gameState.

(** Two seats a viewer cannot tell apart: they agree on everything but,
    for a seat that is not the viewer's, the balance. *)
Definition same_seat_for (viewer : string) (p q : Player.t) : Prop :=
  Player.ID p = Player.ID q /\ Player.Name p = Player.Name q /\
  Player.Hand p = Player.Hand q /\ Player.Score p = Player.Score q /\
  Player.Status p = Player.Status q /\ Player.Bet p = Player.Bet q /\
  Player.IsActive p = Player.IsActive q /\
  (Player.ID p = viewer -> Player.Balance p = Player.Balance q).

(** [round_of_two] with another deck order, another clock, and another
    balance for Bob. *)
Definition round_of_two_elsewhere : BlackjackGame.t :=
  set_UpdatedAt 99
    (set_Deck (Deck.mk (reverse (Deck.Cards (Deck round_of_two))))
       (update_player 1 (Player.set_Balance 5) round_of_two)).

(** * The WebSocket hub ([internal/api]: [Hub.Run])

    Clients are pointers; [cptr] is an address, and the two fields of a
    client the hub reads, which are set when the client is created and
    never change, are given by [client].  The maps [clients] and
    [tables[t]], of type [map[*Client]bool], only ever hold [true] and are
    only asked for their keys, so they are sets.  [closed] holds the
    clients whose [send] channel has been closed.  Closing a closed
    channel, and sending on one, panic: the operations return [None] then.
    [Run] is a single goroutine, and it alone changes the registry, one
    case of its [select] at a time. *)

Definition cptr : Type := nat.

Module Client.
Record t : Type := mk { tableID : string; playerID : string }.
End Client.

Module Hub.
Record t : Type := mk {
  clients : gset cptr;
  tables : gmap string (gset cptr);
  playerMap : gmap string cptr;
  closed : gset cptr
}.
End Hub.

(** [func NewHub() *Hub] *)
Definition NewHub : Hub.t := Hub.mk ∅ ∅ ∅ ∅.

(** [close(client.send)] *)
Definition close_send (c : cptr) (closed : gset cptr) : option (gset cptr) :=
  if decide (c ∈ closed) then None else Some ({[c]} ∪ closed).

(** [case client := <-h.register] *)
Definition register (client : cptr -> Client.t) (c : cptr) (h : Hub.t) : Hub.t :=
  let tableID := Client.tableID (client c) in
  let playerID := Client.playerID (client c) in
  let tables :=
    if negb (String.eqb tableID "") then
      <[tableID := {[c]} ∪ default ∅ (Hub.tables h !! tableID)]> (Hub.tables h)
    else Hub.tables h in
  let playerMap :=
    if negb (String.eqb playerID "") then <[playerID := c]> (Hub.playerMap h)
    else Hub.playerMap h in
  Hub.mk ({[c]} ∪ Hub.clients h) tables playerMap (Hub.closed h).

(** [case client := <-h.unregister] *)
Definition unregister (client : cptr -> Client.t) (c : cptr) (h : Hub.t)
  : option Hub.t :=
  let tableID := Client.tableID (client c) in
  let playerID := Client.playerID (client c) in
  if decide (c ∈ Hub.clients h) then
    closed ← close_send c (Hub.closed h);
    let tables :=
      if negb (String.eqb tableID "") then
        match Hub.tables h !! tableID with
        | Some members =>
            let members := members ∖ {[c]} in
            if (size members =? 0)%nat then delete tableID (Hub.tables h)
            else <[tableID := members]> (Hub.tables h)
        | None => Hub.tables h
        end
      else Hub.tables h in
    let playerMap :=
      if negb (String.eqb playerID "") then delete playerID (Hub.playerMap h)
      else Hub.playerMap h in
    Some (Hub.mk (Hub.clients h ∖ {[c]}) tables playerMap closed)
  else Some h.

(** The [default] branch of the [select] in [case message := <-h.broadcast]:
    the client's queue is full. *)
Definition drop_client (client : cptr -> Client.t) (c : cptr) (h : Hub.t)
  : option Hub.t :=
  let tableID := Client.tableID (client c) in
  let playerID := Client.playerID (client c) in
  closed ← close_send c (Hub.closed h);
  let tables :=
    if negb (String.eqb tableID "") then
      match Hub.tables h !! tableID with
      | Some members => <[tableID := members ∖ {[c]}]> (Hub.tables h)
      | None => Hub.tables h
      end
    else Hub.tables h in
  let playerMap :=
    if negb (String.eqb playerID "") then delete playerID (Hub.playerMap h)
    else Hub.playerMap h in
  Some (Hub.mk (Hub.clients h ∖ {[c]}) tables playerMap closed).

(** One round of the loop of [case message := <-h.broadcast]; [full] tells
    whether the queue of a client is full when the message is sent. *)
Definition send_or_drop (client : cptr -> Client.t) (full : cptr -> bool)
    (c : cptr) (h : Hub.t) : option Hub.t :=
  if decide (c ∈ Hub.closed h) then None
  else if full c then drop_client client c h
  else Some h.

(** [case message := <-h.broadcast]; [order] is the order in which [range
    h.clients] yields the clients. *)
Fixpoint broadcast (client : cptr -> Client.t) (full : cptr -> bool)
    (order : list cptr) (h : Hub.t) : option Hub.t :=
  match order with
  | [] => Some h
  | c :: rest => h' ← send_or_drop client full c h; broadcast client full rest h'
  end.

(** The clients [BroadcastToTable] and [BroadcastGameUpdate] send to, and
    the client [SendToPlayer] sends to. *)
Definition table_recipients (h : Hub.t) (tableID : string) : gset cptr :=
  default ∅ (Hub.tables h !! tableID).

Definition player_recipient (h : Hub.t) (playerID : string) : option cptr :=
  Hub.playerMap h !! playerID.

(** What [Run] receives. *)
Inductive HubEvent : Type :=
  | EvRegister (c : cptr)
  | EvUnregister (c : cptr)
  | EvBroadcast (order : list cptr) (full : cptr -> bool).

Definition hub_step (client : cptr -> Client.t) (ev : HubEvent) (h : Hub.t)
  : option Hub.t :=
  match ev with
  | EvRegister c => Some (register client c h)
  | EvUnregister c => unregister client c h
  | EvBroadcast order full => broadcast client full order h
  end.

(** [WebSocketHandler] registers each client it creates once, so a client
    that is registered is a new one; [range] yields every client of the
    hub once. *)
Definition hub_event_ok (h : Hub.t) (ev : HubEvent) : Prop :=
  match ev with
  | EvRegister c => (c ∉ Hub.clients h) /\ (c ∉ Hub.closed h)
  | EvUnregister _ => True
  | EvBroadcast order _ => order ≡ₚ elements (Hub.clients h)
  end.

Inductive hub_reachable (client : cptr -> Client.t) : Hub.t -> Prop :=
  | hub_new : hub_reachable client NewHub
  | hub_next h ev h' :
      hub_reachable client h -> hub_event_ok h ev ->
      hub_step client ev h = Some h' -> hub_reachable client h'.

(** The registry refers to connected clients only, each under its own
    table and player id. *)
Definition hub_consistent (client : cptr -> Client.t) (h : Hub.t) : Prop :=
  Hub.clients h ## Hub.closed h /\
  (forall t m c, Hub.tables h !! t = Some m -> c ∈ m ->
     c ∈ Hub.clients h /\ Client.tableID (client c) = t /\ t <> "") /\
  (forall p c, Hub.playerMap h !! p = Some c ->
     c ∈ Hub.clients h /\ Client.playerID (client c) = p /\ p <> "").

(** Two connections of the player "p1" at the table "t1". *)
Definition two_clients : cptr -> Client.t := fun _ => Client.mk "t1" "p1".

(** * Notions for the invariants of the engine *)

(** A seat whose score and status agree with its hand, and a seat as it is
    between rounds. *)
Definition seat_consistent (p : Player.t) : Prop :=
  Player.Score p = CalculateHandScore (Player.Hand p) /\
  (Player.Status p = PlayerBusted <-> 21 < Player.Score p) /\
  (Player.Status p = PlayerBlackjack ->
     Player.Score p = 21 /\ length (Player.Hand p) = 2%nat).

Definition seat_reset (p : Player.t) : Prop :=
  Player.Hand p = [] /\ Player.Score p = 0 /\ Player.Status p = PlayerActive.

(** Two seats with the same hand, score and status. *)
Definition same_play (p p' : Player.t) : Prop :=
  Player.Hand p' = Player.Hand p /\ Player.Score p' = Player.Score p /\
  Player.Status p' = Player.Status p.

(** A seat without a bet, or with one within the limits of the table. *)
Definition stake_in_limits (lo hi : Z) (p : Player.t) : Prop :=
  Player.Bet p = 0 \/ lo <= Player.Bet p <= hi.

Definition has_stake (p : Player.t) : Prop := Player.Bet p <> 0.

(** A dealer who shows one card: two cards, the first face up, the second
    face down, and a score that counts the first one only. *)
Definition shows_one_card (dealer : Dealer.t) : Prop :=
  exists c1 c2,
    Dealer.Hand dealer = [Card.set_Face true c1; Card.set_Face false c2] /\
    Dealer.Score dealer = GetValue c1.

(** * Properties *)

(** ** Go's [int] *)

Lemma wrap_in_range z : in_range z -> wrap z = z.
Proof.
  unfold in_range, int_min, int_max, wrap. intros H.
  rewrite Z.mod_small; lia.
Qed.

Lemma wrap_range z : in_range (wrap z).
Proof.
  unfold in_range, int_min, int_max, wrap.
  pose proof (Z.mod_pos_bound (z + 2 ^ 63) (2 ^ 64) ltac:(lia)). lia.
Qed.

Lemma wrap_add_r a b : wrap (a + wrap b) = wrap (a + b).
Proof.
  unfold wrap.
  replace (a + ((b + 2 ^ 63) mod 2 ^ 64 - 2 ^ 63) + 2 ^ 63)
    with (a + (b + 2 ^ 63) mod 2 ^ 64) by lia.
  rewrite Zplus_mod_idemp_r. f_equal. f_equal. lia.
Qed.

(** ** Hand scoring *)

Section Scoring.

Lemma count_hand_from hand : forall score aces,
  foldl (fun '(score, aces) card =>
           (score + GetValue card,
            if String.eqb (Card.Rank card) Ace then S aces else aces))
        (score, aces) hand
  = (score + hand_total hand, (aces + aces_in hand)%nat).
Proof.
  induction hand as [|card hand IH]; intros score aces; simpl.
  - f_equal; [lia | unfold aces_in; simpl; lia].
  - rewrite IH. unfold aces_in. rewrite filter_cons.
    destruct (String.eqb_spec (Card.Rank card) Ace) as [E|E].
    + rewrite decide_True by done. simpl. f_equal; lia.
    + rewrite decide_False by done. f_equal; lia.
Qed.

Lemma count_hand_spec hand : count_hand hand = (hand_total hand, aces_in hand).
Proof. unfold count_hand. rewrite count_hand_from. f_equal. Qed.

(** The second pass converts [k] aces, each while the total was above 21,
    and ends with the total at most 21 or every ace converted. *)
Lemma convert_aces_spec aces : forall score,
  exists k : nat,
    (k <= aces)%nat /\
    convert_aces aces score = score - 10 * Z.of_nat k /\
    (forall j : nat, (j < k)%nat -> 21 < score - 10 * Z.of_nat j) /\
    ((k < aces)%nat -> score - 10 * Z.of_nat k <= 21).
Proof.
  induction aces as [|aces IH]; intros score; simpl.
  - exists O. repeat split; intros; lia.
  - destruct (Z.ltb_spec 21 score) as [Hgt|Hle].
    + destruct (IH (score - 10)) as (k & Hk & Heq & Hwhile & Hstop).
      exists (S k). repeat split.
      * lia.
      * rewrite Heq. lia.
      * intros [|j] Hj; [lia|].
        specialize (Hwhile j ltac:(lia)). lia.
      * intros Hlt. specialize (Hstop ltac:(lia)). lia.
    + exists O. repeat split; intros; lia.
Qed.

Lemma GetValue_rank c1 c2 : Card.Rank c1 = Card.Rank c2 -> GetValue c1 = GetValue c2.
Proof. unfold GetValue. by intros ->. Qed.

Lemma hand_total_ranks h1 : forall h2,
  Card.Rank <$> h1 = Card.Rank <$> h2 -> hand_total h1 = hand_total h2.
Proof.
  induction h1 as [|c1 h1 IH]; intros [|c2 h2] E; simplify_eq/=; [done|].
  by rewrite (GetValue_rank c1 c2), (IH h2).
Qed.

Lemma aces_in_ranks h1 : forall h2,
  Card.Rank <$> h1 = Card.Rank <$> h2 -> aces_in h1 = aces_in h2.
Proof.
  unfold aces_in.
  induction h1 as [|c1 h1 IH]; intros [|c2 h2] E; simplify_eq/=; [done|].
  rewrite !filter_cons. rewrite H. specialize (IH h2 H0).
  destruct (decide (Card.Rank c2 = Ace)); simpl; lia.
Qed.

Lemma CalculateHandScore_ranks h1 h2 :
  Card.Rank <$> h1 = Card.Rank <$> h2 ->
  CalculateHandScore h1 = CalculateHandScore h2.
Proof.
  intros E. unfold CalculateHandScore. rewrite !count_hand_spec.
  by rewrite (hand_total_ranks h1 h2), (aces_in_ranks h1 h2).
Qed.

Lemma GetValue_table c v : (Card.Rank c, v) ∈ rank_values -> GetValue c = v.
Proof.
  unfold rank_values. rewrite !elem_of_cons, elem_of_nil.
  unfold GetValue. intros H.
  repeat (destruct H as [H|H]; [injection H as -> ->; reflexivity|]).
  done.
Qed.

(** C2.  The score of a hand is the sum of its card values (ace 11, ten
    and faces 10, numerals at face value) less 10 for each of [k] aces,
    where an ace is converted only while the running total is above 21 and
    conversion goes on until the total is at most 21 or no ace is left;
    the empty hand scores 0, and ace-king, ace-ace, ace-ace-nine and
    five-six-queen score 21, 12, 21 and 21.  The score is a function of
    the ranks of the hand alone. *)
Theorem CalculateHandScore_spec (hand : list Card.t) :
  (exists k : nat,
      (k <= aces_in hand)%nat /\
      CalculateHandScore hand = hand_total hand - 10 * Z.of_nat k /\
      (forall j : nat, (j < k)%nat -> 21 < hand_total hand - 10 * Z.of_nat j) /\
      ((k < aces_in hand)%nat -> hand_total hand - 10 * Z.of_nat k <= 21)) /\
  (forall c v, (Card.Rank c, v) ∈ rank_values -> GetValue c = v) /\
  (forall c, c ∈ hand -> 0 <= GetValue c <= 11) /\
  CalculateHandScore [] = 0 /\
  (Card.Rank <$> hand = [Ace; King] -> CalculateHandScore hand = 21) /\
  (Card.Rank <$> hand = [Ace; Ace] -> CalculateHandScore hand = 12) /\
  (Card.Rank <$> hand = [Ace; Ace; Nine] -> CalculateHandScore hand = 21) /\
  (Card.Rank <$> hand = [Five; Six; Queen] -> CalculateHandScore hand = 21) /\
  (forall hand', Card.Rank <$> hand' = Card.Rank <$> hand ->
                 CalculateHandScore hand' = CalculateHandScore hand).
Proof.
  split; [|split; [|split; [|split]]].
  - unfold CalculateHandScore. rewrite count_hand_spec.
    apply convert_aces_spec.
  - apply GetValue_table.
  - intros c _. unfold GetValue.
    repeat (match goal with |- context [if ?b then _ else _] => destruct b end);
      lia.
  - reflexivity.
  - pose (mk r := Card.mk Spades r 0 true).
    repeat split.
    + intros E. by rewrite (CalculateHandScore_ranks hand (mk <$> [Ace; King])).
    + intros E. by rewrite (CalculateHandScore_ranks hand (mk <$> [Ace; Ace])).
    + intros E. by rewrite (CalculateHandScore_ranks hand (mk <$> [Ace; Ace; Nine])).
    + intros E. by rewrite (CalculateHandScore_ranks hand (mk <$> [Five; Six; Queen])).
    + intros hand'. apply CalculateHandScore_ranks.
Qed.

Lemma CalculateHandScore_spec_witness :
  CalculateHandScore [up Spades Ace; up Hearts Ace; up Clubs Nine] = 21.
Proof.
  destruct (CalculateHandScore_spec [up Spades Ace; up Hearts Ace; up Clubs Nine])
    as (_ & _ & _ & _ & _ & _ & Hsample & _).
  apply Hsample. reflexivity.
Defined.

End Scoring.

(** ** Binary64 arithmetic on bets *)

Section Float64.

Lemma digits2_pos_bounds p :
  2 ^ (Zpos (digits2_pos p) - 1) <= Zpos p < 2 ^ Zpos (digits2_pos p).
Proof.
  induction p as [p IH|p IH|]; cbn [digits2_pos].
  - rewrite Pos2Z.inj_succ.
    replace (Z.succ (Zpos (digits2_pos p)) - 1) with (Z.succ (Zpos (digits2_pos p) - 1)) by lia.
    rewrite !Z.pow_succ_r by lia. lia.
  - rewrite Pos2Z.inj_succ.
    replace (Z.succ (Zpos (digits2_pos p)) - 1) with (Z.succ (Zpos (digits2_pos p) - 1)) by lia.
    rewrite !Z.pow_succ_r by lia. lia.
  - simpl. lia.
Qed.

Lemma Zdigits2_unique m d :
  2 ^ (d - 1) <= m < 2 ^ d -> 0 < d -> Zdigits2 m = d.
Proof.
  intros Hb Hd.
  assert (0 < m) by (pose proof (Z.pow_pos_nonneg 2 (d - 1)); lia).
  destruct m as [|p|p]; try lia. cbn [Zdigits2].
  pose proof (digits2_pos_bounds p) as Hp.
  set (d' := Zpos (digits2_pos p)) in *.
  destruct (Z.lt_trichotomy d' d) as [Hlt|[Heq|Hgt]]; [|done|].
  - assert (2 ^ d' <= 2 ^ (d - 1)) by (apply Z.pow_le_mono_r; lia). lia.
  - assert (2 ^ d <= 2 ^ (d' - 1)) by (apply Z.pow_le_mono_r; lia). lia.
Qed.

Lemma iter_pos_nat {A} (f : A -> A) n : forall x,
  SpecFloat.iter_pos f n x = Nat.iter (Pos.to_nat n) f x.
Proof.
  induction n as [n IH|n IH|]; intros x; cbn [SpecFloat.iter_pos].
  - rewrite !IH, Pos2Nat.inj_xI.
    replace (S (2 * Pos.to_nat n))%nat with (Pos.to_nat n + S (Pos.to_nat n))%nat by lia.
    rewrite Nat.iter_add. f_equal. by rewrite Nat.iter_succ_r.
  - rewrite !IH, Pos2Nat.inj_xO.
    replace (2 * Pos.to_nat n)%nat with (Pos.to_nat n + Pos.to_nat n)%nat by lia.
    by rewrite Nat.iter_add.
  - reflexivity.
Qed.

Lemma shr_1_even m :
  0 <= m -> shr_1 (Build_shr_record (2 * m) false false) = Build_shr_record m false false.
Proof. intros Hm. destruct m as [|p|p]; [done|done|lia]. Qed.

Lemma shr_nat_exact k : forall m,
  0 <= m ->
  Nat.iter k shr_1 (Build_shr_record (m * 2 ^ Z.of_nat k) false false)
  = Build_shr_record m false false.
Proof.
  induction k as [|k IH]; intros m Hm.
  - simpl. by rewrite Z.mul_1_r.
  - rewrite Nat.iter_succ_r, Nat2Z.inj_succ, Z.pow_succ_r by lia.
    replace (m * (2 * 2 ^ Z.of_nat k)) with (2 * (m * 2 ^ Z.of_nat k)) by lia.
    rewrite shr_1_even by (apply Z.mul_nonneg_nonneg; [lia|apply Z.pow_nonneg; lia]).
    by apply IH.
Qed.

Lemma shr_exact m e n :
  0 <= m -> 0 <= n ->
  shr (Build_shr_record (m * 2 ^ n) false false) e n
  = (Build_shr_record m false false, e + n).
Proof.
  intros Hm Hn. destruct n as [|p|p]; [|..|lia]; cbn [shr].
  - by rewrite Z.mul_1_r, Z.add_0_r.
  - rewrite iter_pos_nat. f_equal.
    rewrite <- (positive_nat_Z p) at 1. by apply shr_nat_exact.
Qed.

(** A mantissa of 53 bits followed by [n] zero bits is rounded to itself. *)
Lemma binary_round_aux_exact s (m : positive) n e :
  2 ^ 52 <= Zpos m < 2 ^ 53 -> 0 <= n ->
  -1074 <= e + n <= 971 ->
  binary_round_aux 53 1024 s (Zpos m * 2 ^ n) e loc_Exact
  = S754_finite s m (e + n).
Proof.
  intros Hm Hn He.
  assert (Hdig : Zdigits2 (Zpos m * 2 ^ n) = 53 + n).
  { apply Zdigits2_unique; [|lia].
    replace (53 + n - 1) with (52 + n) by lia.
    rewrite !Z.pow_add_r by lia.
    pose proof (Z.pow_pos_nonneg 2 n). nia. }
  assert (Hdig' : Zdigits2 (Zpos m) = 53).
  { apply Zdigits2_unique; [|lia]. exact Hm. }
  unfold binary_round_aux, shr_fexp. rewrite Hdig.
  unfold fexp, emin.
  replace (Z.max (53 + n + e - 53) (3 - 1024 - 53) - e) with n by lia.
  cbn [shr_record_of_loc]. rewrite shr_exact by lia.
  cbn [shr_m loc_of_shr_record round_nearest_even]. rewrite Hdig'.
  replace (Z.max (53 + (e + n) - 53) (3 - 1024 - 53) - (e + n)) with 0 by lia.
  cbn [shr shr_record_of_loc shr_m].
  destruct (Z.leb_spec (e + n) (1024 - 53)); [done|lia].
Qed.

(** [float64(z)] for an integer of at most 53 bits: no rounding. *)
Lemma float64_of_int_exact (p : positive) (s : bool) :
  Zpos p < 2 ^ 53 ->
  let d := Zpos (digits2_pos p) in
  exists m : positive,
    Zpos m = Zpos p * 2 ^ (53 - d) /\
    float64_of_int (if s then Zneg p else Zpos p) = S754_finite s m (d - 53).
Proof.
  intros Hp d.
  pose proof (digits2_pos_bounds p) as Hd. fold d in Hd.
  assert (Hd53 : 0 < d <= 53).
  { split; [done|].
    destruct (Z.le_gt_cases d 53); [done|].
    assert (2 ^ 53 <= 2 ^ (d - 1)) by (apply Z.pow_le_mono_r; lia). lia. }
  assert (Hpos : 0 < Zpos p * 2 ^ (53 - d)).
  { pose proof (Z.pow_pos_nonneg 2 (53 - d)). nia. }
  exists (Z.to_pos (Zpos p * 2 ^ (53 - d))).
  rewrite Z2Pos.id by done. split; [done|].
  assert (Hm : 2 ^ 52 <= Zpos p * 2 ^ (53 - d) < 2 ^ 53).
  { assert (E1 : 2 ^ 52 = 2 ^ (d - 1) * 2 ^ (53 - d)).
    { rewrite <- Z.pow_add_r by lia. f_equal. lia. }
    assert (E2 : 2 ^ 53 = 2 ^ d * 2 ^ (53 - d)).
    { rewrite <- Z.pow_add_r by lia. f_equal. lia. }
    rewrite E1, E2. pose proof (Z.pow_pos_nonneg 2 (53 - d)). nia. }
  assert (Hround : forall sx,
    binary_round 53 1024 sx p 0 = S754_finite sx (Z.to_pos (Zpos p * 2 ^ (53 - d))) (d - 53)).
  { intros sx. unfold binary_round, shl_align, fexp, emin. fold d.
    replace (Z.max (d + 0 - 53) (3 - 1024 - 53) - 0) with (d - 53) by lia.
    replace (Z.max (d + 0 - 53) (3 - 1024 - 53)) with (d - 53) by lia.
    destruct (d - 53) as [|k|k] eqn:Hk; [|lia|].
    - assert (d = 53) as Hd' by lia. rewrite Hd' in *.
      rewrite Z.sub_diag, Z.mul_1_r in *.
      pose proof (binary_round_aux_exact sx p 0 0) as H.
      rewrite Z.mul_1_r, Z.add_0_r in H. rewrite H by lia.
      by rewrite Pos2Z.id.
    - assert (Hshift : Zpos (Pos.iter xO p k) = Zpos p * 2 ^ Zpos k).
      { clear. induction k as [|k IH] using Pos.peano_ind.
        - simpl. lia.
        - rewrite Pos.iter_succ, Pos2Z.inj_xO, IH, Pos2Z.inj_succ.
          rewrite Z.pow_succ_r by lia. lia. }
      assert (Ek : 53 - d = Zpos k) by lia. rewrite Ek in *.
      pose proof (binary_round_aux_exact sx (Pos.iter xO p k) 0 (Zneg k)) as H.
      rewrite Z.mul_1_r, Z.add_0_r in H. rewrite H by lia.
      f_equal. rewrite <- Hshift. by rewrite Pos2Z.id. }
  destruct s; apply Hround.
Qed.

(** Within the bound the product is exact: the bet times three halves,
    rounded toward zero. *)
Lemma mul_1_5_to_int_exact bet :
  Z.abs bet <= float64_exact_bound ->
  mul_1_5_to_int bet = Z.quot (3 * bet) 2.
Proof.
  unfold float64_exact_bound. intros Hbet.
  assert (Hmain : forall (p : positive) (s : bool),
    Zpos p <= 2 ^ 51 ->
    mul_1_5_to_int (if s then Zneg p else Zpos p)
    = (if s then - (Zpos (3 * p) / 2) else Zpos (3 * p) / 2)).
  { intros p s Hp.
    assert (P51 : 2 ^ 51 = 2251799813685248) by reflexivity.
    assert (P52 : 2 ^ 52 = 4503599627370496) by reflexivity.
    assert (P53 : 2 ^ 53 = 9007199254740992) by reflexivity.
    destruct (float64_of_int_exact p s ltac:(lia)) as (m & Hm & Hrep).
    unfold mul_1_5_to_int. rewrite Hrep. unfold float64_1_5. cbn [SFmul].
    rewrite xorb_false_r, Pos2Z.inj_mul, Hm.
    pose proof (digits2_pos_bounds p) as Hd.
    pose proof (digits2_pos_bounds (3 * p)) as Hd3.
    set (d := Zpos (digits2_pos p)) in *.
    set (d3 := Zpos (digits2_pos (3 * p))) in *.
    assert (Hd3hi : d3 <= 53).
    { destruct (Z.le_gt_cases d3 53); [done|].
      assert (2 ^ 53 <= 2 ^ (d3 - 1)) by (apply Z.pow_le_mono_r; lia). lia. }
    assert (Hd3lo : d + 1 <= d3).
    { destruct (Z.le_gt_cases (d + 1) d3); [done|].
      assert (2 ^ d3 <= 2 ^ d) by (apply Z.pow_le_mono_r; lia).
      assert (2 ^ d = 2 * 2 ^ (d - 1)).
      { rewrite <- Z.pow_succ_r by lia. f_equal. lia. }
      lia. }
    assert (Hdpos : 0 < d) by done.
    assert (Hpow : 0 < 2 ^ (53 - d3)) by (apply Z.pow_pos_nonneg; lia).
    assert (Hm3 : 2 ^ 52 <= Zpos (3 * p) * 2 ^ (53 - d3) < 2 ^ 53).
    { assert (E1 : 2 ^ 52 = 2 ^ (d3 - 1) * 2 ^ (53 - d3)).
      { rewrite <- Z.pow_add_r by lia. f_equal. lia. }
      assert (E2 : 2 ^ 53 = 2 ^ d3 * 2 ^ (53 - d3)).
      { rewrite <- Z.pow_add_r by lia. f_equal. lia. }
      rewrite E1, E2. nia. }
    set (m3 := Z.to_pos (Zpos (3 * p) * 2 ^ (53 - d3))).
    assert (Em3 : Zpos m3 = Zpos (3 * p) * 2 ^ (53 - d3)).
    { subst m3. rewrite Z2Pos.id; [done|nia]. }
    assert (Eprod : Zpos p * 2 ^ (53 - d) * 6755399441055744
                    = Zpos m3 * 2 ^ (d3 + 51 - d)).
    { rewrite Em3, Pos2Z.inj_mul.
      change 6755399441055744 with (3 * 2 ^ 51).
      rewrite <- !Z.mul_assoc, <- (Z.pow_add_r 2 (53 - d3)) by lia.
      replace (53 - d3 + (d3 + 51 - d)) with (53 - d + 51) by lia.
      rewrite (Z.pow_add_r 2 (53 - d) 51) by lia. lia. }
    rewrite Eprod, binary_round_aux_exact by (rewrite ?Em3; lia).
    replace (d - 53 + -52 + (d3 + 51 - d)) with (d3 - 54) by lia.
    cbn [int_of_float64].
    destruct (d3 - 54) as [|k|k] eqn:Hk; [lia|lia|].
    assert (Hhalf : 0 <= Zpos (3 * p) / 2 <= Zpos (3 * p)).
    { split; [apply Z.div_pos; lia|]. apply Z.div_le_upper_bound; lia. }
    assert (Ek : Zpos k = 54 - d3) by lia.
    assert (Ediv : Zpos m3 / 2 ^ Zpos k = Zpos (3 * p) / 2).
    { rewrite Em3, Ek.
      replace (54 - d3) with (1 + (53 - d3)) by lia.
      rewrite Z.pow_add_r by lia. change (2 ^ 1) with 2.
      apply Z.div_mul_cancel_r; lia. }
    rewrite Ediv. unfold int_min, int_max.
    destruct s.
    - destruct (Z.leb_spec (- 2 ^ 63) (- (Zpos (3 * p) / 2)));
        destruct (Z.leb_spec (- (Zpos (3 * p) / 2)) (2 ^ 63 - 1)); simpl; lia.
    - destruct (Z.leb_spec (- 2 ^ 63) (Zpos (3 * p) / 2));
        destruct (Z.leb_spec (Zpos (3 * p) / 2) (2 ^ 63 - 1)); simpl; lia. }
  destruct bet as [|p|p].
  - reflexivity.
  - rewrite (Hmain p false) by (simpl in Hbet; lia).
    rewrite Z.quot_div_nonneg by lia. done.
  - rewrite (Hmain p true) by (simpl in Hbet; lia).
    change (3 * Zneg p) with (- Zpos (3 * p)).
    rewrite Z.quot_opp_l by lia. rewrite Z.quot_div_nonneg by lia. done.
Qed.

(** Beyond 53 bits [float64] rounds the bet before the product is taken. *)
Example mul_1_5_to_int_rounds :
  mul_1_5_to_int (2 ^ 53 + 1) = Z.quot (3 * (2 ^ 53 + 1)) 2 - 1.
Proof. vm_compute. reflexivity. Qed.

End Float64.

(** ** Settlement *)

Section Settlement.

Lemma small_bet_in_range bet :
  Z.abs bet <= float64_exact_bound ->
  in_range (bet * 2) /\ in_range (bet + mul_1_5_to_int bet).
Proof.
  intros Hb. rewrite mul_1_5_to_int_exact by done.
  unfold float64_exact_bound, in_range, int_min, int_max in *.
  Z.to_euclidean_division_equations. lia.
Qed.


(** One seat, whatever its bet. *)
Lemma settle_payout_int dealer p :
  in_range (Player.Balance p) ->
  settle dealer p
  = Player.set_Balance (wrap (Player.Balance p + payout_int dealer p)) p.
Proof.
  intros Hbal.
  assert (Hid : p = Player.set_Balance (wrap (Player.Balance p + 0)) p).
  { rewrite Z.add_0_r, wrap_in_range by done. by destruct p. }
  assert (Hdouble : Player.Bet p * 2 = 2 * Player.Bet p) by lia.
  unfold settle, payout_int, dealer_blackjack. rewrite Hdouble.
  destruct (Player.Status p).
  - destruct (Z.ltb_spec 21 (Dealer.Score dealer)).
    { by rewrite decide_True by lia. }
    destruct (Z.ltb_spec (Dealer.Score dealer) (Player.Score p)).
    { by rewrite decide_True by lia. }
    rewrite decide_False by lia.
    destruct (Z.eqb_spec (Player.Score p) (Dealer.Score dealer)).
    { by rewrite decide_True. }
    by rewrite decide_False.
  - done.
  - destruct (Z.ltb_spec 21 (Dealer.Score dealer)).
    { by rewrite decide_True by lia. }
    destruct (Z.ltb_spec (Dealer.Score dealer) (Player.Score p)).
    { by rewrite decide_True by lia. }
    rewrite decide_False by lia.
    destruct (Z.eqb_spec (Player.Score p) (Dealer.Score dealer)).
    { by rewrite decide_True. }
    by rewrite decide_False.
  - destruct (Nat.eqb_spec (length (Dealer.Hand dealer)) 2);
      destruct (Z.eqb_spec (Dealer.Score dealer) 21); simpl.
    + by rewrite decide_True.
    + by rewrite decide_False by tauto.
    + by rewrite decide_False by tauto.
    + by rewrite decide_False by tauto.
Qed.

Lemma payout_int_small dealer p :
  Z.abs (Player.Bet p) <= float64_exact_bound ->
  payout_int dealer p = payout dealer p.
Proof.
  intros Hbet. destruct (small_bet_in_range _ Hbet) as [H2 H15].
  assert (Hdouble : 2 * Player.Bet p = Player.Bet p * 2) by lia.
  unfold payout_int, payout. rewrite mul_1_5_to_int_exact by done.
  rewrite mul_1_5_to_int_exact in H15 by done.
  rewrite (wrap_in_range _ H15), Hdouble, (wrap_in_range _ H2).
  by rewrite <- Hdouble.
Qed.

Lemma DetermineWinners_lookup g i :
  Players (DetermineWinners g) !! i = settle (Dealer g) <$> Players g !! i.
Proof. unfold DetermineWinners. simpl. apply list_lookup_fmap. Qed.




(** C7, as the engine has it.  Against a dealer who reaches 21 with three
    or more cards a blackjack is paid 3:2, not refunded: for every bet the
    balance grows by the bet plus [int(float64(bet) * 1.5)], in [int]
    arithmetic.  For a bet of magnitude up to [2 ^ 51], which [float64]
    holds exactly, that is the bet plus one and a half bets rounded toward
    zero, which for a bet other than zero is not the refund of a push. *)
Theorem blackjack_against_long_21 g i p :
  Players g !! i = Some p ->
  Player.Status p = PlayerBlackjack ->
  (3 <= length (Dealer.Hand (Dealer g)))%nat ->
  Dealer.Score (Dealer g) = 21 ->
  Player.Balance <$> Players (DetermineWinners g) !! i
    = Some (wrap (Player.Balance p
                  + wrap (Player.Bet p + mul_1_5_to_int (Player.Bet p)))) /\
  (Z.abs (Player.Bet p) <= float64_exact_bound ->
   mul_1_5_to_int (Player.Bet p) = Z.quot (3 * Player.Bet p) 2 /\
   Player.Balance <$> Players (DetermineWinners g) !! i
     = Some (wrap (Player.Balance p
                   + (Player.Bet p + Z.quot (3 * Player.Bet p) 2))) /\
   (Player.Bet p <> 0 ->
    Player.Bet p + Z.quot (3 * Player.Bet p) 2 <> Player.Bet p)).
Proof.
  intros Hp Hst Hlen Hsc.
  assert (Hpaid : Player.Balance <$> Players (DetermineWinners g) !! i
    = Some (wrap (Player.Balance p
                  + wrap (Player.Bet p + mul_1_5_to_int (Player.Bet p))))).
  { rewrite DetermineWinners_lookup, Hp. cbn [fmap option_fmap option_map].
    unfold settle. rewrite Hst.
    destruct (Nat.eqb_spec (length (Dealer.Hand (Dealer g))) 2) as [E|_];
      [lia|]. reflexivity. }
  split; [exact Hpaid|].
  intros Hbet.
  destruct (small_bet_in_range _ Hbet) as [_ Hfit].
  rewrite Hpaid, (wrap_in_range _ Hfit).
  rewrite mul_1_5_to_int_exact by done.
  split; [done|]. split; [done|].
  intros Hne Heq.
  assert (Hq : Z.quot (3 * Player.Bet p) 2 = 0) by lia.
  apply Z.quot_small_iff in Hq; lia.
Qed.

Lemma blackjack_against_long_21_witness :
  Player.Balance <$> Players (DetermineWinners game_long_21) !! O = Some 115.
Proof.
  pose proof (blackjack_against_long_21 game_long_21 O
    (Player.mk "p1" "Ann" [up Spades Ace; up Hearts King] 21 PlayerBlackjack 10 90 false)
    eq_refl eq_refl) as H.
  destruct H as [_ H].
  - simpl. lia.
  - reflexivity.
  - destruct H as (_ & H & _).
    + unfold float64_exact_bound. simpl. lia.
    + exact H.
Defined.

(** C7, as stated, fails: Ann's blackjack on a bet of 10 against the
    dealer's three sevens takes her balance from 90 to 115, not to 100. *)
Lemma long_21_does_not_push : ~ long_21_pushes game_long_21.
Proof.
  intros H.
  specialize (H O _ _ eq_refl eq_refl eq_refl).
  simpl in H. specialize (H ltac:(lia) eq_refl).
  vm_compute in H. discriminate.
Qed.

End Settlement.

(** ** Looking up a seat *)

Section FirstIndex.
Context {A : Type} (f : A -> bool).

Lemma first_index_Some l : forall i,
  first_index f l = Some i <->
  exists x, l !! i = Some x /\ f x = true /\
            forall j y, (j < i)%nat -> l !! j = Some y -> f y = false.
Proof.
  induction l as [|a l IH]; intros i; simpl.
  - split; [done|]. by intros (x & ? & _).
  - destruct (f a) eqn:Hfa.
    + split.
      * intros [= <-]. exists a. repeat split; [done|]. intros j y Hj. lia.
      * intros (x & Hx & Hfx & Hlt). destruct i as [|i]; [done|].
        specialize (Hlt O a ltac:(lia) eq_refl). congruence.
    + rewrite fmap_Some. split.
      * intros (k & Hk & ->). apply IH in Hk as (x & Hx & Hfx & Hlt).
        exists x. repeat split; [done..|].
        intros [|j] y Hj Hy; simplify_eq/=; [done|].
        apply (Hlt j); [lia|done].
      * intros (x & Hx & Hfx & Hlt). destruct i as [|i'].
        { simpl in Hx. congruence. }
        exists i'. split; [|done]. apply IH. exists x. repeat split; [done..|].
        intros j y Hj Hy. apply (Hlt (S j)); [lia|done].
Qed.

Lemma first_index_None l :
  first_index f l = None <-> forall x, x ∈ l -> f x = false.
Proof.
  induction l as [|a l IH]; simpl.
  - split; [|done]. intros _ x Hx. by apply elem_of_nil in Hx.
  - destruct (f a) eqn:Hfa.
    + split; [done|]. intros H. specialize (H a ltac:(left)). congruence.
    + rewrite fmap_None, IH. split.
      * intros H x [->|Hx]%elem_of_cons; [done|]. by apply H.
      * intros H x Hx. apply H. by right.
Qed.

Lemma first_index_lt l i : first_index f l = Some i -> (i < length l)%nat.
Proof.
  intros (x & Hx & _)%first_index_Some. by eapply lookup_lt_Some.
Qed.
End FirstIndex.

Lemma GameStatus_eqb_eq a b : GameStatus_eqb a b = true <-> a = b.
Proof. destruct a, b; simpl; split; congruence. Qed.

Lemma GameStatus_eqb_neq a b : GameStatus_eqb a b = false <-> a <> b.
Proof. destruct a, b; simpl; split; congruence. Qed.

Lemma PlayerStatus_eqb_eq a b : PlayerStatus_eqb a b = true <-> a = b.
Proof. destruct a, b; simpl; split; congruence. Qed.

Lemma seat_of_Some g playerID i :
  seat_of g playerID = Some i <->
  exists p, Players g !! i = Some p /\ Player.ID p = playerID /\
            forall j q, (j < i)%nat -> Players g !! j = Some q ->
                        Player.ID q <> playerID.
Proof.
  unfold seat_of. rewrite first_index_Some. split.
  - intros (p & Hp & Hid & Hlt). exists p. repeat split; [done| |].
    + by apply String.eqb_eq.
    + intros j q Hj Hq. apply String.eqb_neq. eauto.
  - intros (p & Hp & Hid & Hlt). exists p. repeat split; [done| |].
    + by apply String.eqb_eq.
    + intros j q Hj Hq. apply String.eqb_neq. eauto.
Qed.

Lemma seat_of_None g playerID :
  seat_of g playerID = None <->
  forall p, p ∈ Players g -> Player.ID p <> playerID.
Proof.
  unfold seat_of. rewrite first_index_None.
  split; intros H p Hp; apply String.eqb_neq; auto.
Qed.

Lemma alter_insert {A} (f : A -> A) (l : list A) i x :
  l !! i = Some x -> alter f i l = <[i := f x]> l.
Proof.
  intros Hx. apply list_eq. intros j.
  destruct (decide (i = j)) as [<-|Hne].
  - rewrite list_lookup_alter_eq, Hx.
    rewrite list_lookup_insert_eq; [done|]. by eapply lookup_lt_Some.
  - by rewrite list_lookup_alter_ne, list_lookup_insert_ne.
Qed.

(** ** Placing a bet *)

Section Betting.

(** C6.  [PlaceBet] succeeds exactly when the game is in Betting, the
    amount lies between the table limits, the player is seated and the
    amount does not exceed the balance of the seat; it then records the
    bet, debits the balance by the amount and changes nothing else but
    the time stamp; when it fails the game is left as it was. *)
Theorem PlaceBet_spec now g playerID amount :
  let r := PlaceBet now g playerID amount in
  (r.1 = true <->
     Status g = Betting /\ MinBet g <= amount <= MaxBet g /\
     exists i p, seat_of g playerID = Some i /\ Players g !! i = Some p /\
                 amount <= Player.Balance p) /\
  (r.1 = true ->
     exists i p, seat_of g playerID = Some i /\ Players g !! i = Some p /\
       Player.ID p = playerID /\
       r.2 = set_UpdatedAt now
               (set_Players
                  (<[i := Player.set_Balance (wrap (Player.Balance p - amount))
                            (Player.set_Bet amount p)]> (Players g)) g) /\
       (0 <= amount -> in_range (Player.Balance p) ->
        wrap (Player.Balance p - amount) = Player.Balance p - amount)) /\
  (r.1 = false -> r.2 = g).
Proof.
  unfold PlaceBet. fold (seat_of g playerID).
  destruct (GameStatus_eqb (Status g) Betting) eqn:Hst; simpl.
  2:{ apply GameStatus_eqb_neq in Hst. repeat split; try done.
      by intros (? & _). }
  apply GameStatus_eqb_eq in Hst.
  destruct (Z.ltb_spec amount (MinBet g)) as [Hlo|Hlo]; simpl.
  { repeat split; try done. intros (_ & ? & _). lia. }
  destruct (Z.ltb_spec (MaxBet g) amount) as [Hhi|Hhi]; simpl.
  { repeat split; try done. intros (_ & ? & _). lia. }
  destruct (seat_of g playerID) as [i|] eqn:Hseat.
  2:{ repeat split; try done. by intros (_ & _ & ? & ? & ? & _). }
  pose proof Hseat as (p & Hp & Hid & _)%seat_of_Some.
  rewrite Hp.
  destruct (Z.ltb_spec (Player.Balance p) amount) as [Hbal|Hbal]; simpl.
  { repeat split; try done.
    intros (_ & _ & i' & p' & ? & ? & ?). simplify_eq. lia. }
  repeat split; try done.
  - exists i, p. done.
  - intros _. exists i, p. repeat split; try done.
    + unfold update_player, set_UpdatedAt, set_Players. simpl. f_equal.
      rewrite list_alter_alter_eq. by rewrite (alter_insert _ _ _ p).
    + intros Hpos Hr. apply wrap_in_range.
      unfold in_range, int_min, int_max in *. lia.
Qed.

Lemma PlaceBet_spec_witness :
  exists i p,
    seat_of table_open "p2" = Some i /\ Players table_open !! i = Some p /\
    Player.ID p = "p2" /\
    (PlaceBet 4 table_open "p2" 25).2
    = set_UpdatedAt 4
        (set_Players
           (<[i := Player.set_Balance (wrap (Player.Balance p - 25))
                     (Player.set_Bet 25 p)]> (Players table_open)) table_open) /\
    (0 <= 25 -> in_range (Player.Balance p) ->
     wrap (Player.Balance p - 25) = Player.Balance p - 25).
Proof.
  destruct (PlaceBet_spec 4 table_open "p2" 25) as (_ & Hdone & _).
  apply Hdone. vm_compute. reflexivity.
Defined.

End Betting.

(** ** Joining a table *)

Section Joining.

(** C8, as the engine has it.  For a player already seated [AddPlayer]
    returns the existing seat; outside Waiting the seat and the game are
    left as they were, in Waiting the turn flag of the seat is set and
    nothing else changes.  For a player not seated, outside Waiting it
    returns no seat and leaves the game as it was. *)
Theorem AddPlayer_seated now g playerID playerName initialBalance :
  (forall i p,
      seat_of g playerID = Some i -> Players g !! i = Some p ->
      (Status g <> Waiting ->
       AddPlayer now g playerID playerName initialBalance = (Some p, g)) /\
      (Status g = Waiting ->
       AddPlayer now g playerID playerName initialBalance
       = (Some (Player.set_IsActive true p),
          set_Players (<[i := Player.set_IsActive true p]> (Players g)) g))) /\
  (seat_of g playerID = None -> Status g <> Waiting ->
   AddPlayer now g playerID playerName initialBalance = (None, g)).
Proof.
  unfold AddPlayer. fold (seat_of g playerID). split.
  - intros i p -> Hp. split; intros Hst.
    + apply GameStatus_eqb_neq in Hst. by rewrite Hst, Hp.
    + apply GameStatus_eqb_eq in Hst. rewrite Hst.
      unfold update_player. simpl.
      rewrite list_lookup_alter_eq, Hp. simpl.
      by rewrite (alter_insert _ _ _ p).
  - intros -> Hst. apply GameStatus_eqb_neq in Hst. by rewrite Hst.
Qed.

(** C8, as stated, fails: Ann joins a table in Waiting a second time and
    her seat comes back with the turn flag set. *)
Lemma rejoin_sets_turn_flag : ~ rejoin_is_noop game_waiting.
Proof.
  intros H.
  specialize (H 2 "p1" "Ann" 1000 O _ eq_refl eq_refl).
  apply (f_equal (fun r => Player.IsActive <$> r.1)) in H.
  vm_compute in H. discriminate.
Qed.

Lemma AddPlayer_seated_witness :
  (AddPlayer 2 game_waiting "p1" "Ann" 1000).1
  = Some (Player.mk "p1" "Ann" [] 0 PlayerActive 0 1000 true).
Proof.
  destruct (AddPlayer_seated 2 game_waiting "p1" "Ann" 1000) as [Hseated _].
  destruct (Hseated O (Player.mk "p1" "Ann" [] 0 PlayerActive 0 1000 false)
              eq_refl eq_refl) as [_ Hwaiting].
  by rewrite Hwaiting.
Defined.

End Joining.

(** ** The deck *)

Section DeckFacts.

Lemma NewDeck_cards : card_id <$> Deck.Cards NewDeck = standard52.
Proof. reflexivity. Qed.

Lemma NewDeck_length : length (Deck.Cards NewDeck) = 52%nat.
Proof. reflexivity. Qed.

Lemma standard52_NoDup : NoDup standard52.
Proof. apply (bool_decide_unpack _). vm_compute. exact I. Qed.

Lemma swap_Permutation i j cards : swap i j cards ≡ₚ cards.
Proof.
  unfold swap.
  destruct (cards !! i) as [ci|] eqn:Hi; [|done].
  destruct (cards !! j) as [cj|] eqn:Hj; [|done].
  by apply Permutation_insert_swap.
Qed.

Lemma shuffle_from_Permutation rnd i : forall cards,
  shuffle_from rnd i cards ≡ₚ cards.
Proof.
  induction i as [|i IH]; intros cards; [done|].
  cbn [shuffle_from]. rewrite IH. apply swap_Permutation.
Qed.

Lemma Shuffle_Permutation rnd d : Deck.Cards (Shuffle rnd d) ≡ₚ Deck.Cards d.
Proof. apply shuffle_from_Permutation. Qed.

End DeckFacts.

(** ** The exchanges of [Shuffle] *)

Section FisherYates.

Lemma swap_lookup_above i j (cards : list Card.t) k :
  (i < k)%nat -> (j < k)%nat -> swap i j cards !! k = cards !! k.
Proof.
  intros Hi Hj. unfold swap. destruct (cards !! i), (cards !! j); try done.
  by rewrite !list_lookup_insert_ne by lia.
Qed.

Lemma swap_lookup_l i j (cards : list Card.t) ci cj :
  cards !! i = Some ci -> cards !! j = Some cj ->
  swap i j cards !! i = Some cj.
Proof.
  intros Hi Hj. unfold swap. rewrite Hi, Hj.
  assert (Hlt : (i < length cards)%nat) by by eapply lookup_lt_Some.
  destruct (decide (i = j)) as [->|Hne].
  - rewrite list_lookup_insert_eq by by rewrite length_insert. congruence.
  - rewrite list_lookup_insert_ne by done. by apply list_lookup_insert_eq.
Qed.

Lemma swap_out_of_range i j (cards : list Card.t) :
  (length cards <= i)%nat -> swap i j cards = cards.
Proof.
  intros Hi. unfold swap. by rewrite (lookup_ge_None_2 cards i Hi).
Qed.

Lemma draw_below rnd i : (rnd i mod (i + 1) < i + 1)%nat.
Proof. apply Nat.mod_upper_bound. lia. Qed.

(** The loop entered at index [i] leaves the positions above [i] alone. *)
Lemma shuffle_from_lookup_above rnd i : forall (cards : list Card.t) k,
  (i < k)%nat -> shuffle_from rnd i cards !! k = cards !! k.
Proof.
  induction i as [|i IH]; intros cards k Hk; [done|].
  cbn [shuffle_from]. rewrite IH by lia.
  pose proof (draw_below rnd (S i)).
  apply swap_lookup_above; lia.
Qed.

(** The exchange made at index [i] puts there, for good, the card found
    at the index that was drawn. *)
Lemma shuffle_from_lookup_top rnd i (cards : list Card.t) :
  (S i < length cards)%nat ->
  shuffle_from rnd (S i) cards !! S i = cards !! (rnd (S i) mod (S i + 1))%nat.
Proof.
  intros Hlt. cbn [shuffle_from].
  rewrite shuffle_from_lookup_above by lia.
  pose proof (draw_below rnd (S i)) as Hj.
  destruct (lookup_lt_is_Some_2 cards (S i) Hlt) as [ci Hci].
  destruct (lookup_lt_is_Some_2 cards (rnd (S i) mod (S i + 1))%nat
              ltac:(lia)) as [cj Hcj].
  by rewrite (swap_lookup_l _ _ _ ci cj), Hcj.
Qed.

Lemma shuffle_from_ext rnd rnd' i : forall cards : list Card.t,
  (forall k, (1 <= k <= i)%nat -> rnd k = rnd' k) ->
  shuffle_from rnd i cards = shuffle_from rnd' i cards.
Proof.
  induction i as [|i IH]; intros cards Hsame; [done|].
  cbn [shuffle_from]. rewrite (Hsame (S i)) by lia.
  apply IH. intros k Hk. apply Hsame. lia.
Qed.

(** Every order of the cards is the outcome of some draws. *)
Lemma shuffle_from_onto i : forall cards target : list Card.t,
  target ≡ₚ cards -> drop (S i) target = drop (S i) cards ->
  exists rnd, shuffle_from rnd i cards = target.
Proof.
  induction i as [|i IH]; intros cards target Hperm Hdrop.
  - exists (fun _ => O). cbn [shuffle_from].
    destruct cards as [|c cs], target as [|t ts]; [done|..].
    + by apply Permutation_nil_r in Hperm.
    + symmetry in Hperm. by apply Permutation_nil_r in Hperm.
    + cbn in Hdrop. rewrite !drop_0 in Hdrop. subst ts.
      apply (Permutation_app_inv_r cs [t] [c]) in Hperm.
      apply Permutation_singleton_r in Hperm. by injection Hperm as ->.
  - pose proof (Permutation_length Hperm) as Hlen.
    destruct (decide (S i < length cards)%nat) as [Hlt|Hge].
    + destruct (lookup_lt_is_Some_2 target (S i) ltac:(lia)) as [x Hx].
      assert (Htake : take (S (S i)) target ≡ₚ take (S (S i)) cards).
      { rewrite <- (take_drop (S (S i)) target) in Hperm.
        rewrite <- (take_drop (S (S i)) cards) in Hperm.
        rewrite Hdrop in Hperm. by apply Permutation_app_inv_r in Hperm. }
      assert (Hin : x ∈ take (S (S i)) cards).
      { rewrite <- Htake. apply (list_elem_of_lookup_2 _ (S i)).
        rewrite lookup_take. by rewrite decide_True by lia. }
      apply list_elem_of_lookup_1 in Hin as [j Hj].
      assert (Hjlt : (j < S (S i))%nat).
      { apply lookup_lt_Some in Hj. rewrite length_take in Hj. lia. }
      rewrite lookup_take, decide_True in Hj by done.
      destruct (lookup_lt_is_Some_2 cards (S i) Hlt) as [ci Hci].
      destruct (IH (swap (S i) j cards) target) as [rnd' Hrnd'].
      { by rewrite swap_Permutation. }
      { apply list_eq. intros k. rewrite !lookup_drop.
        destruct k as [|k].
        - rewrite Nat.add_0_r, Hx. symmetry.
          by apply (swap_lookup_l _ _ _ ci).
        - rewrite swap_lookup_above by lia.
          apply (f_equal (fun l => l !! k)) in Hdrop.
          rewrite !lookup_drop in Hdrop.
          by replace (S i + S k)%nat with (S (S i) + k)%nat by lia. }
      exists (fun k => if (k =? S i)%nat then j else rnd' k).
      cbn [shuffle_from]. rewrite Nat.eqb_refl.
      rewrite (Nat.mod_small j) by lia.
      rewrite <- Hrnd'. apply shuffle_from_ext.
      intros k Hk. by destruct (Nat.eqb_spec k (S i)); [lia|].
    + destruct (IH cards target Hperm) as [rnd' Hrnd'].
      { by rewrite !drop_ge by lia. }
      exists rnd'. cbn [shuffle_from].
      by rewrite swap_out_of_range by lia.
Qed.

(** Different draws give different orders: the outcome tells every draw. *)
Lemma shuffle_from_draws rnd rnd' i : forall cards : list Card.t,
  NoDup cards -> (i < length cards)%nat ->
  shuffle_from rnd i cards = shuffle_from rnd' i cards ->
  forall k, (1 <= k <= i)%nat ->
    (rnd k mod (k + 1) = rnd' k mod (k + 1))%nat.
Proof.
  induction i as [|i IH]; intros cards Hnd Hlt Heq k Hk; [lia|].
  pose proof (draw_below rnd (S i)) as Hj.
  pose proof (draw_below rnd' (S i)) as Hj'.
  assert (Hsame : (rnd (S i) mod (S i + 1) = rnd' (S i) mod (S i + 1))%nat).
  { pose proof (f_equal (fun l => l !! S i) Heq) as Htop. cbn beta in Htop.
    rewrite !shuffle_from_lookup_top in Htop by done.
    destruct (lookup_lt_is_Some_2 cards (rnd (S i) mod (S i + 1))%nat
                ltac:(lia)) as [c Hc].
    rewrite Hc in Htop. by apply (NoDup_lookup cards _ _ c). }
  destruct (decide (k = S i)) as [->|Hne]; [done|].
  cbn [shuffle_from] in Heq. rewrite <- Hsame in Heq.
  apply (IH (swap (S i) (rnd (S i) mod (S i + 1)) cards)); [| |done|lia].
  - by rewrite swap_Permutation.
  - rewrite (Permutation_length (swap_Permutation _ _ _)). lia.
Qed.

Lemma Shuffle_draws rnd rnd' d :
  NoDup (Deck.Cards d) -> Shuffle rnd' d = Shuffle rnd d ->
  forall i, (1 <= i <= length (Deck.Cards d) - 1)%nat ->
    (rnd' i mod (i + 1) = rnd i mod (i + 1))%nat.
Proof.
  intros Hnd Hsame i Hi. unfold Shuffle in Hsame.
  injection Hsame as Hsame.
  apply (shuffle_from_draws rnd' rnd (length (Deck.Cards d) - 1)
           (Deck.Cards d)); [done|lia|done|done].
Qed.

Lemma NewDeck_NoDup : NoDup (Deck.Cards NewDeck).
Proof.
  apply (NoDup_fmap_1 card_id). rewrite NewDeck_cards. apply standard52_NoDup.
Qed.

End FisherYates.

(** ** A new round *)

Section NextRound.

(** C9.  [PrepareForNextRound], from Completed as from any status,
    installs a shuffled deck of the 52 cards, empties the dealer's hand
    and every seat's hand, sets every score and bet to 0, every seat's
    status to Active and turn flag to false, keeps ids, names and
    balances, and sets the game status to Betting.  Shuffled: the deck is
    the new deck after the exchanges of [Shuffle], one for each index from
    51 down to 1 with an index drawn at or below it; the first of them
    puts at the end the card that the new deck has at the index drawn;
    every order of the 52 cards comes out for some draws, and two runs of
    draws that differ give different orders. *)
Theorem PrepareForNextRound_spec rnd now g :
  let g' := PrepareForNextRound rnd now g in
  Status g' = Betting /\
  length (Deck.Cards (Deck g')) = 52%nat /\
  Deck.Cards (Deck g') ≡ₚ Deck.Cards NewDeck /\
  card_id <$> Deck.Cards (Deck g') ≡ₚ standard52 /\
  NoDup (card_id <$> Deck.Cards (Deck g')) /\
  Deck g' = Shuffle rnd NewDeck /\
  Deck.Cards (Deck g') !! 51%nat
    = Deck.Cards NewDeck !! (rnd 51 mod 52)%nat /\
  (forall order : list Card.t,
     order ≡ₚ Deck.Cards NewDeck ->
     exists rnd',
       Deck.Cards (Deck (PrepareForNextRound rnd' now g)) = order) /\
  (forall rnd',
     Deck (PrepareForNextRound rnd' now g) = Deck g' ->
     forall i, (1 <= i <= 51)%nat ->
       (rnd' i mod (i + 1) = rnd i mod (i + 1))%nat) /\
  Dealer g' = Dealer.mk [] 0 /\
  Players g'
    = (fun p => Player.mk (Player.ID p) (Player.Name p) [] 0 PlayerActive 0
                          (Player.Balance p) false) <$> Players g /\
  (Player.Balance <$> Players g' = Player.Balance <$> Players g) /\
  g' = BlackjackGame.mk (ID g) (Players g') (Dealer.mk [] 0) (Deck g') Betting
         (CreatedAt g) now (MinBet g) (MaxBet g) (TableID g)
         (CurrentPlayerIndex g).
Proof.
  intros g'.
  assert (Hperm : Deck.Cards (Deck g') ≡ₚ Deck.Cards NewDeck)
    by apply Shuffle_Permutation.
  assert (Hids : card_id <$> Deck.Cards (Deck g') ≡ₚ standard52).
  { rewrite <- NewDeck_cards. by apply fmap_Permutation. }
  split; [done|]. split; [by rewrite Hperm|]. split; [done|].
  split; [done|]. split; [rewrite Hids; apply standard52_NoDup|].
  split; [done|].
  split.
  { subst g'. cbn [Deck PrepareForNextRound set_UpdatedAt set_Status
                   set_Players set_Dealer set_Deck].
    unfold Shuffle. cbn [Deck.Cards]. rewrite NewDeck_length.
    change (52 - 1)%nat with 51%nat.
    apply (shuffle_from_lookup_top rnd 50). rewrite NewDeck_length. lia. }
  split.
  { intros order Horder.
    destruct (shuffle_from_onto 51 (Deck.Cards NewDeck) order Horder)
      as [rnd' Hrnd'].
    { rewrite !drop_ge; [done|..].
      - rewrite NewDeck_length. lia.
      - rewrite (Permutation_length Horder), NewDeck_length. lia. }
    exists rnd'.
    cbn [Deck PrepareForNextRound set_UpdatedAt set_Status set_Players
         set_Dealer set_Deck].
    unfold Shuffle. cbn [Deck.Cards]. rewrite NewDeck_length.
    exact Hrnd'. }
  split.
  { intros rnd' Hsame i Hi. subst g'.
    apply (Shuffle_draws rnd rnd' NewDeck NewDeck_NoDup Hsame).
    rewrite NewDeck_length. lia. }
  repeat split; try done.
  subst g'. simpl. rewrite <- list_fmap_compose. done.
Qed.

End NextRound.

(** ** The dealer's turn *)

Section DealerPhase.

(** The dealer takes the first [k] cards of the deck: every draw is made
    on a total below 17, and drawing ends on a total of 17 or more or on
    an empty deck. *)
Lemma dealer_draws_spec cards : forall hand,
  exists k : nat,
    (k <= length cards)%nat /\
    dealer_draws cards (Dealer.mk hand (CalculateHandScore hand))
    = (drop k cards,
       Dealer.mk (hand ++ (Card.set_Face true <$> take k cards))
         (CalculateHandScore
            (hand ++ (Card.set_Face true <$> take k cards)))) /\
    (forall j : nat, (j < k)%nat ->
       CalculateHandScore (hand ++ (Card.set_Face true <$> take j cards)) < 17) /\
    ((k < length cards)%nat ->
     17 <= CalculateHandScore (hand ++ (Card.set_Face true <$> take k cards))).
Proof.
  induction cards as [|card rest IH]; intros hand.
  - exists O. simpl. rewrite app_nil_r. repeat split; intros; lia.
  - cbn [dealer_draws Dealer.Score Dealer.Hand].
    destruct (Z.ltb_spec (CalculateHandScore hand) 17) as [Hlt|Hge].
    + destruct (IH (hand ++ [Card.set_Face true card]))
        as (k & Hk & Heq & Hwhile & Hstop).
      assert (Hsnoc : forall l : list Card.t,
                 hand ++ Card.set_Face true card :: l
                 = (hand ++ [Card.set_Face true card]) ++ l).
      { intros l. by rewrite <- app_assoc. }
      exists (S k). cbn [take drop fmap list_fmap length].
      rewrite !(Hsnoc (Card.set_Face true <$> take k rest)).
      repeat split.
      * lia.
      * exact Heq.
      * intros [|j] Hj.
        { simpl. by rewrite app_nil_r. }
        cbn [take fmap list_fmap].
        rewrite (Hsnoc (Card.set_Face true <$> take j rest)).
        apply Hwhile. lia.
      * intros Hlen. apply Hstop. lia.
    + exists O. simpl. rewrite app_nil_r. repeat split; intros; lia.
Qed.

(** C5.  The dealer phase turns every dealer card face up, scores the
    whole hand, then takes cards from the top of the deck one at a time,
    each on a total strictly below 17, until the total is 17 or more
    (whatever the aces count for) or the deck is empty; it then settles
    every seat against the final dealer hand and completes the game:
    the balance of every seat grows by what the rules pay it
    ([payout_int], which for a bet that [float64] holds exactly is
    [payout]) and nothing else of the seat changes.  A [Hit] on an empty
    deck fails and leaves the game as it was. *)
Theorem DealerTurn_spec now g :
  let hand := Card.set_Face true <$> Dealer.Hand (Dealer g) in
  let cards := Deck.Cards (Deck g) in
  let g' := DealerTurn now g in
  (exists k : nat,
      (k <= length cards)%nat /\
      Dealer.Hand (Dealer g') = hand ++ (Card.set_Face true <$> take k cards) /\
      Deck.Cards (Deck g') = drop k cards /\
      (forall j : nat, (j < k)%nat ->
         CalculateHandScore (hand ++ (Card.set_Face true <$> take j cards)) < 17) /\
      ((k < length cards)%nat -> 17 <= Dealer.Score (Dealer g'))) /\
  Forall (fun c => Card.Face c = true) (Dealer.Hand (Dealer g')) /\
  Dealer.Score (Dealer g') = CalculateHandScore (Dealer.Hand (Dealer g')) /\
  Players g' = settle (Dealer g') <$> Players g /\
  (forall i p,
      Players g !! i = Some p ->
      in_range (Player.Balance p) ->
      Players g' !! i
      = Some (Player.set_Balance
                (wrap (Player.Balance p + payout_int (Dealer g') p)) p) /\
      (Z.abs (Player.Bet p) <= float64_exact_bound ->
       payout_int (Dealer g') p = payout (Dealer g') p)) /\
  Status g' = Completed /\
  g' = BlackjackGame.mk (ID g) (Players g') (Dealer g') (Deck g') Completed
         (CreatedAt g) now (MinBet g) (MaxBet g) (TableID g)
         (CurrentPlayerIndex g) /\
  (forall playerID,
      Deck.Cards (Deck g) = [] -> Hit now g playerID = (Card.zero, false, g)).
Proof.
  intros hand cards g'.
  destruct (dealer_draws_spec cards hand) as (k & Hk & Heq & Hwhile & Hstop).
  assert (Hg' : g' = set_UpdatedAt now (set_Status Completed (DetermineWinners
      (set_Deck (Deck.mk (drop k cards))
         (set_Dealer
            (Dealer.mk (hand ++ (Card.set_Face true <$> take k cards))
               (CalculateHandScore
                  (hand ++ (Card.set_Face true <$> take k cards)))) g))))).
  { subst g' hand cards. unfold DealerTurn. by rewrite Heq. }
  rewrite Hg'. cbn.
  split; [|split; [|split; [|split; [|split; [|split; [|split]]]]]];
    try done.
  - exists k. repeat split; try done.
  - apply Forall_app. split; apply Forall_fmap, Forall_true; done.
  - intros i p Hp Hbal. split; [|apply payout_int_small].
    rewrite list_lookup_fmap, Hp. cbn [fmap option_fmap option_map].
    by rewrite settle_payout_int.
  - intros playerID Hempty. unfold Hit, DrawCard. rewrite Hempty.
    destruct (negb _); [done|].
    by destruct (first_index _ _).
Qed.

Lemma DealerTurn_spec_witness :
  Dealer (DealerTurn 9 game_dealer_to_play)
  = Dealer.mk [up Clubs Ten; up Diamonds Five; up Hearts Two] 17 /\
  Deck.Cards (Deck (DealerTurn 9 game_dealer_to_play)) = [up Clubs Nine] /\
  Player.Balance <$> Players (DealerTurn 9 game_dealer_to_play) !! O
  = Some 100 /\
  Player.Balance <$> Players (DealerTurn 9 game_dealer_to_play) !! 1%nat
  = Some 110 /\
  Status (DealerTurn 9 game_dealer_to_play) = Completed /\
  (Hit 9 round_of_two "p1").1.2 = true /\
  Hit 9 game_deck_empty "p1" = (Card.zero, false, game_deck_empty).
Proof.
  destruct (DealerTurn_spec 9 game_dealer_to_play)
    as ((k & Hk & Hhand & Hdeck & _ & Hstop) & _ & Hscore & _ & Hpay & Hst & _).
  assert (Hk1 : k = 1%nat).
  { assert (Hlen : length (Deck.Cards (Deck (DealerTurn 9 game_dealer_to_play)))
                   = 1%nat) by (vm_compute; reflexivity).
    rewrite Hdeck, length_drop in Hlen.
    change (length (Deck.Cards (Deck game_dealer_to_play))) with 2%nat in Hlen.
    lia. }
  subst k.
  assert (Hd : Dealer.Hand (Dealer (DealerTurn 9 game_dealer_to_play))
               = [up Clubs Ten; up Diamonds Five; up Hearts Two]).
  { rewrite Hhand. reflexivity. }
  split.
  { destruct (Dealer (DealerTurn 9 game_dealer_to_play)) as [hand score].
    cbn [Dealer.Hand Dealer.Score] in Hd, Hscore. subst hand.
    rewrite Hscore. reflexivity. }
  split; [rewrite Hdeck; reflexivity|].
  split.
  { destruct (Hpay O _ eq_refl) as [Hpaid Hrule].
    - vm_compute. split; discriminate.
    - rewrite Hpaid, Hrule; [vm_compute; reflexivity|].
      vm_compute. discriminate. }
  split.
  { destruct (Hpay 1%nat _ eq_refl) as [Hpaid Hrule].
    - vm_compute. split; discriminate.
    - rewrite Hpaid, Hrule; [vm_compute; reflexivity|].
      vm_compute. discriminate. }
  split; [exact Hst|].
  split; [vm_compute; reflexivity|].
  destruct (DealerTurn_spec 9 game_deck_empty) as (_ & _ & _ & _ & _ & _ & _ & Hempty).
  apply Hempty. reflexivity.
Defined.

(** The stopping rule looks at the total only: on a soft 17 (ace and six)
    the dealer draws nothing. *)
Example dealer_stands_on_soft_17 :
  dealer_draws [up Hearts Five; up Clubs Two]
    (Dealer.mk [up Spades Ace; up Hearts Six] 17)
  = ([up Hearts Five; up Clubs Two],
     Dealer.mk [up Spades Ace; up Hearts Six] 17).
Proof. reflexivity. Qed.

End DealerPhase.

(** ** Turn advance *)

Section TurnAdvance.

Lemma mod_succ_wrap (n start k : nat) :
  (start < n)%nat -> (k < n)%nat ->
  (((start + k) mod n + 1) mod n = start <-> k + 1 = n)%nat.
Proof.
  intros Hs Hk.
  rewrite Nat.Div0.add_mod_idemp_l.
  destruct (decide (start + k + 1 < n)%nat) as [Hlt|Hge].
  - rewrite Nat.mod_small by done. lia.
  - replace (start + k + 1)%nat with ((start + k + 1 - n) + 1 * n)%nat by lia.
    rewrite Nat.Div0.mod_add, Nat.mod_small by lia. lia.
Qed.

(** The scan of [NextPlayer] entered at seat [start]: after [k] seats
    without [PlayerActive] it goes on to hand the turn to the first seat
    in turn order that is [PlayerActive], or it opens the dealer's turn
    when no seat is. *)
Lemma scan_players_spec now g (start : nat) :
  let n := length (Players g) in
  (start < n)%nat ->
  forall fuel k : nat,
    (k + fuel = n)%nat -> (0 < fuel)%nat ->
    (forall m : nat, (m < k)%nat ->
       status_at g ((start + m) mod n) <> Some PlayerActive) ->
    (exists m : nat,
        (m < n)%nat /\
        status_at g ((start + m) mod n) = Some PlayerActive /\
        (forall m' : nat, (m' < m)%nat ->
           status_at g ((start + m') mod n) <> Some PlayerActive) /\
        scan_players fuel now start ((start + k) mod n) g
        = Some (give_turn ((start + m) mod n) g))
    \/
    ((forall m : nat, (m < n)%nat ->
        status_at g ((start + m) mod n) <> Some PlayerActive) /\
     scan_players fuel now start ((start + k) mod n) g
     = Some (DealerTurn now g)).
Proof.
  intros n Hstart fuel.
  induction fuel as [|fuel IH]; intros k Hk Hfuel Hseen; [lia|].
  cbn [scan_players]. fold n.
  destruct (decide (status_at g ((start + k) mod n) = Some PlayerActive))
    as [Hact|Hnot].
  { left. exists k. rewrite Hact. repeat split; [lia|done..]. }
  assert (Hseen' : forall m : nat, (m < k + 1)%nat ->
            status_at g ((start + m) mod n) <> Some PlayerActive).
  { intros m Hm. destruct (decide (m = k)) as [->|]; [done|].
    apply Hseen. lia. }
  assert (Hstep :
    scan_players (S fuel) now start ((start + k) mod n) g
    = if (((start + k) mod n + 1) mod n =? start)%nat
      then Some (DealerTurn now g)
      else scan_players fuel now start (((start + k) mod n + 1) mod n) g).
  { cbn [scan_players]. fold n.
    destruct (status_at g ((start + k) mod n)) as [[]|]; done. }
  cbn [scan_players] in Hstep. fold n in Hstep. rewrite Hstep. clear Hstep.
  destruct (Nat.eqb_spec (((start + k) mod n + 1) mod n) start) as [Heq|Hne].
  - right. apply mod_succ_wrap in Heq; [|done|lia].
    split; [|done]. intros m Hm. apply Hseen'. lia.
  - assert (k + 1 <> n)%nat as Hk1.
    { intros E. apply Hne. apply mod_succ_wrap; [done|lia|done]. }
    rewrite Nat.Div0.add_mod_idemp_l.
    replace (start + k + 1)%nat with (start + (k + 1))%nat by lia.
    apply IH; [lia|lia|done].
Qed.

(** [NextPlayer] on a table with at least one seat: the loop ends within
    [length (Players g)] iterations, with one of the two outcomes. *)
Lemma NextPlayer_spec now g :
  let n := length (Players g) in
  let start := ((CurrentPlayerIndex g + 1) mod n)%nat in
  (0 < n)%nat ->
  (exists m : nat,
      (m < n)%nat /\
      status_at g ((start + m) mod n) = Some PlayerActive /\
      (forall m' : nat, (m' < m)%nat ->
         status_at g ((start + m') mod n) <> Some PlayerActive) /\
      NextPlayer now g = give_turn ((start + m) mod n) g)
  \/
  ((forall p, p ∈ Players g -> Player.Status p <> PlayerActive) /\
   NextPlayer now g = DealerTurn now g).
Proof.
  intros n start Hn.
  assert (Hstart : (start < n)%nat) by (apply Nat.mod_upper_bound; lia).
  destruct (scan_players_spec now g start Hstart n O) as [H|H].
  - fold n. lia.
  - done.
  - intros m Hm. lia.
  - left. destruct H as (m & Hm & Hact & Hfirst & Hscan). exists m.
    repeat split; [done..|].
    unfold NextPlayer. fold n. fold start.
    fold n in Hscan.
    rewrite Nat.add_0_r, (Nat.mod_small start n) in Hscan by done.
    by rewrite Hscan.
  - right. destruct H as (Hnone & Hscan). split.
    + intros p [i Hi]%list_elem_of_lookup Hp.
      assert (Hin : (i < n)%nat) by (by eapply lookup_lt_Some).
      apply (Hnone ((i + n - start) mod n)%nat).
      { apply Nat.mod_upper_bound. lia. }
      rewrite Nat.Div0.add_mod_idemp_r.
      replace (start + (i + n - start))%nat with (i + 1 * n)%nat by lia.
      rewrite Nat.Div0.mod_add, Nat.mod_small by done.
      unfold status_at. rewrite Hi. simpl. by rewrite Hp.
    + unfold NextPlayer. fold n. fold start.
      fold n in Hscan.
      rewrite Nat.add_0_r, (Nat.mod_small start n) in Hscan by done.
      by rewrite Hscan.
Qed.

End TurnAdvance.

(** ** What a call does, case by case *)

Section Calls.

Lemma update_player_insert i f g p :
  Players g !! i = Some p ->
  update_player i f g = set_Players (<[i := f p]> (Players g)) g.
Proof.
  intros Hp. unfold update_player. by rewrite (alter_insert _ _ _ p).
Qed.

Lemma update_player_set i f ps g p :
  ps !! i = Some p ->
  update_player i f (set_Players ps g) = set_Players (<[i := f p]> ps) g.
Proof.
  intros Hp. unfold update_player. cbn [Players set_Players].
  by rewrite (alter_insert _ _ _ p).
Qed.

Lemma may_act_true playerID p :
  may_act playerID p = true <->
  Player.ID p = playerID /\ Player.IsActive p = true
  /\ Player.Status p = PlayerActive.
Proof.
  unfold may_act. rewrite !andb_true_iff, String.eqb_eq, PlayerStatus_eqb_eq.
  tauto.
Qed.

Lemma Hit_cases now g playerID :
  Hit now g playerID = (Card.zero, false, g) \/
  exists i p card rest,
    Status g = InProgress /\
    first_index (may_act playerID) (Players g) = Some i /\
    Players g !! i = Some p /\
    may_act playerID p = true /\
    Deck.Cards (Deck g) = card :: rest /\
    Hit now g playerID
    = (Card.set_Face true card, true,
       set_UpdatedAt now
         (if 21 <? Player.Score (dealt card p) then
            NextPlayer now
              (set_Players
                 (<[i := retire PlayerBusted (dealt card p)]> (Players g))
                 (set_Deck (Deck.mk rest) g))
          else
            set_Players (<[i := dealt card p]> (Players g))
              (set_Deck (Deck.mk rest) g))).
Proof.
  unfold Hit.
  destruct (GameStatus_eqb (Status g) InProgress) eqn:Hst; [|by left].
  apply GameStatus_eqb_eq in Hst. simpl.
  destruct (first_index _ _) as [i|] eqn:Hi; [|by left].
  pose proof Hi as (p & Hp & Hact & _)%first_index_Some.
  unfold DrawCard.
  destruct (Deck.Cards (Deck g)) as [|card rest] eqn:Hdeck; [by left|].
  right. exists i, p, card, rest. repeat split; try done.
  cbn [negb]. cbv iota. f_equal.
  assert (Hlt : (i < length (Players g))%nat) by by eapply lookup_lt_Some.
  rewrite (update_player_insert i _ (set_Deck (Deck.mk rest) g) p Hp).
  rewrite (update_player_set i _ _ _ _ (list_lookup_insert_eq _ _ _ Hlt)).
  rewrite list_insert_insert_eq.
  cbn [Players set_Players set_Deck].
  rewrite !list_lookup_alter_eq, Hp. cbn [fmap option_fmap option_map].
  change (Player.set_Score _ (Player.set_Hand _ p)) with (dealt card p).
  change (CalculateHandScore (Player.Hand p ++ [Card.set_Face true card]))
    with (Player.Score (dealt card p)).
  destruct (21 <? Player.Score (dealt card p)); [|done].
  rewrite (update_player_set i _ _ _ _ (list_lookup_insert_eq _ _ _ Hlt)).
  rewrite list_insert_insert_eq.
  rewrite (update_player_set i _ _ _ _ (list_lookup_insert_eq _ _ _ Hlt)).
  by rewrite list_insert_insert_eq.
Qed.

Lemma Stand_cases now g playerID :
  Stand now g playerID = (false, g) \/
  exists i p,
    Status g = InProgress /\
    first_index (may_act playerID) (Players g) = Some i /\
    Players g !! i = Some p /\
    may_act playerID p = true /\
    Stand now g playerID
    = (true,
       set_UpdatedAt now
         (NextPlayer now
            (set_Players (<[i := retire PlayerStood p]> (Players g)) g))).
Proof.
  unfold Stand.
  destruct (GameStatus_eqb (Status g) InProgress) eqn:Hst; [|by left].
  apply GameStatus_eqb_eq in Hst. simpl.
  destruct (first_index _ _) as [i|] eqn:Hi; [|by left].
  pose proof Hi as (p & Hp & Hact & _)%first_index_Some.
  right. exists i, p. repeat split; try done.
  assert (Hlt : (i < length (Players g))%nat) by by eapply lookup_lt_Some.
  rewrite (update_player_insert i _ g p Hp).
  rewrite (update_player_set i _ _ _ _ (list_lookup_insert_eq _ _ _ Hlt)).
  by rewrite list_insert_insert_eq.
Qed.

Lemma Start_cases now g :
  Start now g = (false, g) \/
  (Status g = Betting /\ Players g <> [] /\
   Forall (fun p => Player.Bet p <> 0) (Players g) /\
   Start now g
   = (true,
      update_player O (Player.set_IsActive true)
        (set_CurrentPlayerIndex O
           (set_UpdatedAt now (set_Status InProgress (DealInitialCards g)))))).
Proof.
  unfold Start.
  destruct (GameStatus_eqb (Status g) Betting) eqn:Hst; [|by left].
  apply GameStatus_eqb_eq in Hst. simpl.
  destruct (Nat.eqb_spec (length (Players g)) 0) as [|Hlen]; [by left|].
  destruct (existsb _ _) eqn:Hbets; [by left|].
  right. repeat split; try done.
  - intros E. by rewrite E in Hlen.
  - apply Forall_forall. intros p Hp Hzero.
    assert (existsb (fun p => Player.Bet p =? 0) (Players g) = true);
      [|congruence].
    apply existsb_exists. exists p. split; [by apply list_elem_of_In|].
    by apply Z.eqb_eq.
Qed.

End Calls.

(** ** Turn flags *)

Section TurnFlags.

Lemma active_seats_app l1 l2 :
  active_seats (l1 ++ l2) = (active_seats l1 + active_seats l2)%nat.
Proof. induction l1 as [|p l1 IH]; simpl; [done|]. rewrite IH. lia. Qed.

Lemma active_seats_insert l : forall i p q,
  l !! i = Some p ->
  (active_seats (<[i := q]> l) + flag p = active_seats l + flag q)%nat.
Proof.
  induction l as [|a l IH]; intros [|i] p q Hp; simplify_eq/=.
  - unfold flag. lia.
  - specialize (IH i p q Hp). lia.
Qed.

Lemma active_seats_fmap (f : Player.t -> Player.t) l :
  (forall p, Player.IsActive (f p) = Player.IsActive p) ->
  active_seats (f <$> l) = active_seats l.
Proof.
  intros Hf. induction l as [|a l IH]; csimpl; [done|].
  unfold flag. by rewrite Hf, IH.
Qed.

Lemma active_seats_zero l :
  active_seats l = O <-> Forall (fun p => Player.IsActive p = false) l.
Proof.
  induction l as [|a l IH]; simpl.
  - split; [constructor|done].
  - rewrite Forall_cons, <- IH. unfold flag.
    destruct (Player.IsActive a); split; try lia; try by intros [? ?].
Qed.

Lemma active_seats_delete l i :
  active_seats l = O -> active_seats (take i l ++ drop (S i) l) = O.
Proof.
  rewrite !active_seats_zero, Forall_app. intros H.
  split; [by apply Forall_take | by apply Forall_drop].
Qed.

Lemma deal_player_frame deck p :
  let p' := (deal_player deck p).2 in
  Player.IsActive p' = Player.IsActive p /\ Player.ID p' = Player.ID p /\
  Player.Name p' = Player.Name p /\ Player.Bet p' = Player.Bet p /\
  Player.Balance p' = Player.Balance p.
Proof.
  unfold deal_player.
  destruct (DrawCard deck) as [[card1 ok1] deck1].
  destruct (DrawCard deck1) as [[card2 ok2] deck2]. simpl.
  by destruct (_ =? 21).
Qed.

Lemma deal_players_length players : forall deck,
  length (deal_players deck players).2 = length players.
Proof.
  induction players as [|p players IH]; intros deck; simpl; [done|].
  destruct (deal_player deck p) as [deck1 p'].
  specialize (IH deck1). destruct (deal_players deck1 players). simpl in *.
  by rewrite IH.
Qed.

Lemma deal_players_active players : forall deck,
  active_seats (deal_players deck players).2 = active_seats players.
Proof.
  induction players as [|p players IH]; intros deck; simpl; [done|].
  pose proof (deal_player_frame deck p) as (Hact & _).
  destruct (deal_player deck p) as [deck1 p'].
  specialize (IH deck1). destruct (deal_players deck1 players).
  simpl in *. unfold flag. by rewrite Hact, IH.
Qed.

Lemma DealInitialCards_players g :
  Players (DealInitialCards g) = (deal_players (Deck g) (Players g)).2.
Proof.
  unfold DealInitialCards.
  destruct (deal_players (Deck g) (Players g)) as [deck1 players].
  destruct (DrawCard deck1) as [[c1 ok1] deck2].
  by destruct (DrawCard deck2) as [[c2 ok2] deck3].
Qed.

Lemma DealInitialCards_frame g :
  Status (DealInitialCards g) = Status g.
Proof.
  unfold DealInitialCards.
  destruct (deal_players (Deck g) (Players g)) as [deck1 players].
  destruct (DrawCard deck1) as [[c1 ok1] deck2].
  by destruct (DrawCard deck2) as [[c2 ok2] deck3].
Qed.

Lemma DealerTurn_status now g : Status (DealerTurn now g) = Completed.
Proof.
  unfold DealerTurn. by destruct (dealer_draws _ _).
Qed.

Lemma give_turn_active j g p :
  Players g !! j = Some p ->
  (active_seats (Players (give_turn j g)) + flag p
   = active_seats (Players g) + 1)%nat.
Proof.
  intros Hp. unfold give_turn.
  rewrite (update_player_insert j _ _ p) by done.
  cbn [Players set_Players set_CurrentPlayerIndex].
  by rewrite (active_seats_insert _ j p _ Hp).
Qed.

(** The turn-advance scan, entered with no seat flagged: it flags exactly
    one seat, or the dealer phase completes the game. *)
Lemma NextPlayer_turn now g :
  Players g <> [] ->
  active_seats (Players g) = O ->
  (Status (NextPlayer now g) = Status g /\
   active_seats (Players (NextPlayer now g)) = 1%nat) \/
  Status (NextPlayer now g) = Completed.
Proof.
  intros Hne Hzero.
  destruct (NextPlayer_spec now g) as [(m & Hm & Hact & _ & ->)|[_ ->]].
  - destruct (Players g); [done|simpl; lia].
  - left. split; [done|].
    unfold status_at in Hact.
    destruct (Players g !! _) as [p|] eqn:Hp; [|done].
    pose proof (give_turn_active _ g p Hp) as Hcount.
    assert (Hoff : Player.IsActive p = false).
    { apply active_seats_zero in Hzero. rewrite Forall_forall in Hzero.
      apply Hzero. by eapply list_elem_of_lookup_2. }
    unfold flag in Hcount. rewrite Hoff in Hcount. lia.
  - right. apply DealerTurn_status.
Qed.

End TurnFlags.

(** ** What a call leaves untouched *)

Section Frames.

Lemma NextPlayer_cases now g :
  NextPlayer now g = g \/
  (exists j p, Players g !! j = Some p /\ Player.Status p = PlayerActive /\
               NextPlayer now g = give_turn j g) \/
  NextPlayer now g = DealerTurn now g.
Proof.
  destruct (Players g) as [|p0 ps] eqn:Hps.
  { left. unfold NextPlayer. by rewrite Hps. }
  rewrite <- Hps.
  destruct (NextPlayer_spec now g) as [(m & Hm & Hact & _ & ->)|[_ ->]].
  - rewrite Hps. simpl. lia.
  - right. left. unfold status_at in Hact.
    destruct (Players g !! _) as [p|] eqn:Hp; [|done].
    eexists _, p. split; [done|]. split; [|done].
    by injection Hact.
  - by right; right.
Qed.

Lemma AddPlayer_cases now g playerID playerName initialBalance :
  let g' := (AddPlayer now g playerID playerName initialBalance).2 in
  g' = g \/
  (Status g = Waiting /\
   ((exists i p, Players g !! i = Some p /\
       g' = set_Players (<[i := Player.set_IsActive true p]> (Players g)) g) \/
    (exists p, Player.Hand p = [] /\ Player.IsActive p = false /\
       g' = set_UpdatedAt now (set_Players (Players g ++ [p]) g)))).
Proof.
  unfold AddPlayer.
  destruct (GameStatus_eqb (Status g) Waiting) eqn:Hst;
    [apply GameStatus_eqb_eq in Hst|].
  - destruct (first_index _ _) as [i|] eqn:Hi; simpl.
    + pose proof Hi as (p & Hp & _)%first_index_Some.
      right. split; [done|]. left. exists i, p. split; [done|].
      by apply update_player_insert.
    + right. split; [done|]. right.
      by exists (Player.mk playerID playerName [] 0 PlayerActive 0
                   initialBalance false).
  - destruct (first_index _ _); by left.
Qed.

Lemma RemovePlayer_cases now g playerID :
  let g' := (RemovePlayer now g playerID).2 in
  g' = g \/
  exists i, g' = set_UpdatedAt now
                   (set_Players
                      (take i (Players g) ++ drop (S i) (Players g)) g).
Proof.
  unfold RemovePlayer. destruct (first_index _ _) as [i|]; simpl.
  - right. by exists i.
  - by left.
Qed.

Lemma PlaceBet_cases now g playerID amount :
  let g' := (PlaceBet now g playerID amount).2 in
  g' = g \/
  exists i p q,
    Players g !! i = Some p /\
    Player.Hand q = Player.Hand p /\ Player.IsActive q = Player.IsActive p /\
    g' = set_UpdatedAt now (set_Players (<[i := q]> (Players g)) g).
Proof.
  unfold PlaceBet.
  destruct (negb _); [by left|].
  destruct (_ || _); [by left|].
  destruct (first_index _ _) as [i|]; [|by left].
  destruct (Players g !! i) as [p|] eqn:Hp; [|by left].
  destruct (_ <? _); [by left|].
  right. exists i, p.
  exists (Player.set_Balance (wrap (Player.Balance p - amount))
            (Player.set_Bet amount p)).
  split; [done|].
  assert (Hlt : (i < length (Players g))%nat) by by eapply lookup_lt_Some.
  cbn [snd].
  rewrite (update_player_insert i _ g p Hp).
  rewrite (update_player_set i _ _ _ _ (list_lookup_insert_eq _ _ _ Hlt)).
  rewrite list_insert_insert_eq. by repeat split.
Qed.

(** A successful [Hit] or [Stand] is made in a round in progress and
    leaves it in progress or completed. *)
Lemma NextPlayer_status now g :
  Status (NextPlayer now g) = Status g \/ Status (NextPlayer now g) = Completed.
Proof.
  destruct (NextPlayer_cases now g) as [->|[(j & p & _ & _ & ->)| ->]].
  - by left.
  - by left.
  - right. apply DealerTurn_status.
Qed.

Lemma Hit_status now g playerID :
  (Hit now g playerID).2 = g \/
  (Status g = InProgress /\
   (Status (Hit now g playerID).2 = InProgress
    \/ Status (Hit now g playerID).2 = Completed)).
Proof.
  destruct (Hit_cases now g playerID)
    as [->|(i & p & card & rest & Hst & _ & _ & _ & _ & ->)]; [by left|].
  right. split; [done|]. cbn [snd].
  destruct (_ <? _).
  - destruct (NextPlayer_status now
      (set_Players (<[i:=retire PlayerBusted (dealt card p)]> (Players g))
         (set_Deck (Deck.mk rest) g))) as [H|H]; cbn in *; rewrite H; auto.
  - by left.
Qed.

Lemma Stand_status now g playerID :
  (Stand now g playerID).2 = g \/
  (Status g = InProgress /\
   (Status (Stand now g playerID).2 = InProgress
    \/ Status (Stand now g playerID).2 = Completed)).
Proof.
  destruct (Stand_cases now g playerID)
    as [->|(i & p & Hst & _ & _ & _ & ->)]; [by left|].
  right. split; [done|]. cbn [snd].
  destruct (NextPlayer_status now
      (set_Players (<[i:=retire PlayerStood p]> (Players g)) g))
    as [H|H]; cbn in *; rewrite H; auto.
Qed.

Lemma Start_status now g :
  (Start now g).2 = g \/
  (Status g = Betting /\ Status (Start now g).2 = InProgress).
Proof.
  destruct (Start_cases now g) as [->|(Hst & _ & _ & ->)]; [by left|].
  right. done.
Qed.

Lemma PrepareForNextRound_ready rnd now g :
  let g' := PrepareForNextRound rnd now g in
  Status g' = Betting /\ fresh_table g' /\ active_seats (Players g') = O.
Proof.
  intros g'. split; [done|]. split; [split; [|split]|].
  - rewrite <- NewDeck_cards. apply fmap_Permutation, Shuffle_Permutation.
  - done.
  - subst g'. cbn. by apply Forall_fmap, Forall_true.
  - apply active_seats_zero. subst g'. cbn. by apply Forall_fmap, Forall_true.
Qed.

(** Between rounds the table is fresh, and in Betting no seat is flagged:
    the only way into Betting is [PrepareForNextRound]. *)
Lemma between_rounds allowed g :
  reachable_by allowed g ->
  (Status g = Waiting \/ Status g = Betting -> fresh_table g) /\
  (Status g = Betting -> active_seats (Players g) = O).
Proof.
  induction 1 as [id rnd now tableID minBet maxBet|g now op Hreach IH Hok].
  { split; [|done]. intros _. split; [|split]; [|done|by constructor].
    rewrite <- NewDeck_cards. apply fmap_Permutation, Shuffle_Permutation. }
  destruct IH as [IHfresh IHflags].
  destruct op as [playerID playerName initialBalance|playerID|playerID amount
                 | |playerID|playerID|rnd| ]; cbn [exec].
  - (* AddPlayer *)
    destruct (AddPlayer_cases now g playerID playerName initialBalance)
      as [->|(Hst & [(i & p & Hp & ->)|(p & Hhand & Hact & ->)])]; [done|..];
      cbn; (split; [|congruence]); intros _;
      destruct (IHfresh ltac:(by left)) as (Hdeck & Hdealer & Hhands);
      (split; [done|split; [done|]]).
    + apply Forall_insert; [done|]. simpl.
      rewrite Forall_forall in Hhands. apply Hhands.
      by eapply list_elem_of_lookup_2.
    + apply Forall_app. split; [done|]. by constructor.
  - (* RemovePlayer *)
    destruct (RemovePlayer_cases now g playerID) as [->|(i & ->)]; [done|].
    cbn. split.
    + intros Hst. destruct (IHfresh Hst) as (Hdeck & Hdealer & Hhands).
      split; [done|split; [done|]]. apply Forall_app.
      split; [by apply Forall_take | by apply Forall_drop].
    + intros Hst. by apply active_seats_delete, IHflags.
  - (* PlaceBet *)
    destruct (PlaceBet_cases now g playerID amount)
      as [->|(i & p & q & Hp & Hhand & Hact & ->)]; [done|].
    cbn. split.
    + intros Hst. destruct (IHfresh Hst) as (Hdeck & Hdealer & Hhands).
      split; [done|split; [done|]]. apply Forall_insert; [done|].
      rewrite Hhand. rewrite Forall_forall in Hhands. apply Hhands.
      by eapply list_elem_of_lookup_2.
    + intros Hst. pose proof (active_seats_insert _ i p q Hp) as Hc.
      unfold flag in Hc. rewrite Hact in Hc. specialize (IHflags Hst). lia.
  - (* Start *)
    destruct (Start_status now g) as [->|[_ Hst]]; [done|].
    rewrite Hst. split; [intros [?|?]; congruence | congruence].
  - (* Hit *)
    destruct (Hit_status now g playerID) as [->|[_ [Hst|Hst]]]; [done|..];
      rewrite Hst; (split; [intros [?|?]; congruence | congruence]).
  - (* Stand *)
    destruct (Stand_status now g playerID) as [->|[_ [Hst|Hst]]]; [done|..];
      rewrite Hst; (split; [intros [?|?]; congruence | congruence]).
  - (* PrepareForNextRound *)
    destruct (PrepareForNextRound_ready rnd now g) as (_ & Hfresh & Hflags).
    done.
  - (* the host closes the idle table *)
    unfold CloseIdleTable. destruct (_ =? _)%nat; [|done].
    cbn. split; [intros [?|?]; congruence | congruence].
Qed.

End Frames.

(** ** The turn invariant *)

Section TurnInvariant.

Lemma reachable_run allowed calls : forall g,
  reachable_by allowed g ->
  (forall g' op, allowed g' op) ->
  reachable_by allowed (run calls g).
Proof.
  induction calls as [|[now op] calls IH]; intros g Hg Hall; [done|].
  simpl. apply IH; [|done]. by constructor.
Qed.

Lemma turn_invariant_UpdatedAt now g :
  turn_invariant g -> turn_invariant (set_UpdatedAt now g).
Proof. done. Qed.

Lemma NextPlayer_keeps_turn now g :
  Players g <> [] -> active_seats (Players g) = O ->
  turn_invariant (NextPlayer now g).
Proof.
  intros Hne Hzero Hst.
  destruct (NextPlayer_turn now g Hne Hzero) as [[_ Hone]|Hdone];
    [done|congruence].
Qed.

Lemma retire_in_turn i p q (players : list Player.t) :
  players !! i = Some p -> Player.IsActive p = true ->
  Player.IsActive q = false ->
  active_seats players = 1%nat ->
  <[i := q]> players <> [] /\ active_seats (<[i := q]> players) = O.
Proof.
  intros Hp Hon Hoff Hone. split.
  - intros E. apply (f_equal length) in E. rewrite length_insert in E.
    apply lookup_lt_Some in Hp. simpl in E. lia.
  - pose proof (active_seats_insert _ i p q Hp) as Hc.
    unfold flag in Hc. rewrite Hon, Hoff in Hc. lia.
Qed.

Lemma Hit_keeps_turn now g playerID :
  turn_invariant g -> turn_invariant (Hit now g playerID).2.
Proof.
  intros Hinv.
  destruct (Hit_cases now g playerID)
    as [->|(i & p & card & rest & Hst & _ & Hp & Hact & _ & ->)]; [done|].
  apply may_act_true in Hact as (_ & Hon & _).
  specialize (Hinv Hst). cbn [snd]. apply turn_invariant_UpdatedAt.
  destruct (_ <? _).
  - destruct (retire_in_turn i p (retire PlayerBusted (dealt card p))
                (Players g) Hp Hon eq_refl Hinv) as [Hne Hzero].
    by apply NextPlayer_keeps_turn.
  - intros _. cbn.
    pose proof (active_seats_insert _ i p (dealt card p) Hp) as Hc.
    unfold flag in Hc. cbn in Hc. lia.
Qed.

Lemma Stand_keeps_turn now g playerID :
  turn_invariant g -> turn_invariant (Stand now g playerID).2.
Proof.
  intros Hinv.
  destruct (Stand_cases now g playerID)
    as [->|(i & p & Hst & _ & Hp & Hact & ->)]; [done|].
  apply may_act_true in Hact as (_ & Hon & _).
  specialize (Hinv Hst). cbn [snd]. apply turn_invariant_UpdatedAt.
  destruct (retire_in_turn i p (retire PlayerStood p)
              (Players g) Hp Hon eq_refl Hinv) as [Hne Hzero].
  by apply NextPlayer_keeps_turn.
Qed.

Lemma Start_active now g :
  Status g = Betting -> active_seats (Players g) = O ->
  (Start now g).1 = true ->
  active_seats (Players (Start now g).2) = 1%nat /\
  exists p0, Players (DealInitialCards g) !! O = Some p0 /\
    Players (Start now g).2
    = <[O := Player.set_IsActive true p0]> (Players (DealInitialCards g)).
Proof.
  intros Hst Hzero Hok.
  destruct (Start_cases now g) as [E|(_ & Hne & _ & E)]; rewrite E in *;
    [done|]. cbn [snd].
  assert (Hlen : length (Players (DealInitialCards g)) = length (Players g)).
  { rewrite DealInitialCards_players. apply deal_players_length. }
  destruct (Players (DealInitialCards g) !! O) as [p0|] eqn:Hp0.
  2:{ apply lookup_ge_None in Hp0. destruct (Players g); [done|].
      simpl in Hlen. lia. }
  assert (Hdealt : active_seats (Players (DealInitialCards g)) = O).
  { rewrite DealInitialCards_players, deal_players_active. done. }
  unfold update_player. cbn [Players set_Players set_CurrentPlayerIndex
                               set_UpdatedAt set_Status].
  rewrite (alter_insert _ _ _ p0 Hp0). split; [|by exists p0].
  pose proof (active_seats_insert _ O p0 (Player.set_IsActive true p0) Hp0) as Hc.
  assert (Hoff : Player.IsActive p0 = false).
  { apply active_seats_zero in Hdealt. rewrite Forall_forall in Hdealt.
    apply Hdealt. by eapply list_elem_of_lookup_2. }
  unfold flag in Hc. rewrite Hoff in Hc. cbn in Hc. lia.
Qed.

Lemma Start_keeps_turn now g :
  (Status g = Betting -> active_seats (Players g) = O) ->
  turn_invariant g -> turn_invariant (Start now g).2.
Proof.
  intros Hready Hinv.
  destruct (Start_cases now g) as [->|(Hst & _ & _ & E)]; [done|].
  intros _. apply Start_active; [done|by apply Hready|by rewrite E].
Qed.

Lemma active_seats_remove l i p :
  l !! i = Some p ->
  (active_seats (take i l ++ drop (S i) l) + flag p = active_seats l)%nat.
Proof.
  intros Hp. rewrite <- (take_drop_middle l i p Hp) at 3.
  rewrite !active_seats_app. simpl. lia.
Qed.

Lemma reachable_by_mono (allowed allowed' : BlackjackGame.t -> Op -> Prop) g :
  (forall g' op, allowed g' op -> allowed' g' op) ->
  reachable_by allowed g -> reachable_by allowed' g.
Proof.
  intros Hsub. induction 1 as [|g now op Hreach IH Hok]; [constructor|].
  constructor; [done|]. by apply Hsub.
Qed.

Lemma keeps_seats_turn_seat g op : keeps_seats g op -> keeps_turn_seat g op.
Proof.
  intros Hkeep playerID i p Hop Hst _ _. by destruct (Hkeep playerID Hop).
Qed.

(** A seat that does not hold the turn may leave during a round. *)
Lemma turn_invariant_unflagged g :
  reachable_by keeps_turn_seat g -> turn_invariant g.
Proof.
  induction 1 as [id rnd now tableID minBet maxBet|g now op Hreach IH Hok].
  { intros Hst. done. }
  pose proof (between_rounds _ _ Hreach) as [_ Hflags].
  destruct op as [playerID playerName initialBalance|playerID|playerID amount
                 | |playerID|playerID|rnd| ]; cbn [exec].
  - destruct (AddPlayer_cases now g playerID playerName initialBalance)
      as [->|(Hst & [(i & p & Hp & ->)|(p & Hhand & Hact & ->)])]; [done|..];
      intros Hst'; cbn in Hst'; congruence.
  - unfold RemovePlayer. fold (seat_of g playerID).
    destruct (seat_of g playerID) as [i|] eqn:Hseat; [|done].
    pose proof Hseat as (p & Hp & _)%seat_of_Some.
    intros Hst'. cbn in Hst'. cbn [snd Players set_Players set_UpdatedAt].
    pose proof (Hok playerID i p eq_refl Hst' Hseat Hp) as Hflag.
    pose proof (active_seats_remove _ i p Hp) as Hc.
    unfold flag in Hc. rewrite Hflag in Hc. specialize (IH Hst'). lia.
  - destruct (PlaceBet_cases now g playerID amount)
      as [->|(i & p & q & Hp & Hhand & Hact & ->)]; [done|].
    intros Hst'. cbn in *. specialize (IH Hst').
    pose proof (active_seats_insert _ i p q Hp) as Hc.
    unfold flag in Hc. rewrite Hact in Hc. lia.
  - by apply Start_keeps_turn.
  - by apply Hit_keeps_turn.
  - by apply Stand_keeps_turn.
  - intros Hst'. done.
  - unfold CloseIdleTable. destruct (_ =? _)%nat; [|done].
    intros Hst'. cbn in Hst'. congruence.
Qed.

Lemma turn_invariant_reachable g :
  reachable_by keeps_seats g -> turn_invariant g.
Proof.
  intros Hreach. apply turn_invariant_unflagged.
  eapply reachable_by_mono; [|exact Hreach]. apply keeps_seats_turn_seat.
Qed.




End TurnInvariant.

(** ** A blackjack in the first seat *)

Section FirstSeatBlackjack.

Lemma deal_player_spec deck p :
  let p' := (deal_player deck p).2 in
  (exists c1 c2, Player.Hand p' = Player.Hand p ++ [c1; c2]) /\
  Player.Score p' = CalculateHandScore (Player.Hand p') /\
  Player.Status p'
  = (if Player.Score p' =? 21 then PlayerBlackjack else Player.Status p).
Proof.
  unfold deal_player.
  destruct (DrawCard deck) as [[card1 ok1] deck1].
  destruct (DrawCard deck1) as [[card2 ok2] deck2]. cbn [snd].
  destruct (_ =? 21) eqn:E; cbn in *; rewrite E.
  - split; [|done]. eexists _, _. by rewrite <- app_assoc.
  - split; [|done]. eexists _, _. by rewrite <- app_assoc.
Qed.

Lemma deal_players_head deck p rest :
  (deal_players deck (p :: rest)).2 !! O = Some (deal_player deck p).2.
Proof.
  simpl. destruct (deal_player deck p) as [deck1 p'].
  by destruct (deal_players deck1 rest).
Qed.

Lemma Hit_nobody now g playerID :
  first_index (may_act playerID) (Players g) = None ->
  Hit now g playerID = (Card.zero, false, g).
Proof. intros E. unfold Hit. rewrite E. by destruct (negb _). Qed.

Lemma Stand_nobody now g playerID :
  first_index (may_act playerID) (Players g) = None ->
  Stand now g playerID = (false, g).
Proof. intros E. unfold Stand. rewrite E. by destruct (negb _). Qed.

Lemma run_stalled g :
  (forall now op, is_play op = true -> exec now op g = g) ->
  forall calls,
    Forall (fun call : Time * Op => is_play call.2 = true) calls ->
    run calls g = g.
Proof.
  intros Hstall calls. induction 1 as [|[now op] calls Hop _ IH]; [done|].
  simpl. by rewrite Hstall.
Qed.

(** C10.  When [Start] succeeds on a game the engine has reached and the
    two cards dealt to the first seat total 21, that seat is flagged
    Blackjack and is nevertheless given the turn; no seat then has the
    turn flag together with status Active, so every [Hit] and every
    [Stand], for any player id, fails and leaves the game as it is: in
    progress, after any sequence of such calls. *)
Theorem first_seat_blackjack_stalls g now p0 :
  reachable g ->
  (Start now g).1 = true ->
  Players (Start now g).2 !! O = Some p0 ->
  CalculateHandScore (Player.Hand p0) = 21 ->
  let g' := (Start now g).2 in
  length (Player.Hand p0) = 2%nat /\
  Player.Status p0 = PlayerBlackjack /\
  Player.IsActive p0 = true /\
  Status g' = InProgress /\
  (forall now' playerID, Hit now' g' playerID = (Card.zero, false, g')) /\
  (forall now' playerID, Stand now' g' playerID = (false, g')) /\
  (forall calls,
      Forall (fun call : Time * Op => is_play call.2 = true) calls ->
      run calls g' = g' /\ Status (run calls g') = InProgress).
Proof.
  intros Hreach Hok Hp0 Hscore g'.
  destruct (Start_cases now g) as [E|(Hst & Hne & _ & E)];
    [by rewrite E in Hok|].
  destruct (between_rounds _ _ Hreach) as [Hfresh Hflags].
  destruct (Hfresh (or_intror Hst)) as (_ & _ & Hhands).
  specialize (Hflags Hst).
  destruct (Start_active now g Hst Hflags Hok) as (Hone & q0 & Hq0 & Hplayers).
  assert (Hlen0 : (0 < length (Players (DealInitialCards g)))%nat)
    by by eapply lookup_lt_Some.
  assert (Ep0 : p0 = Player.set_IsActive true q0).
  { rewrite Hplayers, list_lookup_insert_eq in Hp0 by done. congruence. }
  destruct (Players g) as [|p players] eqn:Hps; [done|].
  rewrite DealInitialCards_players, Hps, deal_players_head in Hq0.
  injection Hq0 as Eq0.
  pose proof (deal_player_spec (Deck g) p) as ((c1 & c2 & Hhand) & Hsc & Hstat).
  rewrite Eq0 in Hhand, Hsc, Hstat.
  apply Forall_cons in Hhands as [Hempty _]. rewrite Hempty in Hhand.
  assert (Hbj : Player.Status p0 = PlayerBlackjack).
  { rewrite Ep0. cbn. rewrite Hstat, Hsc.
    rewrite Ep0 in Hscore. cbn in Hscore. by rewrite Hscore. }
  assert (Hst' : Status g' = InProgress) by (subst g'; by rewrite E).
  assert (Hnone : forall playerID,
             first_index (may_act playerID) (Players g') = None).
  { intros playerID. apply first_index_None. intros q Hq.
    apply list_elem_of_lookup in Hq as [j Hj].
    subst g'. rewrite Hplayers in Hj.
    destruct j as [|j].
    - rewrite list_lookup_insert_eq in Hj by done.
      assert (q = p0) as -> by congruence.
      unfold may_act. rewrite Hbj. cbn. by rewrite andb_false_r.
    - rewrite list_lookup_insert_ne in Hj by done.
      assert (Hoff : Player.IsActive q = false).
      { assert (Hz : active_seats (Players (DealInitialCards g)) = O).
        { rewrite DealInitialCards_players, deal_players_active.
          by rewrite Hps. }
        apply active_seats_zero in Hz. rewrite Forall_forall in Hz.
        apply Hz. by eapply list_elem_of_lookup_2. }
      unfold may_act. rewrite Hoff. cbn. by rewrite andb_false_r. }
  assert (Hstall : forall now' op, is_play op = true -> exec now' op g' = g').
  { intros now' [] Hop; try done; cbn [exec].
    - by rewrite Hit_nobody.
    - by rewrite Stand_nobody. }
  split; [rewrite Ep0; cbn; by rewrite Hhand|].
  split; [done|]. split; [by rewrite Ep0|]. split; [done|].
  split; [intros; by apply Hit_nobody|].
  split; [intros; by apply Stand_nobody|].
  intros calls Hcalls. rewrite (run_stalled g' Hstall calls Hcalls). done.
Qed.

Lemma first_seat_blackjack_stalls_witness :
  let g' := (Start 6 table_before_blackjack).2 in
  run [(7, OpStand "p1"); (8, OpHit "p1"); (9, OpHit "p2")] g' = g'
  /\ Status g' = InProgress.
Proof.
  intros g'.
  assert (Hreach : reachable table_before_blackjack).
  { unfold table_before_blackjack. apply reachable_run; [|done]. constructor. }
  destruct (first_seat_blackjack_stalls table_before_blackjack 6
    (Player.mk "p1" "Ann" [up Hearts Ace; up Hearts King] 21
               PlayerBlackjack 10 990 true) Hreach)
    as (_ & _ & _ & Hst & _ & _ & Hrun).
  - vm_compute. reflexivity.
  - vm_compute. reflexivity.
  - vm_compute. reflexivity.
  - split; [|exact Hst].
    apply Hrun. repeat constructor.
Defined.

End FirstSeatBlackjack.

(** ** The cards of a round *)

Section Cards.

(** C3, at a table of 26.  The initial deal takes 54 cards from a deck of
    52: [DealInitialCards] discards the failure flag of [DrawCard], so the
    dealer's hand is made of two blank cards and the cards of the game are
    no longer the 52-card set. *)
Theorem crowded_round_blank_cards :
  reachable crowded_table /\
  (Start 4 crowded_table).1 = true /\
  Status crowded_round = InProgress /\
  length (Players crowded_round) = 26%nat /\
  Deck.Cards (Deck crowded_round) = [] /\
  Dealer.Hand (Dealer crowded_round)
    = [Card.mk "" "" 0 true; Card.mk "" "" 0 false] /\
  length (all_cards crowded_round) = 54%nat /\
  ~ conserves_cards crowded_round.
Proof.
  split.
  { unfold crowded_table. apply reachable_run; [|done]. constructor. }
  assert (Hlen : length (all_cards crowded_round) = 54%nat)
    by (vm_compute; reflexivity).
  repeat split; try (vm_compute; reflexivity).
  intros Hperm. apply Permutation_length in Hperm.
  rewrite length_fmap, Hlen in Hperm. vm_compute in Hperm. discriminate.
Qed.

Lemma card_id_set_Face b c : card_id (Card.set_Face b c) = card_id c.
Proof. done. Qed.

Lemma card_id_faces b (cards : list Card.t) :
  card_id <$> (Card.set_Face b <$> cards) = card_id <$> cards.
Proof. rewrite <- list_fmap_compose. by apply list_fmap_ext. Qed.

Lemma hands_cons p players : hands (p :: players) = Player.Hand p ++ hands players.
Proof. done. Qed.

Lemma hands_insert players : forall i p q extra,
  players !! i = Some p ->
  Player.Hand q = Player.Hand p ++ extra ->
  hands (<[i := q]> players) ≡ₚ hands players ++ extra.
Proof.
  induction players as [|a players IH]; intros [|i] p q extra Hp Hq;
    simplify_eq/=.
  - rewrite !hands_cons, Hq, <- !app_assoc.
    apply Permutation_app_head, Permutation_app_comm.
  - rewrite !hands_cons, (IH i p q extra Hp Hq). by rewrite app_assoc.
Qed.

Lemma hands_insert_same players i p q :
  players !! i = Some p -> Player.Hand q = Player.Hand p ->
  hands (<[i := q]> players) ≡ₚ hands players.
Proof.
  intros Hp Hq. rewrite (hands_insert players i p q []); [|done|].
  - by rewrite app_nil_r.
  - by rewrite app_nil_r.
Qed.

Lemma hands_settle dealer players :
  hands (settle dealer <$> players) = hands players.
Proof.
  induction players as [|p players IH]; [done|].
  csimpl. rewrite !hands_cons, IH. f_equal.
  unfold settle. by repeat case_match.
Qed.

Lemma same_cards_parts g1 g2 :
  card_id <$> Deck.Cards (Deck g1) ++ Dealer.Hand (Dealer g1)
    ≡ₚ card_id <$> Deck.Cards (Deck g2) ++ Dealer.Hand (Dealer g2) ->
  hands (Players g1) ≡ₚ hands (Players g2) ->
  same_cards g1 g2.
Proof.
  unfold same_cards, all_cards. intros Hdeck Hhands.
  rewrite !fmap_app in *. rewrite Hhands.
  rewrite !(Permutation_app_comm (card_id <$> hands (Players g2))).
  by rewrite !app_assoc, Hdeck.
Qed.

Lemma DealerTurn_same_cards now g : same_cards (DealerTurn now g) g.
Proof.
  unfold DealerTurn.
  destruct (dealer_draws_spec (Deck.Cards (Deck g))
              (Card.set_Face true <$> Dealer.Hand (Dealer g)))
    as (k & _ & -> & _).
  apply same_cards_parts.
  - cbn. rewrite !fmap_app, !card_id_faces.
    assert (Hsplit : card_id <$> Deck.Cards (Deck g)
              = (card_id <$> take k (Deck.Cards (Deck g)))
                ++ (card_id <$> drop k (Deck.Cards (Deck g)))).
    { by rewrite <- fmap_app, take_drop. }
    rewrite Hsplit.
    rewrite (Permutation_app_comm (card_id <$> take k _)
               (card_id <$> drop k _)).
    rewrite <- !app_assoc. apply Permutation_app_head.
    apply Permutation_app_comm.
  - cbn [Players set_UpdatedAt set_Status DetermineWinners set_Players
         set_Deck set_Dealer Dealer].
    by rewrite hands_settle.
Qed.

Lemma give_turn_same_cards j g : same_cards (give_turn j g) g.
Proof.
  unfold give_turn. apply same_cards_parts; [done|].
  cbn [Players update_player set_Players set_CurrentPlayerIndex].
  destruct (Players g !! j) as [p|] eqn:Hp.
  - rewrite (alter_insert _ _ _ p Hp). by apply (hands_insert_same _ j p).
  - assert (alter (Player.set_IsActive true) j (Players g) = Players g) as ->;
      [|done].
    apply list_eq. intros i. destruct (decide (j = i)) as [<-|Hne].
    + by rewrite list_lookup_alter_eq, Hp.
    + by rewrite list_lookup_alter_ne.
Qed.

Lemma same_cards_refl g : same_cards g g.
Proof. by unfold same_cards. Qed.

Lemma same_cards_trans g1 g2 g3 :
  same_cards g1 g2 -> same_cards g2 g3 -> same_cards g1 g3.
Proof. unfold same_cards. by intros ->. Qed.

Lemma same_cards_UpdatedAt now g : same_cards (set_UpdatedAt now g) g.
Proof. by unfold same_cards. Qed.

Lemma NextPlayer_same_cards now g : same_cards (NextPlayer now g) g.
Proof.
  destruct (NextPlayer_cases now g) as [->|[(j & p & _ & _ & ->)| ->]].
  - apply same_cards_refl.
  - apply give_turn_same_cards.
  - apply DealerTurn_same_cards.
Qed.

Lemma Hit_same_cards now g playerID : same_cards (Hit now g playerID).2 g.
Proof.
  destruct (Hit_cases now g playerID)
    as [->|(i & p & card & rest & _ & _ & Hp & _ & Hdeck & ->)];
    [apply same_cards_refl|].
  cbn [snd]. eapply same_cards_trans; [apply same_cards_UpdatedAt|].
  assert (Hmove : forall q,
    Player.Hand q = Player.Hand p ++ [Card.set_Face true card] ->
    same_cards (set_Players (<[i := q]> (Players g))
                  (set_Deck (Deck.mk rest) g)) g).
  { intros q Hq. unfold same_cards, all_cards.
    cbn [Players Deck Dealer set_Players set_Deck Deck.Cards].
    rewrite (hands_insert _ i p q _ Hp Hq), Hdeck.
    rewrite !fmap_app, !fmap_cons, card_id_set_Face. simpl.
    rewrite <- (app_assoc (card_id <$> hands (Players g)) [card_id card]).
    simpl. rewrite app_assoc, <- Permutation_middle.
    by rewrite <- app_assoc. }
  destruct (_ <? _).
  - eapply same_cards_trans; [apply NextPlayer_same_cards|].
    by apply Hmove.
  - by apply Hmove.
Qed.

Lemma Stand_same_cards now g playerID : same_cards (Stand now g playerID).2 g.
Proof.
  destruct (Stand_cases now g playerID)
    as [->|(i & p & _ & _ & Hp & _ & ->)]; [apply same_cards_refl|].
  cbn [snd]. eapply same_cards_trans; [apply same_cards_UpdatedAt|].
  eapply same_cards_trans; [apply NextPlayer_same_cards|].
  apply same_cards_parts; [done|].
  by apply (hands_insert_same _ i p).
Qed.

Lemma deal_player_covered c1 c2 cards p :
  (deal_player (Deck.mk (c1 :: c2 :: cards)) p).1 = Deck.mk cards /\
  Player.Hand (deal_player (Deck.mk (c1 :: c2 :: cards)) p).2
  = Player.Hand p ++ [Card.set_Face true c1; Card.set_Face true c2].
Proof.
  unfold deal_player, DrawCard. cbn.
  destruct (_ =? 21); cbn; by rewrite <- app_assoc.
Qed.

(** The player loop of the initial deal on a deck that covers it. *)
Lemma deal_players_covered players : forall cards,
  (2 * length players <= length cards)%nat ->
  (deal_players (Deck.mk cards) players).1
    = Deck.mk (drop (2 * length players) cards) /\
  card_id <$> hands (deal_players (Deck.mk cards) players).2
    ≡ₚ (card_id <$> hands players)
       ++ (card_id <$> take (2 * length players) cards).
Proof.
  induction players as [|p players IH]; intros cards Hlen; [done|].
  destruct cards as [|c1 [|c2 cards]]; [simpl in Hlen; lia..|].
  cbn [deal_players].
  destruct (deal_player_covered c1 c2 cards p) as [Hd Hh].
  destruct (deal_player (Deck.mk (c1 :: c2 :: cards)) p) as [deck1 p'].
  cbn [fst snd] in Hd, Hh. subst deck1.
  destruct (IH cards) as [Hdeck Hhands]; [simpl in Hlen; lia|].
  destruct (deal_players (Deck.mk cards) players) as [deck2 players'].
  cbn [fst snd] in *.
  replace (2 * length (p :: players))%nat
    with (S (S (2 * length players))) by (simpl; lia).
  split; [done|].
  rewrite !hands_cons, !fmap_app, Hhands, Hh, fmap_app.
  cbn [take fmap list_fmap]. rewrite !card_id_set_Face.
  rewrite <- !app_assoc. apply Permutation_app_head.
  change (card_id c1 :: card_id c2 :: (card_id <$> take (2 * length players) cards))
    with ([card_id c1; card_id c2] ++ (card_id <$> take (2 * length players) cards)).
  rewrite !app_assoc. apply Permutation_app_tail, Permutation_app_comm.
Qed.

(** The initial deal on a deck that covers it moves cards from the deck
    to the hands and loses none. *)
Lemma DealInitialCards_same_cards g :
  (2 * length (Players g) + 2 <= length (Deck.Cards (Deck g)))%nat ->
  same_cards (DealInitialCards g) g.
Proof.
  intros Hlen. unfold DealInitialCards.
  destruct (Deck g) as [cards] eqn:Hdeck. cbn [Deck.Cards] in Hlen.
  destruct (deal_players_covered (Players g) cards) as [Hd Hh]; [lia|].
  destruct (deal_players (Deck.mk cards) (Players g)) as [deck1 players].
  cbn [fst snd] in Hd, Hh. subst deck1.
  set (n := (2 * length (Players g))%nat) in *.
  assert (Hsplit : cards = take n cards ++ drop n cards)
    by by rewrite take_drop.
  destruct (drop n cards) as [|d1 [|d2 rest]] eqn:Hdrop.
  { apply (f_equal length) in Hdrop. rewrite length_drop in Hdrop.
    simpl in Hdrop. lia. }
  { apply (f_equal length) in Hdrop. rewrite length_drop in Hdrop.
    simpl in Hdrop. lia. }
  unfold DrawCard. cbn [Deck.Cards].
  unfold same_cards, all_cards.
  cbn [Players Deck Dealer set_Players set_Deck set_Dealer Deck.Cards
       Dealer.Hand].
  rewrite Hdeck. cbn [Deck.Cards].
  rewrite !fmap_app, Hh. rewrite Hsplit at 2. rewrite fmap_app.
  cbn [fmap list_fmap]. rewrite !card_id_set_Face.
  set (T := card_id <$> take n cards).
  set (R := card_id <$> rest).
  set (H := card_id <$> hands (Players g)).
  set (D := card_id <$> Dealer.Hand (Dealer g)).
  change (list_fmap _ _ card_id rest) with R.
  rewrite <- !app_assoc. simpl.
  rewrite (app_assoc R H), (Permutation_app_swap_app (R ++ H) T).
  apply Permutation_app_head.
  rewrite (app_assoc (R ++ H) D), (Permutation_app_comm ((R ++ H) ++ D)).
  simpl. by rewrite <- !app_assoc.
Qed.

Lemma Start_same_cards now g :
  (2 * length (Players g) + 2 <= length (Deck.Cards (Deck g)))%nat ->
  same_cards (Start now g).2 g.
Proof.
  intros Hlen.
  destruct (Start_cases now g) as [->|(_ & _ & _ & ->)];
    [apply same_cards_refl|].
  cbn [snd]. eapply same_cards_trans; [apply give_turn_same_cards|].
  eapply same_cards_trans; [|by apply DealInitialCards_same_cards].
  by unfold same_cards.
Qed.

Lemma hands_empty players :
  Forall (fun p => Player.Hand p = []) players -> hands players = [].
Proof.
  induction 1 as [|p players Hp _ IH]; [done|].
  by rewrite hands_cons, Hp, IH.
Qed.

Lemma fresh_table_conserves g :
  fresh_table g ->
  conserves_cards g /\ length (Deck.Cards (Deck g)) = 52%nat.
Proof.
  intros (Hdeck & Hdealer & Hhands). split.
  - unfold conserves_cards, all_cards.
    by rewrite (hands_empty _ Hhands), Hdealer, !app_nil_r.
  - apply Permutation_length in Hdeck. by rewrite length_fmap in Hdeck.
Qed.

Lemma conserves_same_cards g1 g2 :
  same_cards g1 g2 -> conserves_cards g2 -> conserves_cards g1.
Proof. unfold same_cards, conserves_cards. by intros ->. Qed.

(** Where the deal is covered.  In every state reached by engine
    calls that start a round with at most 25 seats and remove no seat
    while it is in progress, the cards of a round in progress (deck,
    hands of the seats, dealer's hand) are the 52 cards, each once; and
    [Hit] and [Stand], with the dealer turn and the settlement they may
    bring about, move cards without adding or losing any. *)
Lemma round_conserves_cards :
  (forall g, reachable_by covered_deal g ->
             Status g = InProgress -> conserves_cards g) /\
  (forall now g playerID, same_cards (Hit now g playerID).2 g) /\
  (forall now g playerID, same_cards (Stand now g playerID).2 g) /\
  (forall now g, same_cards (DealerTurn now g) g).
Proof.
  split; [|split; [|split]];
    [|exact Hit_same_cards|exact Stand_same_cards|exact DealerTurn_same_cards].
  induction 1 as [id rnd now tableID minBet maxBet|g now op Hreach IH Hok];
    [done|].
  pose proof (between_rounds _ _ Hreach) as [Hfresh _].
  destruct Hok as [Hkeep Hcover].
  destruct op as [playerID playerName initialBalance|playerID|playerID amount
                 | |playerID|playerID|rnd| ]; cbn [exec].
  - destruct (AddPlayer_cases now g playerID playerName initialBalance)
      as [->|(Hst & [(i & p & Hp & ->)|(p & Hhand & Hact & ->)])]; [done|..];
      intros Hst'; cbn in Hst'; congruence.
  - destruct (RemovePlayer_cases now g playerID) as [->|(i & ->)]; [done|].
    intros Hst'. cbn in Hst'. by destruct (Hkeep playerID eq_refl).
  - destruct (PlaceBet_cases now g playerID amount)
      as [->|(i & p & q & Hp & Hhand & Hact & ->)]; [done|].
    intros Hst'. cbn in Hst'.
    apply (conserves_same_cards _ g); [|by apply IH].
    apply same_cards_parts; [done|]. by apply (hands_insert_same _ i p).
  - destruct (Start_status now g) as [->|[Hst _]]; [done|]. intros _.
    destruct (fresh_table_conserves g) as [Hcons Hlen]; [by auto|].
    apply (conserves_same_cards _ g); [|done].
    apply Start_same_cards. rewrite Hlen. by apply Hcover.
  - destruct (Hit_status now g playerID) as [->|[Hst _]]; [done|]. intros _.
    apply (conserves_same_cards _ g); [apply Hit_same_cards|by apply IH].
  - destruct (Stand_status now g playerID) as [->|[Hst _]]; [done|]. intros _.
    apply (conserves_same_cards _ g); [apply Stand_same_cards|by apply IH].
  - done.
  - unfold CloseIdleTable. destruct (_ =? _)%nat; [|done].
    intros Hst'. cbn in Hst'. congruence.
Qed.

End Cards.

(** * Further properties of the engine *)

(** ** More on hand scoring *)

Section ScoringMore.

(** X1.  The score lies between the total with every ace as 1 and the
    total with every ace as 11; it is above 21 exactly when the hand is
    above 21 even with every ace as 1; and no other way of counting the
    aces gives a higher total within 21. *)
Theorem CalculateHandScore_best (hand : list Card.t) :
  hard_total hand <= CalculateHandScore hand <= hand_total hand /\
  (21 < CalculateHandScore hand <-> 21 < hard_total hand) /\
  (forall j : nat, (j <= aces_in hand)%nat ->
     hand_total hand - 10 * Z.of_nat j <= 21 ->
     hand_total hand - 10 * Z.of_nat j <= CalculateHandScore hand).
Proof.
  unfold hard_total, CalculateHandScore. rewrite count_hand_spec.
  destruct (convert_aces_spec (aces_in hand) (hand_total hand))
    as (k & Hk & -> & Hwhile & Hstop).
  split; [lia|]. split.
  - split; intros Hgt; [|lia].
    destruct (decide (k < aces_in hand)%nat) as [Hlt|Hge]; [|
      replace k with (aces_in hand) in * by lia; lia].
    specialize (Hstop Hlt). lia.
  - intros j Hj Hok.
    destruct (decide (j < k)%nat) as [Hlt|Hge]; [|lia].
    specialize (Hwhile j Hlt). lia.
Qed.

Lemma hand_total_Permutation h1 h2 : h1 ≡ₚ h2 -> hand_total h1 = hand_total h2.
Proof.
  induction 1 as [|c h1 h2 _ IH|c1 c2 h|h1 h2 h3 _ IH1 _ IH2]; simpl; lia.
Qed.

Lemma aces_in_Permutation h1 h2 : h1 ≡ₚ h2 -> aces_in h1 = aces_in h2.
Proof. unfold aces_in. by intros ->. Qed.

(** X2.  The score does not depend on the order of the cards. *)
Theorem CalculateHandScore_Permutation (h1 h2 : list Card.t) :
  h1 ≡ₚ h2 -> CalculateHandScore h1 = CalculateHandScore h2.
Proof.
  intros Hperm. unfold CalculateHandScore. rewrite !count_hand_spec.
  by rewrite (hand_total_Permutation h1 h2), (aces_in_Permutation h1 h2).
Qed.

Lemma CalculateHandScore_Permutation_witness :
  CalculateHandScore [up Clubs Nine; up Spades Ace; up Hearts Ace]
  = CalculateHandScore [up Spades Ace; up Hearts Ace; up Clubs Nine].
Proof.
  apply CalculateHandScore_Permutation.
  change ([up Clubs Nine] ++ [up Spades Ace; up Hearts Ace]
          ≡ₚ [up Spades Ace; up Hearts Ace] ++ [up Clubs Nine]).
  apply Permutation_app_comm.
Defined.

End ScoringMore.

(** ** More on the deck *)

Section DeckMore.

Lemma swap_length i j cards : length (swap i j cards) = length cards.
Proof.
  unfold swap. destruct (cards !! i), (cards !! j); try done.
  by rewrite !length_insert.
Qed.

(** X3.  [Shuffle] rearranges the deck: whatever the random source, the
    result holds the same cards the same number of times, so its length is
    unchanged and a deck without duplicates stays without duplicates. *)
Theorem Shuffle_rearranges rnd d :
  Deck.Cards (Shuffle rnd d) ≡ₚ Deck.Cards d /\
  RemainingCards (Shuffle rnd d) = RemainingCards d /\
  (NoDup (Deck.Cards d) -> NoDup (Deck.Cards (Shuffle rnd d))) /\
  (forall c, c ∈ Deck.Cards (Shuffle rnd d) <-> c ∈ Deck.Cards d).
Proof.
  pose proof (Shuffle_Permutation rnd d) as Hperm.
  split; [done|]. split; [|split].
  - unfold RemainingCards. by rewrite Hperm.
  - by rewrite Hperm.
  - intros c. by rewrite Hperm.
Qed.

End DeckMore.

(** ** Leaving a table *)

Section Leaving.

(** X4.  [RemovePlayer] fails, leaving the game as it was, when the id is
    not seated.  Otherwise it removes the first seat with that id and
    nothing else: the seats before it stay where they are, the seats after
    it move up by one, and status, deck, dealer, turn index and the
    balances of the remaining seats are untouched (the removed seat's bet
    is not refunded to anyone). *)
Theorem RemovePlayer_spec now g playerID :
  (seat_of g playerID = None -> RemovePlayer now g playerID = (false, g)) /\
  (forall i, seat_of g playerID = Some i ->
     RemovePlayer now g playerID
     = (true, set_UpdatedAt now (set_Players (delete i (Players g)) g)) /\
     S (length (Players (RemovePlayer now g playerID).2)) = length (Players g) /\
     (forall j, (j < i)%nat ->
        Players (RemovePlayer now g playerID).2 !! j = Players g !! j) /\
     (forall j, (i <= j)%nat ->
        Players (RemovePlayer now g playerID).2 !! j = Players g !! S j)).
Proof.
  unfold RemovePlayer. fold (seat_of g playerID). split.
  - by intros ->.
  - intros i Hi. rewrite Hi. rewrite <- delete_take_drop.
    pose proof (first_index_lt _ _ _ Hi) as Hlt.
    cbn [snd Players set_Players set_UpdatedAt].
    split; [done|]. split; [|split].
    + rewrite length_delete.
      * lia.
      * by apply lookup_lt_is_Some.
    + intros j Hj. by apply list_lookup_delete_lt.
    + intros j Hj. by apply list_lookup_delete_ge.
Qed.

Lemma RemovePlayer_spec_witness :
  RemovePlayer 7 round_of_two "p1"
  = (true, set_UpdatedAt 7
             (set_Players (delete O (Players round_of_two)) round_of_two)).
Proof.
  destruct (RemovePlayer_spec 7 round_of_two "p1") as [_ Hseated].
  destruct (Hseated O) as [Heq _]; [reflexivity|exact Heq].
Defined.

End Leaving.

(** ** Starting a round *)

Section Starting.

Lemma deal_players_stakes players : forall deck,
  Forall2 same_stake players (deal_players deck players).2.
Proof.
  induction players as [|p players IH]; intros deck; simpl; [constructor|].
  pose proof (deal_player_frame deck p) as (_ & Hid & _ & Hbet & Hbal).
  destruct (deal_player deck p) as [deck1 p'].
  specialize (IH deck1). destruct (deal_players deck1 players).
  by constructor.
Qed.

Lemma same_stake_fmap players players' :
  Forall2 same_stake players players' ->
  Player.ID <$> players' = Player.ID <$> players /\
  Player.Bet <$> players' = Player.Bet <$> players /\
  Player.Balance <$> players' = Player.Balance <$> players.
Proof.
  induction 1 as [|p p' ps ps' (Hid & Hbet & Hbal) _ (IH1 & IH2 & IH3)];
    csimpl; [done|].
  by rewrite Hid, Hbet, Hbal, IH1, IH2, IH3.
Qed.

(** X5.  [Start] succeeds exactly when the game is in Betting, at least
    one player is seated and no seat has a bet of zero; it then deals,
    puts the game in progress and gives the turn to the first seat, with
    every id, bet and balance as before.  When it fails the game is left
    as it was. *)
Theorem Start_guard now g :
  ((Start now g).1 = true <->
     Status g = Betting /\ Players g <> [] /\
     Forall (fun p => Player.Bet p <> 0) (Players g)) /\
  ((Start now g).1 = false -> (Start now g).2 = g) /\
  ((Start now g).1 = true ->
     let g' := (Start now g).2 in
     Status g' = InProgress /\ CurrentPlayerIndex g' = O /\
     UpdatedAt g' = now /\
     seat_ids g' = seat_ids g /\
     Player.Bet <$> Players g' = Player.Bet <$> Players g /\
     Player.Balance <$> Players g' = Player.Balance <$> Players g /\
     exists p0, Players g' !! O = Some p0 /\ Player.IsActive p0 = true).
Proof.
  destruct (Start_cases now g) as [E|(Hst & Hne & Hbets & E)].
  - split; [|rewrite E; done]. split; [by rewrite E|].
    intros (Hst & Hne & Hbets). exfalso.
    unfold Start in E.
    apply GameStatus_eqb_eq in Hst. rewrite Hst in E. cbn in E.
    destruct (Nat.eqb_spec (length (Players g)) 0) as [Hlen|_].
    { destruct (Players g); done. }
    destruct (existsb _ _) eqn:Hex; [|done].
    apply existsb_exists in Hex as (p & Hp & Hzero).
    apply list_elem_of_In in Hp. rewrite Forall_forall in Hbets.
    apply Z.eqb_eq in Hzero. by destruct (Hbets p Hp).
  - rewrite E. cbn [fst snd].
    split; [done|]. split; [done|]. intros _.
    pose proof (deal_players_stakes (Players g) (Deck g)) as Hframe.
    rewrite <- DealInitialCards_players in Hframe.
    unfold seat_ids, update_player.
    cbn [Players Status CurrentPlayerIndex UpdatedAt set_Players
         set_CurrentPlayerIndex set_UpdatedAt set_Status].
    destruct (Players (DealInitialCards g)) as [|q0 qs] eqn:Hdealt.
    { apply Forall2_length in Hframe. destruct (Players g); done. }
    cbn [alter list_alter].
    assert (Hframe' : Forall2 same_stake (Players g)
                        (Player.set_IsActive true q0 :: qs)).
    { inversion Hframe as [|p p' ps ps' Hp Hps]; subst.
      constructor; [|done]. by destruct q0. }
    apply same_stake_fmap in Hframe' as (H1 & H2 & H3).
    do 3 (split; [done|]). do 3 (split; [done|]).
    eexists. split; [done|]. by destruct q0.
Qed.

Lemma Start_guard_witness :
  Status (Start 6 table_open).2 = Betting /\
  Status (Start 6 table_before_blackjack).2 = InProgress.
Proof.
  split.
  - destruct (Start_guard 6 table_open) as (_ & Hfail & _).
    rewrite Hfail; reflexivity.
  - destruct (Start_guard 6 table_before_blackjack) as (_ & _ & Hok).
    apply Hok. reflexivity.
Defined.

Lemma deal_player_two c1 c2 cards p :
  deal_player (Deck.mk (c1 :: c2 :: cards)) p
  = (Deck.mk cards, seat_dealt c1 c2 p).
Proof.
  unfold deal_player, DrawCard, seat_dealt. cbn.
  rewrite <- !app_assoc. cbn. by destruct (_ =? 21).
Qed.

Lemma deal_players_order players : forall cards,
  (2 * length players <= length cards)%nat ->
  (deal_players (Deck.mk cards) players).1
    = Deck.mk (drop (2 * length players) cards) /\
  forall i p, players !! i = Some p ->
    exists c1 c2,
      cards !! (2 * i)%nat = Some c1 /\ cards !! (2 * i + 1)%nat = Some c2 /\
      (deal_players (Deck.mk cards) players).2 !! i = Some (seat_dealt c1 c2 p).
Proof.
  induction players as [|q players IH]; intros cards Hlen.
  { split; [done|]. intros i p Hp. by rewrite lookup_nil in Hp. }
  destruct cards as [|c1 [|c2 cards]]; [simpl in Hlen; lia..|].
  cbn [deal_players]. rewrite deal_player_two.
  destruct (IH cards) as [Hdeck Hseats]; [simpl in Hlen; lia|].
  destruct (deal_players (Deck.mk cards) players) as [deck2 players'].
  cbn [fst snd] in *.
  replace (2 * length (q :: players))%nat
    with (S (S (2 * length players))) by (simpl; lia).
  split; [done|].
  intros [|i] p Hp.
  - injection Hp as ->. by exists c1, c2.
  - destruct (Hseats i p Hp) as (d1 & d2 & H1 & H2 & H3).
    exists d1, d2.
    replace (2 * S i)%nat with (S (S (2 * i))) by lia.
    replace (S (S (2 * i)) + 1)%nat with (S (S (2 * i + 1))) by lia.
    done.
Qed.

(** X6.  On a deck that covers the initial deal, [DealInitialCards] deals
    from the top in seating order: seat [i] receives the cards at
    positions [2i] and [2i+1], both face up, is scored on its whole hand
    and is flagged Blackjack on a score of 21; the dealer then receives
    the next two cards, the first face up and the second face down, and
    the dealer's score counts the first of them only; the deck loses
    exactly these cards. *)
Theorem DealInitialCards_order g :
  let cards := Deck.Cards (Deck g) in
  let n := length (Players g) in
  (2 * n + 2 <= length cards)%nat ->
  let g' := DealInitialCards g in
  (forall i p, Players g !! i = Some p ->
     exists c1 c2,
       cards !! (2 * i)%nat = Some c1 /\ cards !! (2 * i + 1)%nat = Some c2 /\
       Players g' !! i = Some (seat_dealt c1 c2 p)) /\
  length (Players g') = n /\
  (exists d1 d2,
     cards !! (2 * n)%nat = Some d1 /\ cards !! (2 * n + 1)%nat = Some d2 /\
     Dealer g'
     = Dealer.mk (Dealer.Hand (Dealer g)
                  ++ [Card.set_Face true d1; Card.set_Face false d2])
                 (GetValue d1)) /\
  Deck.Cards (Deck g') = drop (2 * n + 2) cards.
Proof.
  intros cards n Hlen g'. subst g'. unfold DealInitialCards.
  pose proof (deal_players_length (Players g) (Deck g)) as Hlength.
  destruct (Deck g) as [cards'] eqn:Hdeck. cbn [Deck.Cards] in cards.
  subst cards.
  destruct (deal_players_order (Players g) cards') as [Hd Hseats]; [lia|].
  destruct (deal_players (Deck.mk cards') (Players g)) as [deck1 players].
  cbn [fst snd] in Hd, Hseats, Hlength. subst deck1. fold n.
  assert (Hsplit : drop (2 * n) cards' !! O = cards' !! (2 * n)%nat /\
                   drop (2 * n) cards' !! 1%nat = cards' !! (2 * n + 1)%nat).
  { rewrite !lookup_drop. split; f_equal; lia. }
  destruct Hsplit as [H0 H1].
  assert (Hrest : drop 2 (drop (2 * n) cards') = drop (2 * n + 2) cards').
  { rewrite drop_drop. f_equal. }
  destruct (drop (2 * n) cards') as [|d1 [|d2 rest]] eqn:Hdrop.
  { apply (f_equal length) in Hdrop. rewrite length_drop in Hdrop.
    simpl in Hdrop. lia. }
  { apply (f_equal length) in Hdrop. rewrite length_drop in Hdrop.
    simpl in Hdrop. lia. }
  unfold DrawCard. cbn [Deck.Cards].
  cbn [Players Deck Dealer set_Players set_Deck set_Dealer Deck.Cards].
  split; [exact Hseats|]. split; [done|]. split.
  - exists d1, d2. rewrite <- H0, <- H1. split; [done|]. split; [done|].
    by rewrite <- app_assoc.
  - by rewrite <- Hrest.
Qed.

Lemma DealInitialCards_order_witness :
  Dealer (DealInitialCards table_before_blackjack)
  = Dealer.mk [Card.mk Hearts Five 0 true; Card.mk Hearts Six 0 false] 5.
Proof.
  destruct (DealInitialCards_order table_before_blackjack)
    as (_ & _ & (d1 & d2 & H1 & H2 & Hdealer) & _).
  - vm_compute. lia.
  - rewrite Hdealer.
    vm_compute in H1. injection H1 as <-.
    vm_compute in H2. injection H2 as <-.
    reflexivity.
Defined.

End Starting.


(** ** Seats and their ids *)

Section SeatIds.

Lemma ids_alter (f : Player.t -> Player.t) i (players : list Player.t) :
  (forall p, Player.ID (f p) = Player.ID p) ->
  Player.ID <$> alter f i players = Player.ID <$> players.
Proof.
  intros Hf. revert i.
  induction players as [|p players IH]; intros [|i]; csimpl; try done.
  - by rewrite Hf.
  - by rewrite IH.
Qed.

Lemma ids_insert (players : list Player.t) i p q :
  players !! i = Some p -> Player.ID q = Player.ID p ->
  Player.ID <$> <[i := q]> players = Player.ID <$> players.
Proof.
  intros Hp Hid. rewrite list_fmap_insert, Hid.
  apply list_insert_id. by rewrite list_lookup_fmap, Hp.
Qed.

Lemma settle_ID dealer p : Player.ID (settle dealer p) = Player.ID p.
Proof. unfold settle. by repeat case_match. Qed.

Lemma DealerTurn_players now g :
  exists dealer, Players (DealerTurn now g) = settle dealer <$> Players g.
Proof.
  unfold DealerTurn. destruct (dealer_draws _ _) as [cards dealer'].
  by exists dealer'.
Qed.

Lemma DealerTurn_seat_ids now g : seat_ids (DealerTurn now g) = seat_ids g.
Proof.
  unfold seat_ids. destruct (DealerTurn_players now g) as [dealer ->].
  rewrite <- list_fmap_compose. apply list_fmap_ext.
  intros i p _. apply settle_ID.
Qed.

Lemma give_turn_seat_ids j g : seat_ids (give_turn j g) = seat_ids g.
Proof. unfold give_turn, seat_ids, update_player. by apply ids_alter. Qed.

Lemma NextPlayer_seat_ids now g : seat_ids (NextPlayer now g) = seat_ids g.
Proof.
  destruct (NextPlayer_cases now g) as [->|[(j & p & _ & _ & ->)| ->]].
  - done.
  - apply give_turn_seat_ids.
  - apply DealerTurn_seat_ids.
Qed.

Lemma Hit_seat_ids now g playerID :
  seat_ids (Hit now g playerID).2 = seat_ids g.
Proof.
  destruct (Hit_cases now g playerID)
    as [->|(i & p & card & rest & _ & _ & Hp & _ & _ & ->)]; [done|].
  cbn [snd]. destruct (_ <? _).
  - change (seat_ids (set_UpdatedAt now ?h)) with (seat_ids h).
    rewrite NextPlayer_seat_ids. unfold seat_ids. cbn [Players set_Players].
    by apply (ids_insert _ _ p).
  - unfold seat_ids. cbn [Players set_Players set_UpdatedAt].
    by apply (ids_insert _ _ p).
Qed.

Lemma Stand_seat_ids now g playerID :
  seat_ids (Stand now g playerID).2 = seat_ids g.
Proof.
  destruct (Stand_cases now g playerID)
    as [->|(i & p & _ & _ & Hp & _ & ->)]; [done|].
  cbn [snd]. change (seat_ids (set_UpdatedAt now ?h)) with (seat_ids h).
  rewrite NextPlayer_seat_ids. unfold seat_ids. cbn [Players set_Players].
  by apply (ids_insert _ _ p).
Qed.

Lemma Start_seat_ids now g : seat_ids (Start now g).2 = seat_ids g.
Proof.
  destruct (Start_cases now g) as [->|(_ & _ & _ & ->)]; [done|].
  cbn [snd]. unfold seat_ids, update_player.
  cbn [Players set_Players set_CurrentPlayerIndex set_UpdatedAt set_Status].
  rewrite ids_alter by done.
  pose proof (deal_players_stakes (Players g) (Deck g)) as Hframe.
  rewrite <- DealInitialCards_players in Hframe.
  by apply same_stake_fmap in Hframe as (-> & _).
Qed.

Lemma PlaceBet_seat_ids now g playerID amount :
  seat_ids (PlaceBet now g playerID amount).2 = seat_ids g.
Proof.
  unfold PlaceBet.
  destruct (negb _); [done|].
  destruct (_ || _); [done|].
  destruct (first_index _ _) as [i|]; [|done].
  destruct (Players g !! i) as [p|] eqn:Hp; [|done].
  destruct (_ <? _); [done|].
  cbn [snd]. unfold seat_ids, update_player.
  cbn [Players set_Players set_UpdatedAt].
  by rewrite !ids_alter.
Qed.

Lemma NoDup_delete_lookup {A} (l : list A) i x :
  NoDup l -> l !! i = Some x -> x ∉ delete i l.
Proof.
  intros Hnd Hx. rewrite delete_take_drop.
  rewrite <- (take_drop_middle l i x Hx) in Hnd.
  apply NoDup_app in Hnd as (_ & Hleft & Hright).
  apply NoDup_cons in Hright as [Hright _].
  intros [Hin|Hin]%elem_of_app; [|done].
  apply (Hleft x Hin). by left.
Qed.

(** How a call changes the ids of the seats: not at all, or it seats a
    new id behind the others, or it removes one seat. *)
Lemma exec_seat_ids now op g :
  seat_ids (exec now op g) = seat_ids g \/
  (exists playerID, (playerID ∉ seat_ids g) /\
     seat_ids (exec now op g) = seat_ids g ++ [playerID]) \/
  (exists i, seat_ids (exec now op g) = delete i (seat_ids g)).
Proof.
  destruct op as [playerID playerName initialBalance|playerID|playerID amount
                 | |playerID|playerID|rnd| ]; cbn [exec].
  - unfold AddPlayer. fold (seat_of g playerID).
    destruct (seat_of g playerID) as [i|] eqn:Hseat.
    + left. destruct (GameStatus_eqb _ _); [|done].
      cbn [snd]. unfold seat_ids, update_player. by apply ids_alter.
    + destruct (GameStatus_eqb _ _); cbn [negb snd]; [|by left].
      right. left. exists playerID. split.
      * intros (p & Hid & Hp)%list_elem_of_fmap.
        rewrite seat_of_None in Hseat. by apply (Hseat p Hp).
      * unfold seat_ids. cbn [Players set_Players set_UpdatedAt].
        by rewrite fmap_app.
  - destruct (RemovePlayer_cases now g playerID) as [->|(i & ->)]; [by left|].
    right. right. exists i. unfold seat_ids.
    cbn [Players set_Players set_UpdatedAt].
    by rewrite fmap_app, fmap_take, fmap_drop, delete_take_drop.
  - left. apply PlaceBet_seat_ids.
  - left. apply Start_seat_ids.
  - left. apply Hit_seat_ids.
  - left. apply Stand_seat_ids.
  - left. unfold seat_ids, PrepareForNextRound.
    cbn [Players set_Players set_UpdatedAt set_Status].
    rewrite <- list_fmap_compose. by apply list_fmap_ext.
  - left. unfold CloseIdleTable. by destruct (_ =? _)%nat.
Qed.

Lemma seat_ids_NoDup allowed g : reachable_by allowed g -> NoDup (seat_ids g).
Proof.
  induction 1 as [id rnd now tableID minBet maxBet|g now op Hreach IH Hok].
  { constructor. }
  destruct (exec_seat_ids now op g)
    as [->|[(playerID & Hnew & ->)|(i & ->)]]; [done|..].
  - apply NoDup_app. split; [done|]. split; [|apply NoDup_singleton].
    intros x Hx ->%list_elem_of_singleton. done.
  - eapply sublist_NoDup; [exact IH|apply sublist_delete].
Qed.

Lemma RemovePlayer_spec_cases now g playerID :
  (seat_of g playerID = None /\ RemovePlayer now g playerID = (false, g)) \/
  (exists i p, Players g !! i = Some p /\ Player.ID p = playerID /\
     RemovePlayer now g playerID
     = (true, set_UpdatedAt now
                (set_Players (take i (Players g) ++ drop (S i) (Players g)) g))).
Proof.
  unfold RemovePlayer. fold (seat_of g playerID).
  destruct (seat_of g playerID) as [i|] eqn:Hseat; [|by left].
  right. apply seat_of_Some in Hseat as (p & Hp & Hid & _). by exists i, p.
Qed.

(** X7.  In every state the engine reaches, whatever the calls, no two
    seats hold the same player id; so a player is seated at most once,
    and once [RemovePlayer] has been called for an id, no seat with that
    id is left at the table. *)
Theorem seats_unique allowed g :
  reachable_by allowed g ->
  NoDup (seat_ids g) /\
  (forall i j p q, Players g !! i = Some p -> Players g !! j = Some q ->
     Player.ID p = Player.ID q -> i = j) /\
  (forall now playerID, playerID ∉ seat_ids (RemovePlayer now g playerID).2).
Proof.
  intros Hreach. pose proof (seat_ids_NoDup _ _ Hreach) as Hnd.
  split; [done|]. split.
  - intros i j p q Hp Hq Hid.
    apply (NoDup_lookup (seat_ids g) i j (Player.ID p)); [done|..];
      unfold seat_ids; rewrite list_lookup_fmap.
    + by rewrite Hp.
    + by rewrite Hq, Hid.
  - intros now playerID.
    destruct (RemovePlayer_spec_cases now g playerID) as [[Hnone ->]|Hsome].
    + cbn [snd]. intros (p & Hid & Hp)%list_elem_of_fmap.
      rewrite seat_of_None in Hnone. by apply (Hnone p Hp).
    + destruct Hsome as (i & p & Hp & Hid & ->). cbn [snd].
      unfold seat_ids. cbn [Players set_Players set_UpdatedAt].
      rewrite fmap_app, fmap_take, fmap_drop, <- delete_take_drop.
      apply NoDup_delete_lookup; [done|].
      by rewrite list_lookup_fmap, Hp, <- Hid.
Qed.

Lemma seats_unique_witness :
  NoDup (seat_ids round_of_two) /\ "p1" ∉ seat_ids game_abandoned.
Proof.
  assert (Hreach : reachable round_of_two).
  { unfold round_of_two. apply reachable_run; [|done]. constructor. }
  destruct (seats_unique _ _ Hreach) as (Hnd & _ & Hgone).
  split; [exact Hnd|exact (Hgone 7 "p1")].
Defined.

End SeatIds.


(** ** The seat whose turn it is *)

Section CurrentSeat.

Lemma active_seats_lookup (players : list Player.t) : forall i p,
  players !! i = Some p -> (flag p <= active_seats players)%nat.
Proof.
  induction players as [|p0 players IH]; intros [|i] p Hp; simplify_eq/=.
  - lia.
  - specialize (IH i p Hp). lia.
Qed.

Lemma active_seats_two (players : list Player.t) : forall i j p q,
  i <> j -> players !! i = Some p -> players !! j = Some q ->
  (flag p + flag q <= active_seats players)%nat.
Proof.
  induction players as [|p0 players IH]; intros [|i] [|j] p q Hne Hp Hq;
    simplify_eq/=.
  - pose proof (active_seats_lookup _ _ _ Hq). lia.
  - pose proof (active_seats_lookup _ _ _ Hp). lia.
  - assert (Hne' : i <> j) by congruence.
    specialize (IH i j p q Hne' Hp Hq). lia.
Qed.

Lemma give_turn_current j g :
  (j < length (Players g))%nat ->
  exists p, Players (give_turn j g) !! CurrentPlayerIndex (give_turn j g) = Some p
            /\ Player.IsActive p = true.
Proof.
  intros Hj. apply lookup_lt_is_Some in Hj as [p Hp].
  exists (Player.set_IsActive true p). split; [|done].
  unfold give_turn, update_player.
  cbn [Players CurrentPlayerIndex set_Players set_CurrentPlayerIndex].
  by rewrite list_lookup_alter_eq, Hp.
Qed.

Lemma NextPlayer_current now g :
  Players g <> [] ->
  Status g = InProgress ->
  Status (NextPlayer now g) = InProgress ->
  exists p, Players (NextPlayer now g) !! CurrentPlayerIndex (NextPlayer now g)
            = Some p /\ Player.IsActive p = true.
Proof.
  intros Hne Hst Hst'.
  assert (Hlen : (0 < length (Players g))%nat).
  { destruct (Players g); [done|simpl; lia]. }
  destruct (NextPlayer_spec now g Hlen) as [(m & Hm & _ & _ & E)|[_ E]].
  - rewrite E. apply give_turn_current. apply Nat.mod_upper_bound. lia.
  - rewrite E, DealerTurn_status in Hst'. done.
Qed.

Lemma insert_current (players : list Player.t) c i p q p0 :
  players !! i = Some p -> Player.IsActive q = Player.IsActive p ->
  players !! c = Some p0 -> Player.IsActive p0 = true ->
  exists p1, <[i := q]> players !! c = Some p1 /\ Player.IsActive p1 = true.
Proof.
  intros Hp Hq Hc Hact. destruct (decide (i = c)) as [->|Hne].
  - exists q. split; [|congruence].
    apply list_lookup_insert_eq. by eapply lookup_lt_Some.
  - exists p0. by rewrite list_lookup_insert_ne.
Qed.

Lemma current_seat_reachable g :
  reachable_by keeps_seats g -> Status g = InProgress ->
  exists p, Players g !! CurrentPlayerIndex g = Some p /\ Player.IsActive p = true.
Proof.
  induction 1 as [id rnd now tableID minBet maxBet|g now op Hreach IH Hok];
    [done|].
  destruct op as [playerID playerName initialBalance|playerID|playerID amount
                 | |playerID|playerID|rnd| ]; cbn [exec].
  - destruct (AddPlayer_cases now g playerID playerName initialBalance)
      as [->|(Hst & [(i & p & Hp & ->)|(p & Hhand & Hact & ->)])]; [done|..];
      intros Hst'; cbn in Hst'; congruence.
  - destruct (RemovePlayer_cases now g playerID) as [->|(i & ->)]; [done|].
    intros Hst'. cbn in Hst'. by destruct (Hok playerID eq_refl).
  - destruct (PlaceBet_cases now g playerID amount)
      as [->|(i & p & q & Hp & Hhand & Hact & ->)]; [done|].
    intros Hst'. cbn in Hst'. destruct (IH Hst') as (p0 & Hp0 & Hact0).
    cbn [Players CurrentPlayerIndex set_Players set_UpdatedAt].
    by apply (insert_current _ _ _ p q p0).
  - destruct (Start_cases now g) as [->|(Hst & Hne & _ & ->)]; [done|].
    intros _. cbn [snd].
    change (update_player 0 (Player.set_IsActive true)
              (set_CurrentPlayerIndex 0 ?h)) with (give_turn 0 h).
    apply give_turn_current.
    cbn [Players set_UpdatedAt set_Status].
    rewrite DealInitialCards_players, deal_players_length.
    destruct (Players g); [done|simpl; lia].
  - destruct (Hit_cases now g playerID)
      as [->|(i & p & card & rest & Hst & _ & Hp & _ & _ & ->)]; [done|].
    cbn [snd]. destruct (IH Hst) as (p0 & Hp0 & Hact0).
    destruct (_ <? _).
    + intros Hst'.
      change (Status (set_UpdatedAt now ?h)) with (Status h) in Hst'.
      change (Players (set_UpdatedAt now ?h)) with (Players h).
      change (CurrentPlayerIndex (set_UpdatedAt now ?h))
        with (CurrentPlayerIndex h).
      apply NextPlayer_current; [|done..].
      cbn [Players set_Players]. intros Hnil.
      apply (f_equal length) in Hnil. rewrite length_insert in Hnil.
      apply lookup_lt_Some in Hp. simpl in Hnil. lia.
    + intros _. cbn [Players CurrentPlayerIndex set_Players set_UpdatedAt
                     set_Deck].
      by apply (insert_current _ _ _ p _ p0).
  - destruct (Stand_cases now g playerID)
      as [->|(i & p & Hst & _ & Hp & _ & ->)]; [done|].
    cbn [snd]. intros Hst'.
    change (Status (set_UpdatedAt now ?h)) with (Status h) in Hst'.
    change (Players (set_UpdatedAt now ?h)) with (Players h).
    change (CurrentPlayerIndex (set_UpdatedAt now ?h))
      with (CurrentPlayerIndex h).
    apply NextPlayer_current; [|done..].
    cbn [Players set_Players]. intros Hnil.
    apply (f_equal length) in Hnil. rewrite length_insert in Hnil.
    apply lookup_lt_Some in Hp. simpl in Hnil. lia.
  - intros Hst'. done.
  - unfold CloseIdleTable. destruct (_ =? _)%nat; [|done].
    intros Hst'. done.
Qed.

(** X8.  While a round is in progress, in every state reached by calls
    that remove no seat during a round, [CurrentPlayerIndex] is the index
    of a seat, that seat has the turn flag, and it is the only seat that
    has it. *)
Theorem current_seat_has_turn g :
  reachable_by keeps_seats g -> Status g = InProgress ->
  exists p,
    Players g !! CurrentPlayerIndex g = Some p /\ Player.IsActive p = true /\
    forall j q, Players g !! j = Some q -> Player.IsActive q = true ->
                j = CurrentPlayerIndex g.
Proof.
  intros Hreach Hst.
  destruct (current_seat_reachable g Hreach Hst) as (p & Hp & Hact).
  exists p. split; [done|]. split; [done|].
  intros j q Hq Hactq.
  destruct (decide (j = CurrentPlayerIndex g)) as [|Hne]; [done|].
  pose proof (turn_invariant_reachable g Hreach Hst) as Hone.
  pose proof (active_seats_two _ _ _ _ _ Hne Hq Hp) as Htwo.
  unfold flag in Htwo. rewrite Hact, Hactq in Htwo. lia.
Qed.

Lemma current_seat_has_turn_witness :
  exists p,
    Players round_of_two !! CurrentPlayerIndex round_of_two = Some p /\
    Player.IsActive p = true /\
    forall j q, Players round_of_two !! j = Some q ->
                Player.IsActive q = true -> j = CurrentPlayerIndex round_of_two.
Proof.
  apply current_seat_has_turn; [|reflexivity].
  unfold round_of_two. cbn [run].
  repeat (apply reachable_call; [|intros ? ?; discriminate]).
  apply reachable_new.
Defined.

End CurrentSeat.

(** ** The phases of a game *)

Section Phases.


End Phases.


(** ** Passing the turn *)

Section PassingTheTurn.

Lemma NextPlayer_outcomes now g :
  Players g <> [] ->
  (exists j p, Players g !! j = Some p /\ Player.Status p = PlayerActive /\
               NextPlayer now g = give_turn j g) \/
  ((forall p, p ∈ Players g -> Player.Status p <> PlayerActive) /\
   NextPlayer now g = DealerTurn now g).
Proof.
  intros Hne.
  assert (Hlen : (0 < length (Players g))%nat).
  { destruct (Players g); [done|simpl; lia]. }
  destruct (NextPlayer_spec now g Hlen) as [(m & Hm & Hact & _ & E)|[Hall E]].
  - left. unfold status_at in Hact.
    destruct (Players g !! _) as [p|] eqn:Hp; [|done].
    eexists _, p. split; [done|]. split; [|done]. by injection Hact.
  - by right.
Qed.

Lemma give_turn_lookup_ne j g k :
  k <> j -> Players (give_turn j g) !! k = Players g !! k.
Proof.
  intros Hne. unfold give_turn, update_player.
  cbn [Players set_Players set_CurrentPlayerIndex].
  by apply list_lookup_alter_ne.
Qed.

Lemma DealerTurn_settles now g :
  Players (DealerTurn now g)
  = settle (Dealer (DealerTurn now g)) <$> Players g.
Proof.
  unfold DealerTurn. by destruct (dealer_draws _ _) as [cards dealer'].
Qed.

(** X10.  [NextPlayer] on a table with seats.  When no seat is Active the
    dealer plays and the round is completed.  Otherwise the turn goes to
    the first Active seat met from the seat after the current one, going
    round the table (back to the current seat itself when it is the only
    Active one): that seat is flagged and becomes the current one, and
    nothing else in the game changes. *)
Theorem NextPlayer_round_robin now g :
  Players g <> [] ->
  let n := length (Players g) in
  let start := ((CurrentPlayerIndex g + 1) mod n)%nat in
  ((forall p, p ∈ Players g -> Player.Status p <> PlayerActive) ->
     NextPlayer now g = DealerTurn now g /\
     Status (NextPlayer now g) = Completed) /\
  (forall m, (m < n)%nat ->
     status_at g ((start + m) mod n) = Some PlayerActive ->
     (forall m', (m' < m)%nat ->
        status_at g ((start + m') mod n) <> Some PlayerActive) ->
     let j := ((start + m) mod n)%nat in
     NextPlayer now g = give_turn j g /\
     CurrentPlayerIndex (NextPlayer now g) = j /\
     Status (NextPlayer now g) = Status g /\
     Deck (NextPlayer now g) = Deck g /\
     Dealer (NextPlayer now g) = Dealer g /\
     (exists p, Players g !! j = Some p /\
        Players (NextPlayer now g) !! j = Some (Player.set_IsActive true p)) /\
     (forall k, k <> j -> Players (NextPlayer now g) !! k = Players g !! k)).
Proof.
  intros Hne n start.
  assert (Hlen : (0 < length (Players g))%nat).
  { destruct (Players g); [done|simpl; lia]. }
  pose proof (NextPlayer_spec now g Hlen) as Hspec.
  cbv zeta in Hspec. fold n in Hspec. fold start in Hspec.
  split.
  - intros Hnone.
    destruct Hspec as [(m & Hm & Hact & _ & _)|[_ E]].
    + unfold status_at in Hact.
      destruct (Players g !! _) as [p|] eqn:Hp; [|done].
      injection Hact as Hact.
      destruct (Hnone p); [by eapply list_elem_of_lookup_2|done].
    + split; [done|]. rewrite E. apply DealerTurn_status.
  - intros m Hm Hact Hfirst j.
    destruct Hspec as [(m0 & Hm0 & Hact0 & Hfirst0 & E)|[Hnone _]].
    + assert (m0 = m) as ->.
      { destruct (Nat.lt_trichotomy m0 m) as [Hlt|[Heq|Hgt]]; [|done|].
        - by destruct (Hfirst m0 Hlt).
        - by destruct (Hfirst0 m Hgt). }
      fold j in E, Hact0. rewrite E.
      split; [done|]. do 4 (split; [done|]).
      split; [|intros k Hk; by apply give_turn_lookup_ne].
      unfold status_at in Hact0.
      destruct (Players g !! j) as [p|] eqn:Hp; [|done].
      exists p. split; [done|].
      unfold give_turn, update_player.
      cbn [Players set_Players set_CurrentPlayerIndex].
      by rewrite list_lookup_alter_eq, Hp.
    + unfold status_at in Hact.
      destruct (Players g !! _) as [p|] eqn:Hp; [|done].
      injection Hact as Hact.
      destruct (Hnone p); [by eapply list_elem_of_lookup_2|done].
Qed.

Lemma NextPlayer_round_robin_witness :
  NextPlayer 7 round_of_two = give_turn 1 round_of_two.
Proof.
  assert (Hne : Players round_of_two <> []) by (vm_compute; discriminate).
  destruct (NextPlayer_round_robin 7 round_of_two Hne) as [_ Hnext].
  destruct (Hnext O) as [E _].
  - vm_compute. lia.
  - vm_compute. reflexivity.
  - intros m' Hm'. lia.
  - vm_compute. vm_compute in E. exact E.
Defined.

Lemma NextPlayer_lookup_done now g i p :
  Players g !! i = Some p -> Player.Status p <> PlayerActive ->
  (Status (NextPlayer now g) = Status g /\
   Deck (NextPlayer now g) = Deck g /\ Dealer (NextPlayer now g) = Dealer g /\
   Players (NextPlayer now g) !! i = Some p) \/
  (Status (NextPlayer now g) = Completed /\
   Players (NextPlayer now g) !! i
   = Some (settle (Dealer (NextPlayer now g)) p)).
Proof.
  intros Hp Hdone.
  destruct (NextPlayer_outcomes now g) as [(j & pj & Hpj & Hact & ->)|[_ ->]].
  - intros Hnil. by rewrite Hnil in Hp.
  - left. do 3 (split; [done|]).
    rewrite give_turn_lookup_ne; [done|]. intros ->. congruence.
  - right. split; [apply DealerTurn_status|].
    by rewrite DealerTurn_settles at 1; rewrite list_lookup_fmap, Hp.
Qed.

End PassingTheTurn.

(** ** A player's move *)

Section Moves.

Lemma Hit_succeeds now g playerID :
  Status g = InProgress -> Deck.Cards (Deck g) <> [] ->
  (exists p, p ∈ Players g /\ may_act playerID p = true) ->
  (Hit now g playerID).1.2 = true.
Proof.
  intros Hst Hdeck (p & Hp & Hact). unfold Hit.
  apply GameStatus_eqb_eq in Hst. rewrite Hst. cbn [negb].
  destruct (first_index _ _) as [i|] eqn:Hi.
  - unfold DrawCard. by destruct (Deck.Cards (Deck g)).
  - rewrite first_index_None in Hi. rewrite (Hi p Hp) in Hact. done.
Qed.

Lemma Stand_succeeds now g playerID :
  Status g = InProgress ->
  (exists p, p ∈ Players g /\ may_act playerID p = true) ->
  (Stand now g playerID).1 = true.
Proof.
  intros Hst (p & Hp & Hact). unfold Stand.
  apply GameStatus_eqb_eq in Hst. rewrite Hst. cbn [negb].
  destruct (first_index _ _) as [i|] eqn:Hi; [done|].
  rewrite first_index_None in Hi. rewrite (Hi p Hp) in Hact. done.
Qed.

Lemma settle_busted dealer p :
  Player.Status p = PlayerBusted -> settle dealer p = p.
Proof. intros Hst. unfold settle. by rewrite Hst. Qed.

(** X11.  [Hit] succeeds exactly in a round in progress, with a card left
    in the deck, for a seat of that id that has the turn flag and is
    Active; a failed call returns the zero card and changes nothing.  A
    successful call returns the top card face up and adds it to the hand
    of the first such seat.  Up to a score of 21 the seat stays Active
    and keeps the turn, at exactly 21 too, and nothing else changes but
    the deck.  Over 21 the seat is Busted and loses the flag, its bet and
    balance are as before even when the round is settled by this call,
    and the round goes on or is completed. *)
Theorem Hit_spec now g playerID :
  let r := Hit now g playerID in
  (r.1.2 = true <->
     Status g = InProgress /\ Deck.Cards (Deck g) <> [] /\
     exists p, p ∈ Players g /\ may_act playerID p = true) /\
  (r.1.2 = false -> r = (Card.zero, false, g)) /\
  (r.1.2 = true ->
     exists i p card rest,
       first_index (may_act playerID) (Players g) = Some i /\
       Players g !! i = Some p /\
       Deck.Cards (Deck g) = card :: rest /\
       r.1.1 = Card.set_Face true card /\
       Player.Hand (dealt card p) = Player.Hand p ++ [Card.set_Face true card] /\
       Player.Score (dealt card p) = CalculateHandScore (Player.Hand (dealt card p)) /\
       (Player.Score (dealt card p) <= 21 ->
          r.2 = set_UpdatedAt now
                  (set_Players (<[i := dealt card p]> (Players g))
                     (set_Deck (Deck.mk rest) g)) /\
          Player.Status (dealt card p) = PlayerActive /\
          Player.IsActive (dealt card p) = true) /\
       (21 < Player.Score (dealt card p) ->
          Players r.2 !! i = Some (retire PlayerBusted (dealt card p)) /\
          (Status r.2 = InProgress \/ Status r.2 = Completed))).
Proof.
  intros r. subst r.
  destruct (Hit_cases now g playerID)
    as [E|(i & p & card & rest & Hst & Hi & Hp & Hact & Hdeck & E)].
  - split; [|by rewrite E]. split.
    + by rewrite E.
    + intros (Hst & Hdeck & Hseat).
      by apply Hit_succeeds.
  - split; [|split; [by rewrite E|]].
    + split; [|by rewrite E]. intros _. split; [done|].
      split; [by rewrite Hdeck|].
      exists p. split; [by eapply list_elem_of_lookup_2|done].
    + intros _. exists i, p, card, rest.
      do 3 (split; [done|]). split; [by rewrite E|].
      do 2 (split; [done|]).
      apply may_act_true in Hact as (_ & Hflag & Hactive).
      rewrite E. cbn [snd]. split.
      * intros Hle. destruct (Z.ltb_spec 21 (Player.Score (dealt card p)));
          [lia|done].
      * intros Hgt. destruct (Z.ltb_spec 21 (Player.Score (dealt card p)));
          [|lia].
        change (Players (set_UpdatedAt now ?h)) with (Players h).
        change (Status (set_UpdatedAt now ?h)) with (Status h).
        set (g1 := set_Players _ _).
        assert (Hseat : Players g1 !! i
                        = Some (retire PlayerBusted (dealt card p))).
        { subst g1. cbn [Players set_Players].
          apply list_lookup_insert_eq. by eapply lookup_lt_Some. }
        destruct (NextPlayer_lookup_done now g1 i _ Hseat)
          as [(Hst' & _ & _ & Hl)|(Hst' & Hl)]; [done|..].
        -- split; [done|]. left. by rewrite Hst'.
        -- split; [|by right]. by rewrite Hl, settle_busted.
Qed.

Lemma Hit_spec_witness :
  (Hit 7 round_of_two "p1").1.1 = Card.mk Hearts Seven 0 true.
Proof.
  destruct (Hit_spec 7 round_of_two "p1") as (_ & _ & Hdone).
  destruct Hdone as (i & p & card & rest & _ & _ & Hdeck & Hcard & _).
  - vm_compute. reflexivity.
  - rewrite Hcard. vm_compute in Hdeck. injection Hdeck as <- _.
    reflexivity.
Defined.

(** X12.  [Stand] succeeds exactly in a round in progress for a seat of
    that id that has the turn flag and is Active; a failed call changes
    nothing.  After a successful call either the round is still in
    progress, with the seat Stood and without the flag and deck and
    dealer as they were, or the round is completed and the seat has been
    settled, as a seat that Stood, against the dealer's final hand. *)
Theorem Stand_spec now g playerID :
  let r := Stand now g playerID in
  (r.1 = true <->
     Status g = InProgress /\
     exists p, p ∈ Players g /\ may_act playerID p = true) /\
  (r.1 = false -> r.2 = g) /\
  (r.1 = true ->
     exists i p,
       first_index (may_act playerID) (Players g) = Some i /\
       Players g !! i = Some p /\
       ((Status r.2 = InProgress /\
         Players r.2 !! i = Some (retire PlayerStood p) /\
         Deck r.2 = Deck g /\ Dealer r.2 = Dealer g) \/
        (Status r.2 = Completed /\
         Players r.2 !! i
         = Some (settle (Dealer r.2) (retire PlayerStood p))))).
Proof.
  intros r. subst r.
  destruct (Stand_cases now g playerID)
    as [E|(i & p & Hst & Hi & Hp & Hact & E)].
  - split; [|by rewrite E]. split.
    + by rewrite E.
    + intros (Hst & Hseat). by apply Stand_succeeds.
  - split; [|split; [by rewrite E|]].
    + split; [|by rewrite E]. intros _. split; [done|].
      exists p. split; [by eapply list_elem_of_lookup_2|done].
    + intros _. exists i, p. do 2 (split; [done|]).
      rewrite E. cbn [snd].
      change (Players (set_UpdatedAt now ?h)) with (Players h).
      change (Status (set_UpdatedAt now ?h)) with (Status h).
      change (Deck (set_UpdatedAt now ?h)) with (Deck h).
      change (Dealer (set_UpdatedAt now ?h)) with (Dealer h).
      set (g1 := set_Players _ _).
      assert (Hseat : Players g1 !! i = Some (retire PlayerStood p)).
      { subst g1. cbn [Players set_Players].
        apply list_lookup_insert_eq. by eapply lookup_lt_Some. }
      destruct (NextPlayer_lookup_done now g1 i _ Hseat)
        as [(Hst' & Hdeck & Hdealer & Hl)|(Hst' & Hl)]; [done|..].
      * left. rewrite Hst', Hdeck, Hdealer. done.
      * right. done.
Qed.

Lemma Stand_spec_witness :
  Status (Stand 7 round_of_two "p1").2 = InProgress.
Proof.
  destruct (Stand_spec 7 round_of_two "p1") as (_ & _ & Hdone).
  destruct Hdone as (i & p & _ & _ & [(Hst & _)|(Hst & _)]).
  - vm_compute. reflexivity.
  - exact Hst.
  - vm_compute in Hst. discriminate.
Defined.

End Moves.


(** ** Betting again *)

Section BettingAgain.

Lemma PlaceBet_accepts now g playerID amount i p :
  Status g = Betting -> MinBet g <= amount <= MaxBet g ->
  seat_of g playerID = Some i -> Players g !! i = Some p ->
  amount <= Player.Balance p ->
  PlaceBet now g playerID amount
  = (true,
     set_UpdatedAt now
       (set_Players
          (<[i := Player.set_Balance (wrap (Player.Balance p - amount))
                    (Player.set_Bet amount p)]> (Players g)) g)).
Proof.
  intros Hst [Hlo Hhi] Hseat Hp Hbal. unfold PlaceBet.
  fold (seat_of g playerID).
  apply GameStatus_eqb_eq in Hst. rewrite Hst. cbn [negb].
  destruct (Z.ltb_spec amount (MinBet g)); [lia|].
  destruct (Z.ltb_spec (MaxBet g) amount); [lia|]. cbn [orb].
  rewrite Hseat, Hp.
  destruct (Z.ltb_spec (Player.Balance p) amount); [lia|].
  unfold update_player, set_UpdatedAt, set_Players. simpl. do 2 f_equal.
  rewrite list_alter_alter_eq. by rewrite (alter_insert _ _ _ p).
Qed.

Lemma PlaceBet_rejects now g playerID amount i p :
  seat_of g playerID = Some i -> Players g !! i = Some p ->
  Player.Balance p < amount ->
  PlaceBet now g playerID amount = (false, g).
Proof.
  intros Hseat Hp Hbal. unfold PlaceBet. fold (seat_of g playerID).
  destruct (negb _); [done|]. destruct (_ || _); [done|].
  rewrite Hseat, Hp.
  by destruct (Z.ltb_spec (Player.Balance p) amount); [|lia].
Qed.

Lemma first_index_fmap {A B} (h : A -> B) (f : B -> bool) (l : list A) :
  first_index (fun x => f (h x)) l = first_index f (h <$> l).
Proof.
  induction l as [|x l IH]; csimpl; [done|]. by rewrite IH.
Qed.

Lemma seat_of_seat_ids g g' playerID :
  seat_ids g' = seat_ids g -> seat_of g' playerID = seat_of g playerID.
Proof.
  intros Hids. unfold seat_of.
  rewrite !(first_index_fmap Player.ID (fun id => String.eqb id playerID)).
  unfold seat_ids in Hids. by rewrite Hids.
Qed.

(** X13.  A seat that bets a second time before the round starts: the
    second amount is checked against the balance left after the first
    bet, so it is refused when it exceeds that, even if it is smaller
    than the first bet; when it is accepted it replaces the first bet and
    is taken from the balance as well, the first amount is not given
    back. *)
Theorem PlaceBet_twice now1 now2 g playerID a1 a2 i p :
  Status g = Betting ->
  seat_of g playerID = Some i -> Players g !! i = Some p ->
  0 <= MinBet g ->
  MinBet g <= a1 <= MaxBet g -> MinBet g <= a2 <= MaxBet g ->
  in_range (Player.Balance p) -> a1 <= Player.Balance p ->
  let g1 := (PlaceBet now1 g playerID a1).2 in
  (Player.Balance p - a1 < a2 ->
     PlaceBet now2 g1 playerID a2 = (false, g1)) /\
  (a2 <= Player.Balance p - a1 ->
     PlaceBet now2 g1 playerID a2
     = (true,
        set_UpdatedAt now2
          (set_Players
             (<[i := Player.set_Balance (Player.Balance p - a1 - a2)
                       (Player.set_Bet a2 p)]> (Players g)) g))).
Proof.
  intros Hst Hseat Hp Hmin H1 H2 Hr Hb1 g1.
  assert (Hlt : (i < length (Players g))%nat) by by eapply lookup_lt_Some.
  assert (Hw1 : wrap (Player.Balance p - a1) = Player.Balance p - a1).
  { apply wrap_in_range. unfold in_range, int_min, int_max in *. lia. }
  assert (E1 : g1 = set_UpdatedAt now1
            (set_Players
               (<[i := Player.set_Balance (Player.Balance p - a1)
                         (Player.set_Bet a1 p)]> (Players g)) g)).
  { subst g1. rewrite (PlaceBet_accepts now1 g playerID a1 i p) by done.
    cbn [snd]. by rewrite Hw1. }
  assert (Hseat1 : seat_of g1 playerID = Some i).
  { rewrite <- Hseat. apply seat_of_seat_ids. apply PlaceBet_seat_ids. }
  assert (Hp1 : Players g1 !! i
                = Some (Player.set_Balance (Player.Balance p - a1)
                          (Player.set_Bet a1 p))).
  { rewrite E1. cbn [Players set_Players set_UpdatedAt].
    by apply list_lookup_insert_eq. }
  split.
  - intros Hover. by apply (PlaceBet_rejects now2 g1 playerID a2 i _ Hseat1 Hp1).
  - intros Hfits.
    rewrite (PlaceBet_accepts now2 g1 playerID a2 i _ ltac:(by rewrite E1)
               ltac:(by rewrite E1) Hseat1 Hp1 Hfits).
    rewrite E1. cbn [Players set_Players set_UpdatedAt].
    rewrite list_insert_insert_eq.
    cbn [Player.Balance Player.set_Balance Player.set_Bet].
    rewrite wrap_in_range; [done|].
    unfold in_range, int_min, int_max in *. lia.
Qed.

Lemma PlaceBet_twice_witness :
  PlaceBet 5 (PlaceBet 4 table_open "p1" 600).2 "p1" 500
  = (false, (PlaceBet 4 table_open "p1" 600).2).
Proof.
  assert (Hseat : exists p,
            Players table_open !! O = Some p /\ Player.Balance p = 1000).
  { eexists. split; vm_compute; reflexivity. }
  destruct Hseat as (p & Hp & Hbal).
  assert (H1 : Status table_open = Betting) by (vm_compute; reflexivity).
  assert (H2 : seat_of table_open "p1" = Some O) by (vm_compute; reflexivity).
  assert (H3 : 0 <= MinBet table_open) by (vm_compute; discriminate).
  assert (H4 : MinBet table_open <= 600 <= MaxBet table_open)
    by (vm_compute; split; discriminate).
  assert (H5 : MinBet table_open <= 500 <= MaxBet table_open)
    by (vm_compute; split; discriminate).
  assert (H6 : in_range (Player.Balance p))
    by (rewrite Hbal; vm_compute; split; discriminate).
  assert (H7 : 600 <= Player.Balance p)
    by (rewrite Hbal; vm_compute; discriminate).
  destruct (PlaceBet_twice 4 5 table_open "p1" 600 500 O p
              H1 H2 Hp H3 H4 H5 H6 H7) as [Hrefused _].
  apply Hrefused. rewrite Hbal. vm_compute. reflexivity.
Defined.

End BettingAgain.


(** * Properties of the game store *)

Section Store.

Variable h : Heap.

Lemma first_active_Some games g :
  first_active h games = Some g <->
  exists before after,
    games = before ++ g :: after /\
    Forall (fun g' => Status (h g') = Completed) before /\
    Status (h g) <> Completed.
Proof.
  induction games as [|g0 games IH]; simpl.
  - split; [done|]. intros (before & after & E & _). by destruct before.
  - destruct (GameStatus_eqb (Status (h g0)) Completed) eqn:Hst; simpl.
    + apply GameStatus_eqb_eq in Hst. rewrite IH. split.
      * intros (before & after & -> & Hall & Hg).
        exists (g0 :: before), after. split; [done|]. split; [|done].
        by constructor.
      * intros (before & after & E & Hall & Hg).
        destruct before as [|b before]; simplify_eq/=.
        apply Forall_cons in Hall as [_ Hall]. by exists before, after.
    + apply GameStatus_eqb_neq in Hst. split.
      * intros [= <-]. exists [], games. split; [done|]. split; [constructor|done].
      * intros (before & after & E & Hall & Hg).
        destruct before as [|b before]; simplify_eq/=; [done|].
        apply Forall_cons in Hall as [Hb _]. done.
Qed.

Lemma first_active_None games :
  first_active h games = None <->
  Forall (fun g => Status (h g) = Completed) games.
Proof.
  induction games as [|g0 games IH]; simpl.
  - split; [constructor|done].
  - destruct (GameStatus_eqb (Status (h g0)) Completed) eqn:Hst; simpl.
    + apply GameStatus_eqb_eq in Hst. rewrite IH. split.
      * by constructor.
      * by intros [_ ?]%Forall_cons.
    + apply GameStatus_eqb_neq in Hst. split; [done|].
      by intros [? _]%Forall_cons.
Qed.

(** X14.  Saving and looking up.  After [SaveGame] the game is found under
    its id and the other ids are as before.  The table of the game lists
    it once more at the end, whether it was listed already or not, and the
    other tables are as before: a game saved [n] more times, as the
    handlers do after every call, is listed [n] more times. *)
Theorem SaveGame_GetGame s g :
  let s' := SaveGame h s g in
  GetGame s' (ID (h g)) = Ok g /\
  (forall id, id <> ID (h g) -> GetGame s' id = GetGame s id) /\
  GetTableGames s' (TableID (h g)) = GetTableGames s (TableID (h g)) ++ [g] /\
  (forall tableID, tableID <> TableID (h g) ->
     GetTableGames s' tableID = GetTableGames s tableID) /\
  (forall n,
     GetTableGames (save_again h n g s) (TableID (h g))
     = GetTableGames s (TableID (h g)) ++ replicate n g).
Proof.
  assert (Hlist : forall s0,
    GetTableGames (SaveGame h s0 g) (TableID (h g))
    = GetTableGames s0 (TableID (h g)) ++ [g]).
  { intros s0. unfold GetTableGames, SaveGame. cbn [MemoryStore.tables].
    rewrite lookup_insert_eq.
    by destruct (MemoryStore.tables s0 !! TableID (h g)). }
  intros s'. subst s'. split; [|split; [|split; [|split]]].
  - unfold GetGame, SaveGame. cbn [MemoryStore.games].
    by rewrite lookup_insert_eq.
  - intros id Hid. unfold GetGame, SaveGame. cbn [MemoryStore.games].
    by rewrite lookup_insert_ne.
  - apply Hlist.
  - intros tableID Hne. unfold GetTableGames, SaveGame.
    cbn [MemoryStore.tables]. by rewrite lookup_insert_ne.
  - induction n as [|n IH]; simpl.
    + by rewrite app_nil_r.
    + unfold save_again in *. simpl. rewrite Hlist, IH.
      rewrite <- app_assoc. f_equal.
      change (g :: replicate n g) with (replicate (S n) g).
      by rewrite <- replicate_S_end.
Qed.

Lemma DeleteGame_found s id g :
  MemoryStore.games s !! id = Some g ->
  (DeleteGame h s id).1 = None /\
  MemoryStore.games (DeleteGame h s id).2 = delete id (MemoryStore.games s) /\
  (forall tableID, tableID <> TableID (h g) ->
     MemoryStore.tables (DeleteGame h s id).2 !! tableID
     = MemoryStore.tables s !! tableID) /\
  MemoryStore.tables (DeleteGame h s id).2 !! TableID (h g)
  = (fun listed =>
       match first_index (fun game => String.eqb (ID (h game)) id) listed with
       | Some i => delete i listed
       | None => listed
       end) <$> MemoryStore.tables s !! TableID (h g).
Proof.
  intros Hg. unfold DeleteGame. rewrite Hg. cbn [fst snd].
  split; [done|]. split; [done|].
  destruct (MemoryStore.tables s !! TableID (h g)) as [listed|] eqn:Hl;
    cbn [MemoryStore.tables fmap option_fmap option_map].
  - destruct (first_index _ _) as [i|] eqn:Hi.
    + split.
      * intros tableID Hne. by rewrite lookup_insert_ne.
      * by rewrite lookup_insert_eq, delete_take_drop.
    + done.
  - done.
Qed.

(** X15.  [DeleteGame] fails with "game not found", changing nothing, for
    an id the store does not hold.  For an id it holds, the game is no
    longer found under the id and the other ids are as before; the list of
    the game's table loses its first entry whose game has that id, and
    only that one; the other tables are as before, and no table
    disappears, not even one whose list becomes empty. *)
Theorem DeleteGame_spec s id :
  (GetGame s id = Err "game not found" ->
     DeleteGame h s id = (Some "game not found", s)) /\
  (forall g, GetGame s id = Ok g ->
     let s' := (DeleteGame h s id).2 in
     let listed := GetTableGames s (TableID (h g)) in
     (DeleteGame h s id).1 = None /\
     GetGame s' id = Err "game not found" /\
     (forall id', id' <> id -> GetGame s' id' = GetGame s id') /\
     (forall tableID, tableID <> TableID (h g) ->
        GetTableGames s' tableID = GetTableGames s tableID) /\
     GetTableGames s' (TableID (h g))
     = match first_index (fun game => String.eqb (ID (h game)) id) listed with
       | Some i => delete i listed
       | None => listed
       end /\
     (forall tableID, is_Some (MemoryStore.tables s !! tableID) ->
        is_Some (MemoryStore.tables s' !! tableID))).
Proof.
  split.
  - unfold GetGame, DeleteGame.
    by destruct (MemoryStore.games s !! id).
  - intros g Hfound.
    assert (Hg : MemoryStore.games s !! id = Some g).
    { unfold GetGame in Hfound.
      destruct (MemoryStore.games s !! id); by simplify_eq. }
    destruct (DeleteGame_found s id g Hg) as (Herr & Hgames & Hothers & Hthis).
    cbv zeta. split; [done|]. split; [|split; [|split; [|split]]].
    + unfold GetGame. by rewrite Hgames, lookup_delete_eq.
    + intros id' Hne. unfold GetGame. by rewrite Hgames, lookup_delete_ne.
    + intros tableID Hne. unfold GetTableGames. by rewrite Hothers.
    + unfold GetTableGames. rewrite Hthis.
      by destruct (MemoryStore.tables s !! TableID (h g)).
    + intros tableID Hsome.
      destruct (decide (tableID = TableID (h g))) as [->|Hne].
      * rewrite Hthis. by apply fmap_is_Some.
      * by rewrite Hothers.
Qed.

(** X16.  A game that was saved twice outlives its deletion.  After two
    [SaveGame] of a game and one [DeleteGame] of its id, the id is no
    longer found, yet the game is still listed for its table, and as long
    as it is not Completed the table still has an active game. *)
Theorem resaved_game_outlives_delete s g :
  let id := ID (h g) in
  let s2 := SaveGame h (SaveGame h s g) g in
  let s3 := (DeleteGame h s2 id).2 in
  (DeleteGame h s2 id).1 = None /\
  GetGame s3 id = Err "game not found" /\
  g ∈ GetTableGames s3 (TableID (h g)) /\
  (Status (h g) <> Completed ->
     exists g', GetActiveTableGame h s3 (TableID (h g)) = Ok g' /\
                Status (h g') <> Completed).
Proof.
  intros id s2 s3.
  assert (Hg : MemoryStore.games s2 !! id = Some g).
  { subst s2 id. unfold SaveGame at 1. cbn [MemoryStore.games].
    by rewrite lookup_insert_eq. }
  destruct (DeleteGame_found s2 id g Hg) as (Herr & Hgames & _ & Hthis).
  fold s3 in Hgames, Hthis.
  set (old := GetTableGames s (TableID (h g))).
  assert (Hl2 : MemoryStore.tables s2 !! TableID (h g) = Some (old ++ [g; g])).
  { subst s2. unfold SaveGame at 1. cbn [MemoryStore.tables].
    rewrite lookup_insert_eq. f_equal.
    unfold SaveGame. cbn [MemoryStore.tables]. rewrite lookup_insert_eq.
    simpl. rewrite <- app_assoc. f_equal. }
  rewrite Hl2 in Hthis. cbn [fmap option_fmap option_map] in Hthis.
  assert (Hin : exists listed,
            MemoryStore.tables s3 !! TableID (h g) = Some listed /\ g ∈ listed).
  { eexists. split; [exact Hthis|].
    destruct (first_index _ _) as [i|] eqn:Hi.
    - apply first_index_Some in Hi as (x & Hx & _ & Hbefore).
      assert (Hle : (i <= length old)%nat).
      { destruct (decide (i <= length old)%nat) as [|Hgt]; [done|].
        assert (Hold : (old ++ [g; g]) !! length old = Some g).
        { rewrite lookup_app_r by lia. by rewrite Nat.sub_diag. }
        specialize (Hbefore (length old) g ltac:(lia) Hold).
        subst id. by rewrite String.eqb_refl in Hbefore. }
      apply (list_elem_of_lookup_2 _ (length old)).
      rewrite list_lookup_delete_ge by lia.
      rewrite lookup_app_r by lia.
      by replace (S (length old) - length old)%nat with 1%nat by lia.
    - apply elem_of_app. right. by left. }
  destruct Hin as (listed & Hlisted & Hin).
  split; [done|]. split; [|split].
  - unfold GetGame. by rewrite Hgames, lookup_delete_eq.
  - unfold GetTableGames. by rewrite Hlisted.
  - intros Hactive. unfold GetActiveTableGame. rewrite Hlisted.
    destruct (first_active h listed) as [g'|] eqn:Hfirst.
    + exists g'. split; [done|].
      by apply first_active_Some in Hfirst as (? & ? & _ & _ & ?).
    + rewrite first_active_None, Forall_forall in Hfirst.
      by destruct (Hactive (Hfirst g Hin)).
Qed.

(** X17.  [GetActiveTableGame] returns the first game listed for the table
    that is not Completed, in the order the games were saved.  It fails
    with "table not found" exactly when nothing was ever saved for the
    table, and with "no active game found for table" exactly when every
    game listed is Completed, so also for a table whose list is empty. *)
Theorem GetActiveTableGame_spec s tableID :
  (forall g,
     GetActiveTableGame h s tableID = Ok g <->
     exists before after,
       MemoryStore.tables s !! tableID = Some (before ++ g :: after) /\
       Forall (fun g' => Status (h g') = Completed) before /\
       Status (h g) <> Completed) /\
  (GetActiveTableGame h s tableID = Err "table not found" <->
     MemoryStore.tables s !! tableID = None) /\
  (GetActiveTableGame h s tableID = Err "no active game found for table" <->
     exists listed,
       MemoryStore.tables s !! tableID = Some listed /\
       Forall (fun g => Status (h g) = Completed) listed).
Proof.
  unfold GetActiveTableGame.
  destruct (MemoryStore.tables s !! tableID) as [listed|] eqn:Hl.
  - destruct (first_active h listed) as [g0|] eqn:Hfirst.
    + split; [|split].
      * intros g. split.
        -- intros [= <-]. apply first_active_Some in Hfirst
             as (before & after & -> & Hall & Hg).
           by exists before, after.
        -- intros (before & after & [= ->] & Hall & Hg).
           assert (first_active h (before ++ g :: after) = Some g) as E.
           { apply first_active_Some. by exists before, after. }
           congruence.
      * split; done.
      * split; [done|]. intros (listed' & [= <-] & Hall).
        apply first_active_None in Hall. congruence.
    + split; [|split].
      * intros g. split; [done|].
        intros (before & after & [= ->] & Hall & Hg).
        assert (first_active h (before ++ g :: after) = Some g) as E.
        { apply first_active_Some. by exists before, after. }
        congruence.
      * split; done.
      * split; [|done]. intros _. exists listed. split; [done|].
        by apply first_active_None.
  - split; [|split].
    + intros g. split; [done|]. by intros (? & ? & ? & _).
    + done.
    + split; [done|]. by intros (? & ? & _).
Qed.

End Store.


(** * Identity of a game, and the store across engine calls *)

Section Identity.

Lemma same_identity_refl g : same_identity g g.
Proof. by repeat split. Qed.

Lemma DealerTurn_identity now g : same_identity g (DealerTurn now g).
Proof.
  unfold DealerTurn. destruct (dealer_draws _ _) as [cards dealer'].
  by repeat split.
Qed.

Lemma NextPlayer_identity now g : same_identity g (NextPlayer now g).
Proof.
  destruct (NextPlayer_cases now g) as [->|[(j & p & _ & _ & ->)| ->]].
  - apply same_identity_refl.
  - by repeat split.
  - apply DealerTurn_identity.
Qed.

Lemma DealInitialCards_identity g : same_identity g (DealInitialCards g).
Proof.
  unfold DealInitialCards.
  destruct (deal_players (Deck g) (Players g)) as [deck1 players].
  destruct (DrawCard deck1) as [[c1 ok1] deck2].
  destruct (DrawCard deck2) as [[c2 ok2] deck3].
  by repeat split.
Qed.

Lemma exec_identity now op g : same_identity g (exec now op g).
Proof.
  destruct op as [playerID playerName initialBalance|playerID|playerID amount
                 | |playerID|playerID|rnd| ]; cbn [exec].
  - destruct (AddPlayer_cases now g playerID playerName initialBalance)
      as [->|(Hst & [(i & p & Hp & ->)|(p & Hhand & Hact & ->)])];
      by repeat split.
  - destruct (RemovePlayer_cases now g playerID) as [->|(i & ->)];
      by repeat split.
  - destruct (PlaceBet_cases now g playerID amount)
      as [->|(i & p & q & Hp & Hhand & Hact & ->)]; by repeat split.
  - destruct (Start_cases now g) as [->|(_ & _ & _ & ->)];
      [apply same_identity_refl|].
    cbn [snd]. destruct (DealInitialCards_identity g) as (? & ? & ? & ? & ?).
    by repeat split.
  - destruct (Hit_cases now g playerID)
      as [->|(i & p & card & rest & _ & _ & _ & _ & _ & ->)];
      [apply same_identity_refl|].
    cbn [snd]. destruct (_ <? _); [|by repeat split].
    match goal with
    | |- same_identity _ (set_UpdatedAt _ (NextPlayer _ ?g1)) =>
        destruct (NextPlayer_identity now g1) as (? & ? & ? & ? & ?)
    end.
    by repeat split.
  - destruct (Stand_cases now g playerID)
      as [->|(i & p & _ & _ & _ & _ & ->)]; [apply same_identity_refl|].
    cbn [snd].
    match goal with
    | |- same_identity _ (set_UpdatedAt _ (NextPlayer _ ?g1)) =>
        destruct (NextPlayer_identity now g1) as (? & ? & ? & ? & ?)
    end.
    by repeat split.
  - by repeat split.
  - unfold CloseIdleTable. destruct (_ =? _)%nat; by repeat split.
Qed.

(** X18.  No engine call changes the id of a game, its table, its bet
    limits or its creation time, whatever the call and whether it
    succeeds.  So when a stored game has been changed in place by any
    sequence of calls and is saved again, the store keeps the same games
    under the same ids, and the game is listed once more for the same
    table. *)
Theorem identity_kept calls g :
  same_identity g (run calls g) /\
  forall (h : Heap) (s : MemoryStore.t) (a : ptr),
    h a = g ->
    let s1 := SaveGame h s a in
    let s2 := SaveGame (heap_set h a (run calls g)) s1 a in
    MemoryStore.games s2 = MemoryStore.games s1 /\
    GetGame s2 (ID g) = Ok a /\
    GetTableGames s2 (TableID g) = GetTableGames s (TableID g) ++ [a; a].
Proof.
  assert (Hrun : same_identity g (run calls g)).
  { revert g. induction calls as [|[now op] calls IH]; intros g; cbn [run].
    - apply same_identity_refl.
    - destruct (exec_identity now op g) as (H1 & H2 & H3 & H4 & H5).
      destruct (IH (exec now op g)) as (K1 & K2 & K3 & K4 & K5).
      repeat split; congruence. }
  split; [done|]. intros h s a Ha s1 s2.
  destruct Hrun as (Hid & Htable & _).
  set (h' := heap_set h a (run calls g)) in *.
  assert (Hid' : ID (h' a) = ID g).
  { subst h'. unfold heap_set. by rewrite Nat.eqb_refl. }
  assert (Htable' : TableID (h' a) = TableID g).
  { subst h'. unfold heap_set. by rewrite Nat.eqb_refl. }
  subst s2 s1. unfold GetGame, GetTableGames, SaveGame.
  cbn [MemoryStore.games MemoryStore.tables].
  rewrite Hid', Htable', Ha.
  rewrite insert_insert_eq, !lookup_insert_eq. simpl.
  split; [done|]. split; [done|].
  rewrite <- app_assoc.
  by destruct (MemoryStore.tables s !! TableID g).
Qed.

End Identity.

(** * What is recorded and what is paid *)

Section Recorded.

(** X19.  The winnings the [Stand] handler records for a seat are the
    amount the settlement added to the seat's balance, except when a seat
    with a blackjack meets a dealer who holds two cards totalling 21: the
    settlement then gave the bet back, while the handler records the
    result "blackjack" with the bet and one and a half bets, which is
    more for every positive bet. *)
Theorem recorded_result_vs_settle dealer p :
  in_range (Player.Balance p) ->
  let won := (recorded_result dealer p).2 in
  (~ (Player.Status p = PlayerBlackjack /\ dealer_blackjack dealer) ->
     Player.Balance (settle dealer p) = wrap (Player.Balance p + won)) /\
  (Player.Status p = PlayerBlackjack -> dealer_blackjack dealer ->
     Player.Balance (settle dealer p) = wrap (Player.Balance p + Player.Bet p) /\
     (recorded_result dealer p).1 = "blackjack" /\
     (0 < Player.Bet p <= float64_exact_bound ->
        won = Player.Bet p + Z.quot (3 * Player.Bet p) 2 /\
        Player.Bet p < won)).
Proof.
  intros Hr won. subst won.
  assert (Hsame : wrap (Player.Balance p + 0) = Player.Balance p).
  { by rewrite Z.add_0_r, wrap_in_range. }
  unfold recorded_result, settle, dealer_blackjack. split.
  - intros Hnot.
    destruct (Player.Status p) eqn:Hst; cbn [PlayerStatus_eqb snd].
    + destruct (21 <? Dealer.Score dealer); cbn [orb snd]; [done|].
      destruct (Dealer.Score dealer <? Player.Score p); cbn [snd]; [done|].
      by destruct (Player.Score p =? Dealer.Score dealer).
    + done.
    + destruct (21 <? Dealer.Score dealer); cbn [orb snd]; [done|].
      destruct (Dealer.Score dealer <? Player.Score p); cbn [snd]; [done|].
      by destruct (Player.Score p =? Dealer.Score dealer).
    + destruct (Nat.eqb_spec (length (Dealer.Hand dealer)) 2) as [Hlen|Hlen];
        [|done].
      destruct (Z.eqb_spec (Dealer.Score dealer) 21) as [Hsc|Hsc]; [|done].
      by destruct Hnot.
  - intros Hst [Hlen Hsc]. rewrite Hst. cbn [PlayerStatus_eqb fst snd].
    rewrite Hlen, Hsc. cbn [Nat.eqb Z.eqb Pos.eqb andb].
    split; [done|]. split; [done|].
    intros [Hpos Hbound].
    rewrite mul_1_5_to_int_exact by lia.
    destruct (small_bet_in_range (Player.Bet p)) as [_ Hfit]; [lia|].
    rewrite mul_1_5_to_int_exact in Hfit by lia.
    rewrite wrap_in_range by done.
    split; [done|]. Z.to_euclidean_division_equations. lia.
Qed.

Lemma recorded_result_vs_settle_witness :
  Player.Balance (settle (Dealer.mk [up Clubs Ace; up Hearts King] 21)
                    (Player.mk "p1" "Ann" [up Spades Ace; up Hearts Queen] 21
                       PlayerBlackjack 10 90 false))
  = wrap (90 + 10) /\
  (recorded_result (Dealer.mk [up Clubs Ace; up Hearts King] 21)
     (Player.mk "p1" "Ann" [up Spades Ace; up Hearts Queen] 21
        PlayerBlackjack 10 90 false)).2 = 10 + Z.quot (3 * 10) 2.
Proof.
  destruct (recorded_result_vs_settle
              (Dealer.mk [up Clubs Ace; up Hearts King] 21)
              (Player.mk "p1" "Ann" [up Spades Ace; up Hearts Queen] 21
                 PlayerBlackjack 10 90 false)) as [_ Hpush].
  - vm_compute. split; discriminate.
  - destruct Hpush as (Hpaid & _ & Hmore); [reflexivity|by split|].
    split; [exact Hpaid|].
    apply Hmore. vm_compute. split; [reflexivity|discriminate].
Defined.

End Recorded.


(** * What a player is shown *)

Section View.

Lemma sanitizedPlayer_same viewer p q :
  same_seat_for viewer p q -> sanitizedPlayer viewer p = sanitizedPlayer viewer q.
Proof.
  intros (Hid & Hname & Hhand & Hscore & Hst & Hbet & Hact & Hbal).
  unfold sanitizedPlayer.
  rewrite <- Hid, <- Hname, <- Hhand, <- Hscore, <- Hst, <- Hbet, <- Hact.
  destruct (String.eqb_spec (Player.ID p) viewer) as [Hme|_]; [|done].
  by rewrite (Hbal Hme).
Qed.

(** X20.  The view [GetGameState] builds for a viewer has exactly the keys
    id, status, dealer, tableId, minBet, maxBet and players: neither the
    deck nor the turn index is in it.  The dealer is shown as the game
    holds it, the face-down card with its suit and rank included.  There
    is one entry per seat, in seating order, each with the seat's whole
    hand; the balance of a seat is in its entry exactly when the seat's
    id is the viewer's. *)
Theorem GetGameState_view g viewer :
  let state := GetGameState g viewer in
  dom state
  = list_to_set
      ["id"; "status"; "dealer"; "tableId"; "minBet"; "maxBet"; "players"] /\
  state !! "dealer" = Some (VField (FDealer (Dealer g))) /\
  state !! "players" = Some (VPlayers (sanitizedPlayer viewer <$> Players g)) /\
  forall i p, Players g !! i = Some p ->
    let seat := sanitizedPlayer viewer p in
    (sanitizedPlayer viewer <$> Players g) !! i = Some seat /\
    seat !! "id" = Some (FString (Player.ID p)) /\
    seat !! "hand" = Some (FHand (Player.Hand p)) /\
    (Player.ID p = viewer -> seat !! "balance" = Some (FInt (Player.Balance p))) /\
    (Player.ID p <> viewer -> seat !! "balance" = None) /\
    dom seat ∖ {["balance"]}
    = list_to_set ["id"; "name"; "score"; "status"; "bet"; "isActive"; "hand"].
Proof.
  intros state. subst state. split; [|split; [|split]].
  - unfold GetGameState. apply (bool_decide_unpack _). vm_compute. reflexivity.
  - reflexivity.
  - reflexivity.
  - intros i p Hp seat. subst seat.
    split; [by rewrite list_lookup_fmap, Hp|].
    unfold sanitizedPlayer.
    destruct (String.eqb_spec (Player.ID p) viewer) as [Hme|Hother].
    + split; [reflexivity|]. split; [reflexivity|].
      split; [reflexivity|]. split; [done|].
      apply (bool_decide_unpack _). vm_compute. reflexivity.
    + split; [reflexivity|]. split; [reflexivity|].
      split; [done|]. split; [reflexivity|].
      apply (bool_decide_unpack _). vm_compute. reflexivity.
Qed.

(** X21.  What the view keeps from a viewer.  Two games that agree on id,
    status, dealer, table and limits, and whose seats agree on everything
    but the balances of the seats of other players, give the viewer the
    same view: the view depends neither on the deck, nor on the clock or
    the turn index, nor on what the other players own. *)
Theorem GetGameState_hides g1 g2 viewer :
  ID g1 = ID g2 -> Status g1 = Status g2 -> Dealer g1 = Dealer g2 ->
  TableID g1 = TableID g2 -> MinBet g1 = MinBet g2 -> MaxBet g1 = MaxBet g2 ->
  Forall2 (same_seat_for viewer) (Players g1) (Players g2) ->
  GetGameState g1 viewer = GetGameState g2 viewer.
Proof.
  intros Hid Hst Hdealer Htable Hmin Hmax Hseats.
  unfold GetGameState. rewrite Hid, Hst, Hdealer, Htable, Hmin, Hmax.
  do 2 f_equal.
  induction Hseats as [|p q ps qs Hpq _ IH]; csimpl; [done|].
  by rewrite (sanitizedPlayer_same viewer p q Hpq), IH.
Qed.

Lemma GetGameState_hides_witness :
  GetGameState round_of_two "p1" = GetGameState round_of_two_elsewhere "p1".
Proof.
  apply GetGameState_hides; try (vm_compute; reflexivity).
  vm_compute. repeat constructor; intros; discriminate.
Defined.

End View.


(** * Properties of the hub *)

Section HubSafety.

Variable client : cptr -> Client.t.

Lemma close_send_open c closed :
  c ∉ closed -> close_send c closed = Some ({[c]} ∪ closed).
Proof. intros Hc. unfold close_send. by destruct (decide _). Qed.

Lemma NewHub_consistent : hub_consistent client NewHub.
Proof.
  split; [|split].
  - apply disjoint_empty_l.
  - intros t m c Hm. cbn [NewHub Hub.tables] in Hm.
    by rewrite lookup_empty in Hm.
  - intros p c Hc. cbn [NewHub Hub.playerMap] in Hc.
    by rewrite lookup_empty in Hc.
Qed.

Lemma register_consistent c h :
  hub_consistent client h -> c ∉ Hub.closed h ->
  hub_consistent client (register client c h).
Proof.
  intros (Hopen & Htables & Hplayers) Hc. unfold register.
  split; [|split]; cbn [Hub.clients Hub.closed Hub.tables Hub.playerMap].
  - apply disjoint_union_l. split; [|done]. by apply disjoint_singleton_l.
  - intros t m c' Hm Hin.
    destruct (String.eqb_spec (Client.tableID (client c)) "") as [Hno|Hyes];
      cbn [negb] in Hm.
    + destruct (Htables t m c' Hm Hin) as (? & ? & ?).
      split; [|done]. apply elem_of_union. by right.
    + destruct (decide (t = Client.tableID (client c))) as [->|Hne].
      * rewrite lookup_insert_eq in Hm. injection Hm as <-.
        apply elem_of_union in Hin as [->%elem_of_singleton|Hin].
        -- split; [|done]. apply elem_of_union. left. by apply elem_of_singleton.
        -- destruct (Hub.tables h !! Client.tableID (client c)) as [m0|] eqn:Hm0;
             simpl in Hin; [|by apply elem_of_empty in Hin].
           destruct (Htables _ m0 c' Hm0 Hin) as (? & ? & ?).
           split; [|done]. apply elem_of_union. by right.
      * rewrite lookup_insert_ne in Hm by done.
        destruct (Htables t m c' Hm Hin) as (? & ? & ?).
        split; [|done]. apply elem_of_union. by right.
  - intros p c' Hp.
    destruct (String.eqb_spec (Client.playerID (client c)) "") as [Hno|Hyes];
      cbn [negb] in Hp.
    + destruct (Hplayers p c' Hp) as (? & ? & ?).
      split; [|done]. apply elem_of_union. by right.
    + destruct (decide (p = Client.playerID (client c))) as [->|Hne].
      * rewrite lookup_insert_eq in Hp. injection Hp as <-.
        split; [|done]. apply elem_of_union. left. by apply elem_of_singleton.
      * rewrite lookup_insert_ne in Hp by done.
        destruct (Hplayers p c' Hp) as (? & ? & ?).
        split; [|done]. apply elem_of_union. by right.
Qed.

(** Taking a client out of the registry, as [unregister] and the
    [default] branch of [broadcast] do, with or without the removal of a
    table left empty. *)
Lemma removal_consistent c h tables :
  hub_consistent client h -> c ∈ Hub.clients h ->
  (forall t m, tables !! t = Some m ->
     exists m0, Hub.tables h !! t = Some m0 /\
       if decide (t = Client.tableID (client c)) then m = m0 ∖ {[c]}
       else m = m0) ->
  hub_consistent client
    (Hub.mk (Hub.clients h ∖ {[c]}) tables
       (if negb (String.eqb (Client.playerID (client c)) "")
        then delete (Client.playerID (client c)) (Hub.playerMap h)
        else Hub.playerMap h)
       ({[c]} ∪ Hub.closed h)).
Proof.
  intros (Hopen & Htables & Hplayers) Hc Hnew.
  split; [|split]; cbn [Hub.clients Hub.closed Hub.tables Hub.playerMap].
  - intros x [Hx Hne]%elem_of_difference [Hx'|Hx']%elem_of_union.
    + done.
    + by apply (Hopen x).
  - intros t m c' Hm Hin.
    destruct (Hnew t m Hm) as (m0 & Hm0 & Hrel).
    destruct (decide (t = Client.tableID (client c))) as [->|Hne].
    + subst m. apply elem_of_difference in Hin as [Hin Hnot].
      destruct (Htables _ m0 c' Hm0 Hin) as (? & ? & ?).
      split; [|done]. by apply elem_of_difference.
    + subst m. destruct (Htables t m0 c' Hm0 Hin) as (? & Ht & ?).
      split; [|done]. apply elem_of_difference. split; [done|].
      intros ->%elem_of_singleton. done.
  - intros p c' Hp.
    assert (Hold : Hub.playerMap h !! p = Some c'
                   /\ p <> Client.playerID (client c)).
    { destruct (String.eqb_spec (Client.playerID (client c)) "") as [Hno|Hyes];
        cbn [negb] in Hp.
      - split; [done|]. destruct (Hplayers p c' Hp) as (_ & _ & ?). congruence.
      - apply lookup_delete_Some in Hp as [? ?]. by split. }
    destruct Hold as [Hold Hne].
    destruct (Hplayers p c' Hold) as (? & Hid & ?).
    split; [|done]. apply elem_of_difference. split; [done|].
    intros ->%elem_of_singleton. done.
Qed.

Lemma unregister_consistent c h :
  hub_consistent client h ->
  exists h', unregister client c h = Some h' /\ hub_consistent client h' /\
             Hub.clients h' = Hub.clients h ∖ {[c]}.
Proof.
  intros Hcons. pose proof Hcons as (Hopen & Htables & Hplayers).
  unfold unregister. destruct (decide (c ∈ Hub.clients h)) as [Hc|Hc].
  - rewrite close_send_open by (intros Hx; by apply (Hopen c)).
    cbn [mbind option_bind]. eexists. split; [done|]. split; [|done].
    apply removal_consistent; [done..|].
    intros t m Hm.
    destruct (String.eqb_spec (Client.tableID (client c)) "") as [Hno|Hyes];
      cbn [negb] in Hm.
    + exists m. split; [done|]. destruct (decide _) as [->|]; [|done].
      apply set_eq. intros x. rewrite elem_of_difference, elem_of_singleton.
      split; [|tauto]. intros Hx. split; [done|]. intros ->.
      destruct (Htables _ m c Hm Hx) as (_ & _ & ?). done.
    + destruct (Hub.tables h !! Client.tableID (client c)) as [m0|] eqn:Hm0.
      * destruct (size (m0 ∖ {[c]}) =? 0)%nat.
        -- apply lookup_delete_Some in Hm as [Hne Hm].
           exists m. split; [done|]. by destruct (decide _).
        -- destruct (decide (t = Client.tableID (client c))) as [->|Hne].
           ++ rewrite lookup_insert_eq in Hm. injection Hm as <-.
              by exists m0.
           ++ rewrite lookup_insert_ne in Hm by done. by exists m.
      * exists m. split; [done|]. destruct (decide _) as [->|]; [|done].
        congruence.
  - exists h. split; [done|]. split; [done|].
    apply set_eq. intros x. rewrite elem_of_difference, elem_of_singleton.
    split; [|tauto]. intros Hx. split; [done|]. by intros ->.
Qed.

Lemma drop_client_consistent c h :
  hub_consistent client h -> c ∈ Hub.clients h ->
  exists h', drop_client client c h = Some h' /\ hub_consistent client h' /\
             Hub.clients h' = Hub.clients h ∖ {[c]}.
Proof.
  intros Hcons Hc. pose proof Hcons as (Hopen & Htables & Hplayers).
  unfold drop_client.
  rewrite close_send_open by (intros Hx; by apply (Hopen c)).
  cbn [mbind option_bind]. eexists. split; [done|]. split; [|done].
  apply removal_consistent; [done..|].
  intros t m Hm.
  destruct (String.eqb_spec (Client.tableID (client c)) "") as [Hno|Hyes];
    cbn [negb] in Hm.
  - exists m. split; [done|]. destruct (decide _) as [->|]; [|done].
    apply set_eq. intros x. rewrite elem_of_difference, elem_of_singleton.
    split; [|tauto]. intros Hx. split; [done|]. intros ->.
    destruct (Htables _ m c Hm Hx) as (_ & _ & ?). done.
  - destruct (Hub.tables h !! Client.tableID (client c)) as [m0|] eqn:Hm0.
    + destruct (decide (t = Client.tableID (client c))) as [->|Hne].
      * rewrite lookup_insert_eq in Hm. injection Hm as <-. by exists m0.
      * rewrite lookup_insert_ne in Hm by done. by exists m.
    + exists m. split; [done|]. destruct (decide _) as [->|]; [|done].
      congruence.
Qed.

Lemma broadcast_consistent full order : forall h,
  hub_consistent client h -> NoDup order ->
  (forall c, c ∈ order -> c ∈ Hub.clients h) ->
  exists h', broadcast client full order h = Some h' /\
             hub_consistent client h' /\
             Hub.clients h' ⊆ Hub.clients h /\
             forall c, c ∈ Hub.clients h -> c ∉ order -> c ∈ Hub.clients h'.
Proof.
  induction order as [|c order IH]; intros h Hcons Hnd Hin.
  { exists h. split; [done|]. split; [done|]. split; [done|]. by intros. }
  apply NoDup_cons in Hnd as [Hfresh Hnd].
  assert (Hc : c ∈ Hub.clients h) by (apply Hin; by left).
  pose proof Hcons as (Hopen & _).
  cbn [broadcast]. unfold send_or_drop.
  destruct (decide (c ∈ Hub.closed h)) as [Hx|_]; [by destruct (Hopen c)|].
  destruct (full c).
  - destruct (drop_client_consistent c h Hcons Hc) as (h1 & -> & Hcons1 & Hcl).
    cbn [mbind option_bind].
    destruct (IH h1 Hcons1 Hnd) as (h' & E & Hcons' & Hsub & Hkeep).
    { intros x Hx. rewrite Hcl. apply elem_of_difference.
      split; [apply Hin; by right|]. intros ->%elem_of_singleton. done. }
    exists h'. split; [done|]. split; [done|]. split.
    + intros x Hx. apply Hsub in Hx. rewrite Hcl in Hx.
      by apply elem_of_difference in Hx as [? _].
    + intros x Hx Hnot. apply Hkeep.
      * rewrite Hcl. apply elem_of_difference. split; [done|].
        intros ->%elem_of_singleton. apply Hnot. by left.
      * intros Hin'. apply Hnot. by right.
  - cbn [mbind option_bind].
    destruct (IH h Hcons Hnd) as (h' & E & Hcons' & Hsub & Hkeep).
    { intros x Hx. apply Hin. by right. }
    exists h'. split; [done|]. split; [done|]. split; [done|].
    intros x Hx Hnot. apply Hkeep; [done|]. intros Hin'. apply Hnot. by right.
Qed.

Lemma hub_step_consistent h ev :
  hub_consistent client h -> hub_event_ok h ev ->
  exists h', hub_step client ev h = Some h' /\ hub_consistent client h'.
Proof.
  intros Hcons Hok. destruct ev as [c|c|order full]; cbn [hub_step].
  - destruct Hok as [_ Hc]. eexists. split; [done|].
    by apply register_consistent.
  - destruct (unregister_consistent c h Hcons) as (h' & E & Hcons' & _).
    by exists h'.
  - cbn [hub_event_ok] in Hok.
    destruct (broadcast_consistent full order h Hcons) as (h' & E & Hcons' & _).
    + rewrite Hok. apply NoDup_elements.
    + intros c Hc. rewrite Hok in Hc. by apply elem_of_elements in Hc.
    + by exists h'.
Qed.

Lemma hub_reachable_consistent h :
  hub_reachable client h -> hub_consistent client h.
Proof.
  induction 1 as [|h ev h' Hreach IH Hok Hstep]; [apply NewHub_consistent|].
  destruct (hub_step_consistent h ev IH Hok) as (h1 & E & Hcons).
  congruence.
Qed.

(** X22.  The hub never panics and never sends on a closed channel.  In
    every state [Run] reaches from a new hub, by registrations of new
    clients, unregistrations of any clients, registered or not, once or
    again, and broadcasts with any queues full: the next event is handled
    without a panic (no channel is closed twice, no message is sent on a
    closed channel), and every client that [BroadcastToTable],
    [BroadcastGameUpdate] or [SendToPlayer] would send to is registered,
    has an open channel, and is filed under its own table and player id. *)
Theorem hub_never_panics h :
  hub_reachable client h ->
  (forall ev, hub_event_ok h ev -> is_Some (hub_step client ev h)) /\
  (forall tableID c, c ∈ table_recipients h tableID ->
     c ∈ Hub.clients h /\ (c ∉ Hub.closed h) /\
     Client.tableID (client c) = tableID) /\
  (forall playerID c, player_recipient h playerID = Some c ->
     c ∈ Hub.clients h /\ (c ∉ Hub.closed h) /\
     Client.playerID (client c) = playerID).
Proof.
  intros Hreach. pose proof (hub_reachable_consistent h Hreach) as Hcons.
  pose proof Hcons as (Hopen & Htables & Hplayers).
  split; [|split].
  - intros ev Hok.
    destruct (hub_step_consistent h ev Hcons Hok) as (h' & -> & _). by eexists.
  - intros tableID c Hc. unfold table_recipients in Hc.
    destruct (Hub.tables h !! tableID) as [m|] eqn:Hm; simpl in Hc;
      [|by apply elem_of_empty in Hc].
    destruct (Htables tableID m c Hm Hc) as (Hin & Ht & _).
    split; [done|]. split; [|done]. intros Hx. by apply (Hopen c).
  - intros playerID c Hc. unfold player_recipient in Hc.
    destruct (Hplayers playerID c Hc) as (Hin & Hp & _).
    split; [done|]. split; [|done]. intros Hx. by apply (Hopen c).
Qed.

(** X23.  A player who connects again loses the direct route when the old
    connection goes.  When a new client is registered for a player id that
    an already registered client carries, and the old client is then
    unregistered, the new client is still registered with an open
    channel, but the player id leads to no client any more: [SendToPlayer]
    finds nobody to send to. *)
Theorem reconnect_loses_route h c1 c2 :
  hub_reachable client h ->
  c1 ∈ Hub.clients h -> c2 ∉ Hub.clients h -> c2 ∉ Hub.closed h ->
  Client.playerID (client c1) = Client.playerID (client c2) ->
  Client.playerID (client c2) <> "" ->
  player_recipient (register client c2 h) (Client.playerID (client c2)) = Some c2 /\
  exists h',
    unregister client c1 (register client c2 h) = Some h' /\
    c2 ∈ Hub.clients h' /\ (c2 ∉ Hub.closed h') /\
    player_recipient h' (Client.playerID (client c2)) = None.
Proof.
  intros Hreach Hc1 Hc2 Hopen2 Hsame Hid.
  pose proof (hub_reachable_consistent h Hreach) as (Hopen & _).
  assert (Hne : c2 <> c1) by congruence.
  apply String.eqb_neq in Hid.
  split.
  { unfold player_recipient, register. cbn [Hub.playerMap].
    rewrite Hid. cbn [negb]. by rewrite lookup_insert_eq. }
  unfold unregister.
  destruct (decide (c1 ∈ Hub.clients (register client c2 h))) as [_|Hnot].
  2:{ destruct Hnot. unfold register. cbn [Hub.clients].
      apply elem_of_union. by right. }
  rewrite close_send_open.
  2:{ unfold register. cbn [Hub.closed]. intros Hx. by apply (Hopen c1). }
  cbn [mbind option_bind]. eexists. split; [done|].
  cbn [Hub.clients Hub.closed]. split; [|split].
  - apply elem_of_difference. split.
    + unfold register. cbn [Hub.clients]. apply elem_of_union. left.
      by apply elem_of_singleton.
    + by intros ?%elem_of_singleton.
  - unfold register. cbn [Hub.closed].
    intros [?%elem_of_singleton|?]%elem_of_union; done.
  - unfold player_recipient. cbn [Hub.playerMap].
    rewrite Hsame, Hid. cbn [negb]. by rewrite lookup_delete_eq.
Qed.

End HubSafety.

Lemma reconnect_loses_route_witness :
  exists h',
    unregister two_clients 1%nat
      (register two_clients 2%nat (register two_clients 1%nat NewHub)) = Some h' /\
    2%nat ∈ Hub.clients h' /\ (2%nat ∉ Hub.closed h') /\
    player_recipient h' "p1" = None.
Proof.
  assert (Hreach : hub_reachable two_clients (register two_clients 1%nat NewHub)).
  { apply (hub_next two_clients NewHub (EvRegister 1%nat)); [constructor| |reflexivity].
    split; apply not_elem_of_empty. }
  assert (H1 : 1%nat ∈ Hub.clients (register two_clients 1%nat NewHub)).
  { apply elem_of_union. left. by apply elem_of_singleton. }
  assert (H2 : 2%nat ∉ Hub.clients (register two_clients 1%nat NewHub)).
  { intros [?%elem_of_singleton|?%elem_of_empty]%elem_of_union; done. }
  assert (H3 : 2%nat ∉ Hub.closed (register two_clients 1%nat NewHub)).
  { apply not_elem_of_empty. }
  assert (H4 : Client.playerID (two_clients 2%nat) <> "").
  { vm_compute. discriminate. }
  destruct (reconnect_loses_route two_clients (register two_clients 1%nat NewHub)
              1%nat 2%nat Hreach H1 H2 H3 eq_refl H4) as [_ Hlost].
  exact Hlost.
Defined.

Lemma hub_never_panics_witness :
  is_Some (hub_step two_clients (EvUnregister 1%nat)
             (register two_clients 1%nat NewHub)).
Proof.
  assert (Hreach : hub_reachable two_clients (register two_clients 1%nat NewHub)).
  { apply (hub_next two_clients NewHub (EvRegister 1%nat)); [constructor| |reflexivity].
    split; apply not_elem_of_empty. }
  destruct (hub_never_panics two_clients (register two_clients 1%nat NewHub) Hreach)
    as [Hsafe _].
  by apply Hsafe.
Defined.


Section HubRoundTrip.

Variable client : cptr -> Client.t.

(** X24.  Connecting and leaving.  A new client that is registered and
    then unregistered leaves the hub with the clients it had and the same
    recipients for every table: its table is removed again when it was
    alone at it.  Its channel is closed.  The routes of the other player
    ids are as before, but its own player id leads to no client any more,
    also when an earlier client of that player is still connected. *)
Theorem register_unregister h c :
  hub_reachable client h -> c ∉ Hub.clients h -> c ∉ Hub.closed h ->
  exists h',
    unregister client c (register client c h) = Some h' /\
    Hub.clients h' = Hub.clients h /\
    Hub.closed h' = {[c]} ∪ Hub.closed h /\
    (forall t, table_recipients h' t = table_recipients h t) /\
    (forall p, p <> Client.playerID (client c) ->
       player_recipient h' p = player_recipient h p) /\
    player_recipient h' (Client.playerID (client c)) = None.
Proof.
  intros Hreach Hc Hopen.
  pose proof (hub_reachable_consistent client h Hreach)
    as (_ & Htables & Hplayers).
  assert (Hback : forall X : gset cptr, c ∉ X -> ({[c]} ∪ X) ∖ {[c]} = X).
  { intros X HX. apply set_eq. intros x.
    rewrite elem_of_difference, elem_of_union, elem_of_singleton.
    split; [tauto|]. intros Hx. split; [by right|]. by intros ->. }
  unfold unregister.
  destruct (decide (c ∈ Hub.clients (register client c h))) as [_|Hnot].
  2:{ destruct Hnot. unfold register. cbn [Hub.clients].
      apply elem_of_union. left. by apply elem_of_singleton. }
  rewrite close_send_open by done.
  cbn [mbind option_bind]. eexists. split; [done|].
  unfold table_recipients, player_recipient, register.
  cbn [Hub.clients Hub.closed Hub.tables Hub.playerMap].
  split; [by apply Hback|]. split; [done|]. split; [|split].
  - intros t.
    destruct (String.eqb_spec (Client.tableID (client c)) "") as [Hno|Hyes];
      cbn [negb]; [done|].
    rewrite lookup_insert_eq.
    set (m0 := default ∅ (Hub.tables h !! Client.tableID (client c))).
    assert (Hm0 : c ∉ m0).
    { subst m0. destruct (Hub.tables h !! Client.tableID (client c))
        as [m|] eqn:Hm; simpl; [|apply not_elem_of_empty].
      intros Hin. by destruct (Htables _ m c Hm Hin) as (? & _). }
    rewrite (Hback m0 Hm0).
    destruct (Nat.eqb_spec (size m0) 0) as [Hempty|Hsome].
    + apply size_empty_iff, leibniz_equiv in Hempty.
      destruct (decide (t = Client.tableID (client c))) as [->|Hne].
      * rewrite lookup_delete_eq. by fold m0.
      * by rewrite lookup_delete_ne, lookup_insert_ne.
    + rewrite insert_insert_eq.
      destruct (decide (t = Client.tableID (client c))) as [->|Hne].
      * rewrite lookup_insert_eq. by fold m0.
      * by rewrite lookup_insert_ne.
  - intros p Hp.
    destruct (String.eqb_spec (Client.playerID (client c)) "") as [Hno|Hyes];
      cbn [negb]; [done|].
    by rewrite lookup_delete_ne, lookup_insert_ne.
  - destruct (String.eqb_spec (Client.playerID (client c)) "") as [Hno|Hyes];
      cbn [negb].
    + destruct (Hub.playerMap h !! Client.playerID (client c)) as [c'|] eqn:Hp;
        [|done].
      by destruct (Hplayers _ c' Hp) as (_ & _ & ?).
    + by rewrite lookup_delete_eq.
Qed.

End HubRoundTrip.

Lemma register_unregister_witness :
  exists h',
    unregister two_clients 2%nat
      (register two_clients 2%nat (register two_clients 1%nat NewHub))
    = Some h' /\
    Hub.clients h' = Hub.clients (register two_clients 1%nat NewHub) /\
    player_recipient h' "p1" = None.
Proof.
  assert (Hreach : hub_reachable two_clients (register two_clients 1%nat NewHub)).
  { apply (hub_next two_clients NewHub (EvRegister 1%nat));
      [constructor| |reflexivity].
    split; apply not_elem_of_empty. }
  assert (H2 : 2%nat ∉ Hub.clients (register two_clients 1%nat NewHub)).
  { intros [?%elem_of_singleton|?%elem_of_empty]%elem_of_union; done. }
  assert (H3 : 2%nat ∉ Hub.closed (register two_clients 1%nat NewHub)).
  { apply not_elem_of_empty. }
  destruct (register_unregister two_clients _ 2%nat Hreach H2 H3)
    as (h' & E & Hclients & _ & _ & _ & Hroute).
  exists h'. split; [exact E|]. split; [exact Hclients|exact Hroute].
Defined.

(** * The cards of a round *)

Section CoveredRound.

(** X25.  Where the deck covers the deal.  In every state reached by
    engine calls that start a round only with at most 25 seats and remove
    no seat during a round, the deck, the hands of the seats and the
    dealer's hand of a round in progress hold 52 cards, no two of them
    with the same suit and rank, and every card is one of the standard
    pack: no card is dealt twice and no blank card is dealt. *)
Theorem covered_round_cards g :
  reachable_by covered_deal g -> Status g = InProgress ->
  card_id <$> all_cards g ≡ₚ standard52 /\
  NoDup (card_id <$> all_cards g) /\
  length (all_cards g) = 52%nat /\
  forall c, c ∈ all_cards g -> Card.Suit c ∈ suits /\ Card.Rank c ∈ ranks.
Proof.
  intros Hreach Hst.
  destruct round_conserves_cards as [Hround _].
  pose proof (Hround g Hreach Hst) as Hcards.
  unfold conserves_cards in Hcards.
  split; [done|]. split; [|split].
  - rewrite Hcards. apply standard52_NoDup.
  - rewrite <- (length_fmap card_id), Hcards. reflexivity.
  - intros c Hc.
    assert (Hin : card_id c ∈ standard52).
    { rewrite <- Hcards. by apply list_elem_of_fmap_2. }
    unfold standard52 in Hin.
    apply list_elem_of_bind in Hin as (s & Hin & Hs).
    apply list_elem_of_bind in Hin as (r & Hin & Hr).
    apply list_elem_of_singleton in Hin. unfold card_id in Hin.
    injection Hin as -> ->. done.
Qed.

Lemma covered_round_cards_witness :
  NoDup (card_id <$> all_cards round_of_two) /\
  length (all_cards round_of_two) = 52%nat.
Proof.
  assert (Hreach : reachable_by covered_deal round_of_two).
  { unfold round_of_two. cbn [run].
    repeat (apply reachable_call;
            [|split; [intros ? ?; discriminate
                     |intros ?; try discriminate; vm_compute; lia]]).
    apply reachable_new. }
  destruct (covered_round_cards round_of_two Hreach) as (_ & H1 & H2 & _).
  - vm_compute. reflexivity.
  - split; [exact H1|exact H2].
Defined.

End CoveredRound.


(** * Scores and statuses of the seats *)

Section SeatsConsistent.

Lemma GetValue_bounds c :
  0 <= GetValue c <= 11 /\
  (String.eqb (Card.Rank c) Ace = true -> GetValue c = 11) /\
  (String.eqb (Card.Rank c) Ace = false -> GetValue c <= 10).
Proof.
  unfold GetValue. cbv zeta.
  destruct (String.eqb (Card.Rank c) Ace); [repeat split; intros; lia|].
  repeat (match goal with
          | |- context [if ?b then _ else _] => destruct b
          end); repeat split; intros; lia.
Qed.

Lemma two_cards_score a b : CalculateHandScore [a; b] <= 21.
Proof.
  unfold CalculateHandScore, count_hand. cbn [foldl].
  destruct (GetValue_bounds a) as (Ha & Ha1 & Ha0).
  destruct (GetValue_bounds b) as (Hb & Hb1 & Hb0).
  destruct (String.eqb (Card.Rank a) Ace), (String.eqb (Card.Rank b) Ace);
    cbn [convert_aces];
    repeat (match goal with
            | |- context [21 <? ?x] => destruct (Z.ltb_spec 21 x)
            end);
    try specialize (Ha1 eq_refl); try specialize (Hb1 eq_refl);
    try specialize (Ha0 eq_refl); try specialize (Hb0 eq_refl); lia.
Qed.

Lemma same_play_consistent p p' :
  same_play p p' -> seat_consistent p -> seat_consistent p'.
Proof.
  intros (Hh & Hs & Hst). unfold seat_consistent. by rewrite Hh, Hs, Hst.
Qed.

Lemma same_play_reset p p' : same_play p p' -> seat_reset p -> seat_reset p'.
Proof.
  intros (Hh & Hs & Hst). unfold seat_reset. by rewrite Hh, Hs, Hst.
Qed.

Lemma seat_reset_consistent p : seat_reset p -> seat_consistent p.
Proof.
  intros (Hh & Hs & Hst). unfold seat_consistent. rewrite Hh, Hs, Hst.
  split; [done|]. split; [|done]. split; [done|]. lia.
Qed.

Lemma settle_same_play dealer p : same_play p (settle dealer p).
Proof. unfold settle. by repeat case_match. Qed.

Lemma deal_player_seat deck p :
  exists c1 c2, (deal_player deck p).2 = seat_dealt c1 c2 p.
Proof.
  unfold deal_player.
  destruct (DrawCard deck) as [[card1 ok1] deck1].
  destruct (DrawCard deck1) as [[card2 ok2] deck2].
  exists card1, card2. unfold seat_dealt. cbn.
  rewrite <- !app_assoc. cbn. by destruct (_ =? 21).
Qed.

Lemma seat_dealt_consistent c1 c2 p :
  seat_reset p -> seat_consistent (seat_dealt c1 c2 p).
Proof.
  intros (Hh & Hs & Hst). unfold seat_consistent, seat_dealt.
  cbn [Player.Hand Player.Score Player.Status]. rewrite Hh, Hst. cbn [app].
  pose proof (two_cards_score (Card.set_Face true c1) (Card.set_Face true c2))
    as Hle.
  split; [done|].
  destruct (Z.eqb_spec
              (CalculateHandScore [Card.set_Face true c1; Card.set_Face true c2])
              21) as [E|E].
  - split; [|done]. split; [done|lia].
  - split; [|done]. split; [done|lia].
Qed.

Lemma deal_players_consistent players : forall deck,
  Forall seat_reset players ->
  Forall seat_consistent (deal_players deck players).2.
Proof.
  induction players as [|p players IH]; intros deck Hreset; simpl;
    [constructor|].
  apply Forall_cons in Hreset as [Hp Hreset].
  destruct (deal_player_seat deck p) as (c1 & c2 & E).
  destruct (deal_player deck p) as [deck1 p']. cbn [snd] in E. subst p'.
  specialize (IH deck1 Hreset). destruct (deal_players deck1 players).
  constructor; [by apply seat_dealt_consistent|done].
Qed.

Lemma NextPlayer_consistent now g :
  Forall seat_consistent (Players g) ->
  Forall seat_consistent (Players (NextPlayer now g)).
Proof.
  intros Hall.
  destruct (NextPlayer_cases now g) as [->|[(j & p & _ & _ & ->)| ->]].
  - done.
  - unfold give_turn, update_player.
    cbn [Players set_Players set_CurrentPlayerIndex].
    apply Forall_alter; [done|]. intros x _ Hx.
    by apply (same_play_consistent x).
  - rewrite DealerTurn_settles. apply Forall_fmap.
    eapply Forall_impl; [exact Hall|]. intros x Hx. cbn.
    apply (same_play_consistent x); [apply settle_same_play|done].
Qed.

Lemma AddPlayer_seats now g playerID playerName initialBalance :
  let g' := (AddPlayer now g playerID playerName initialBalance).2 in
  Status g' = Status g /\
  (Players g' = Players g \/
   (exists i, Players g' = alter (Player.set_IsActive true) i (Players g)) \/
   Players g'
   = Players g
     ++ [Player.mk playerID playerName [] 0 PlayerActive 0 initialBalance false]).
Proof.
  unfold AddPlayer. destruct (first_index _ _) as [i|].
  - destruct (GameStatus_eqb _ _); cbn [snd].
    + split; [done|]. right. left. by exists i.
    + split; [done|]. by left.
  - destruct (GameStatus_eqb _ _); cbn [negb snd].
    + split; [done|]. by right; right.
    + split; [done|]. by left.
Qed.

Lemma PlaceBet_seats now g playerID amount :
  let g' := (PlaceBet now g playerID amount).2 in
  Status g' = Status g /\
  Forall2 same_play (Players g) (Players g').
Proof.
  assert (Hrefl : Forall2 same_play (Players g) (Players g)).
  { apply Forall2_same_length_lookup_2; [done|].
    intros i x y Hx Hy. by simplify_eq. }
  unfold PlaceBet.
  destruct (negb _); [done|].
  destruct (_ || _); [done|].
  destruct (first_index _ _) as [i|]; [|done].
  destruct (Players g !! i) as [p|] eqn:Hp; [|done].
  destruct (_ <? _); [done|].
  cbn [snd]. split; [done|]. unfold update_player.
  cbn [Players set_Players set_UpdatedAt].
  rewrite list_alter_alter_eq.
  apply Forall2_same_length_lookup_2; [by rewrite length_alter|].
  intros j x y Hx Hy.
  destruct (decide (i = j)) as [->|Hne].
  - rewrite list_lookup_alter_eq, Hx in Hy. by simplify_eq/=.
  - rewrite list_lookup_alter_ne in Hy by done. by simplify_eq.
Qed.

Lemma same_play_Forall (P : Player.t -> Prop) players players' :
  (forall p p', same_play p p' -> P p -> P p') ->
  Forall2 same_play players players' -> Forall P players -> Forall P players'.
Proof.
  intros HP Hsame. induction Hsame as [|p p' ps ps' Hp _ IH]; [done|].
  intros [Hx Hxs]%Forall_cons. constructor; [by apply (HP p)|by apply IH].
Qed.

Lemma seats_consistent_reachable allowed g :
  reachable_by allowed g ->
  Forall seat_consistent (Players g) /\
  (Status g = Waiting \/ Status g = Betting -> Forall seat_reset (Players g)).
Proof.
  induction 1 as [id rnd now tableID minBet maxBet|g now op Hreach IH Hok].
  { split; [constructor|]. intros _. constructor. }
  destruct IH as [IHc IHr].
  destruct op as [playerID playerName initialBalance|playerID|playerID amount
                 | |playerID|playerID|rnd| ]; cbn [exec].
  - (* AddPlayer *)
    destruct (AddPlayer_seats now g playerID playerName initialBalance)
      as [Hst [E|[(i & E)|E]]]; cbv zeta in Hst, E; rewrite Hst, E.
    + done.
    + split.
      * apply Forall_alter; [done|]. intros x _ Hx.
        by apply (same_play_consistent x).
      * intros Hw. apply Forall_alter; [by apply IHr|]. intros x _ Hx.
        by apply (same_play_reset x).
    + split.
      * apply Forall_app. split; [done|]. constructor; [|constructor].
        by apply seat_reset_consistent.
      * intros Hw. apply Forall_app. split; [by apply IHr|].
        by constructor.
  - (* RemovePlayer *)
    destruct (RemovePlayer_cases now g playerID) as [->|(i & ->)]; [done|].
    cbn [Players Status set_Players set_UpdatedAt]. split.
    + apply Forall_app. split; [by apply Forall_take|by apply Forall_drop].
    + intros Hw. specialize (IHr Hw). apply Forall_app.
      split; [by apply Forall_take|by apply Forall_drop].
  - (* PlaceBet *)
    destruct (PlaceBet_seats now g playerID amount) as [Hst Hsame].
    cbv zeta in Hst, Hsame. rewrite Hst. split.
    + by apply (same_play_Forall _ _ _ same_play_consistent Hsame).
    + intros Hw.
      by apply (same_play_Forall _ _ _ same_play_reset Hsame), IHr.
  - (* Start *)
    destruct (Start_cases now g) as [->|(Hst & _ & _ & ->)]; [done|].
    cbn [snd]. split; [|intros [?|?]; done].
    unfold update_player.
    cbn [Players set_Players set_CurrentPlayerIndex set_UpdatedAt set_Status].
    apply Forall_alter.
    * rewrite DealInitialCards_players. apply deal_players_consistent.
      apply IHr. by right.
    * intros x _ Hx. by apply (same_play_consistent x).
  - (* Hit *)
    destruct (Hit_cases now g playerID)
      as [->|(i & p & card & rest & Hst & _ & Hp & Hact & _ & ->)]; [done|].
    cbn [snd]. apply may_act_true in Hact as (_ & _ & Hactive).
    assert (Hpc : seat_consistent p).
    { rewrite Forall_forall in IHc. apply IHc.
      by eapply list_elem_of_lookup_2. }
    destruct (Z.ltb_spec 21 (Player.Score (dealt card p))) as [Hbust|Hfine].
    + set (g1 := set_Players _ _).
      assert (H1 : Forall seat_consistent (Players g1)).
      { subst g1. cbn [Players set_Players]. apply Forall_insert; [done|].
        unfold seat_consistent, retire, dealt.
        cbn [Player.Hand Player.Score Player.Status Player.set_IsActive
             Player.set_Status Player.set_Score Player.set_Hand].
        split; [done|]. split; [|done]. split; [intros _|done].
        exact Hbust. }
      split.
      * change (Players (set_UpdatedAt now ?x)) with (Players x).
        by apply NextPlayer_consistent.
      * change (Status (set_UpdatedAt now ?x)) with (Status x).
        destruct (NextPlayer_status now g1) as [E|E]; rewrite E;
          subst g1; cbn [Status set_Players set_Deck]; rewrite ?Hst;
          intros [?|?]; done.
    + cbn [Players Status set_Players set_UpdatedAt set_Deck]. rewrite Hst.
      split; [|intros [?|?]; done].
      apply Forall_insert; [done|].
      unfold seat_consistent, dealt.
      cbn [Player.Hand Player.Score Player.Status Player.set_Score
           Player.set_Hand].
      rewrite Hactive. split; [done|]. split; [|done].
      split; [done|]. intros Hgt. unfold dealt in Hfine.
      cbn [Player.Score Player.set_Score] in Hfine. lia.
  - (* Stand *)
    destruct (Stand_cases now g playerID)
      as [->|(i & p & Hst & _ & Hp & Hact & ->)]; [done|].
    cbn [snd]. apply may_act_true in Hact as (_ & _ & Hactive).
    assert (Hpc : seat_consistent p).
    { rewrite Forall_forall in IHc. apply IHc.
      by eapply list_elem_of_lookup_2. }
    set (g1 := set_Players _ _).
    assert (H1 : Forall seat_consistent (Players g1)).
    { subst g1. cbn [Players set_Players]. apply Forall_insert; [done|].
      destruct Hpc as (Hscore & Hbusted & _).
      unfold seat_consistent, retire.
      cbn [Player.Hand Player.Score Player.Status Player.set_IsActive
           Player.set_Status].
      split; [done|]. split; [|done]. split; [done|].
      intros Hgt. apply Hbusted in Hgt. congruence. }
    split.
    + change (Players (set_UpdatedAt now ?x)) with (Players x).
      by apply NextPlayer_consistent.
    + change (Status (set_UpdatedAt now ?x)) with (Status x).
      destruct (NextPlayer_status now g1) as [E|E]; rewrite E;
        subst g1; cbn [Status set_Players]; rewrite ?Hst;
        intros [?|?]; done.
  - (* PrepareForNextRound *)
    assert (Hreset : Forall seat_reset
                       (Players (PrepareForNextRound rnd now g))).
    { unfold PrepareForNextRound.
      cbn [Players set_Players set_UpdatedAt set_Status].
      apply Forall_fmap, Forall_true. intros p. by repeat split. }
    split; [|done].
    eapply Forall_impl; [exact Hreset|]. apply seat_reset_consistent.
  - (* the host closes the idle table *)
    unfold CloseIdleTable. destruct (_ =? _)%nat; [|done].
    cbn [Players Status set_Status]. split; [done|]. intros [?|?]; done.
Qed.

(** X26.  Scores and statuses never go stale.  In every state the engine
    reaches, whatever the calls: the score of every seat is the score of
    its hand; a seat is Busted exactly when its score is over 21; a seat
    that is Blackjack has two cards and 21; and while the game is Waiting
    or Betting every seat has an empty hand, score 0 and status Active. *)
Theorem seats_consistent allowed g :
  reachable_by allowed g ->
  (forall p, p ∈ Players g ->
     Player.Score p = CalculateHandScore (Player.Hand p) /\
     (Player.Status p = PlayerBusted <-> 21 < Player.Score p) /\
     (Player.Status p = PlayerBlackjack ->
        Player.Score p = 21 /\ length (Player.Hand p) = 2%nat)) /\
  (Status g = Waiting \/ Status g = Betting ->
     forall p, p ∈ Players g ->
       Player.Hand p = [] /\ Player.Score p = 0 /\
       Player.Status p = PlayerActive).
Proof.
  intros Hreach.
  destruct (seats_consistent_reachable allowed g Hreach) as [Hc Hr].
  split.
  - intros p Hp. rewrite Forall_forall in Hc. by apply Hc.
  - intros Hw p Hp. specialize (Hr Hw). rewrite Forall_forall in Hr.
    by apply Hr.
Qed.

Lemma seats_consistent_witness :
  exists p, Players round_of_two !! O = Some p /\
            Player.Score p = CalculateHandScore (Player.Hand p).
Proof.
  assert (Hreach : reachable round_of_two).
  { unfold round_of_two. apply reachable_run; [|done]. constructor. }
  destruct (seats_consistent _ _ Hreach) as [Hc _].
  assert (Hp : exists p, Players round_of_two !! O = Some p).
  { eexists. vm_compute. reflexivity. }
  destruct Hp as [p Hp]. exists p. split; [exact Hp|].
  apply list_elem_of_lookup_2 in Hp. by destruct (Hc p Hp) as (? & _).
Defined.

End SeatsConsistent.


(** * The stakes of the seats *)

Section Stakes.

Variable P : Player.t -> Prop.
Hypothesis P_bet : forall p p', Player.Bet p' = Player.Bet p -> P p -> P p'.

Lemma stake_alter (f : Player.t -> Player.t) i (players : list Player.t) :
  (forall p, Player.Bet (f p) = Player.Bet p) ->
  Forall P players -> Forall P (alter f i players).
Proof.
  intros Hf Hall. apply Forall_alter; [done|].
  intros x _ Hx. by apply (P_bet x).
Qed.

Lemma stake_same_stake players players' :
  Forall2 same_stake players players' -> Forall P players -> Forall P players'.
Proof.
  induction 1 as [|p p' ps ps' (_ & Hbet & _) _ IH]; [done|].
  intros [Hx Hxs]%Forall_cons. constructor; [by apply (P_bet p)|by apply IH].
Qed.

Lemma settle_Bet dealer p : Player.Bet (settle dealer p) = Player.Bet p.
Proof. unfold settle. by repeat case_match. Qed.

Lemma NextPlayer_stakes now g :
  Forall P (Players g) -> Forall P (Players (NextPlayer now g)).
Proof.
  intros Hall.
  destruct (NextPlayer_cases now g) as [->|[(j & p & _ & _ & ->)| ->]].
  - done.
  - unfold give_turn, update_player.
    cbn [Players set_Players set_CurrentPlayerIndex].
    by apply stake_alter.
  - rewrite DealerTurn_settles. apply Forall_fmap.
    eapply Forall_impl; [exact Hall|]. intros x Hx. cbn.
    apply (P_bet x); [apply settle_Bet|done].
Qed.

Lemma Hit_stakes now g playerID :
  Forall P (Players g) -> Forall P (Players (Hit now g playerID).2).
Proof.
  intros Hall.
  destruct (Hit_cases now g playerID)
    as [->|(i & p & card & rest & _ & _ & Hp & _ & _ & ->)]; [done|].
  assert (Hpp : P p).
  { rewrite Forall_forall in Hall. apply Hall.
    by eapply list_elem_of_lookup_2. }
  cbn [snd]. destruct (_ <? _).
  - change (Players (set_UpdatedAt now ?x)) with (Players x).
    apply NextPlayer_stakes. cbn [Players set_Players].
    apply Forall_insert; [done|]. by apply (P_bet p).
  - cbn [Players set_Players set_UpdatedAt].
    apply Forall_insert; [done|]. by apply (P_bet p).
Qed.

Lemma Stand_stakes now g playerID :
  Forall P (Players g) -> Forall P (Players (Stand now g playerID).2).
Proof.
  intros Hall.
  destruct (Stand_cases now g playerID)
    as [->|(i & p & _ & _ & Hp & _ & ->)]; [done|].
  assert (Hpp : P p).
  { rewrite Forall_forall in Hall. apply Hall.
    by eapply list_elem_of_lookup_2. }
  cbn [snd]. change (Players (set_UpdatedAt now ?x)) with (Players x).
  apply NextPlayer_stakes. cbn [Players set_Players].
  apply Forall_insert; [done|]. by apply (P_bet p).
Qed.

Lemma Start_stakes now g :
  Forall P (Players g) -> Forall P (Players (Start now g).2).
Proof.
  intros Hall.
  destruct (Start_cases now g) as [->|(_ & _ & _ & ->)]; [done|].
  cbn [snd]. unfold update_player.
  cbn [Players set_Players set_CurrentPlayerIndex set_UpdatedAt set_Status].
  apply stake_alter; [done|].
  apply (stake_same_stake (Players g)); [|done].
  rewrite DealInitialCards_players. apply deal_players_stakes.
Qed.

End Stakes.

Section StakesKept.

Lemma PlaceBet_stake now g playerID amount :
  let g' := (PlaceBet now g playerID amount).2 in
  g' = g \/
  exists i p,
    Status g = Betting /\ MinBet g <= amount <= MaxBet g /\
    Players g !! i = Some p /\
    g' = set_UpdatedAt now
           (set_Players
              (<[i := Player.set_Balance (wrap (Player.Balance p - amount))
                        (Player.set_Bet amount p)]> (Players g)) g).
Proof.
  unfold PlaceBet.
  destruct (GameStatus_eqb (Status g) Betting) eqn:Hst; cbn [negb];
    [|by left].
  apply GameStatus_eqb_eq in Hst.
  destruct (Z.ltb_spec amount (MinBet g)); cbn [orb]; [by left|].
  destruct (Z.ltb_spec (MaxBet g) amount); [by left|].
  destruct (first_index _ _) as [i|]; [|by left].
  destruct (Players g !! i) as [p|] eqn:Hp; [|by left].
  destruct (_ <? _); [by left|].
  right. exists i, p. split; [done|]. split; [lia|]. split; [done|].
  cbn [snd]. unfold update_player, set_UpdatedAt, set_Players. simpl.
  f_equal. rewrite list_alter_alter_eq. by rewrite (alter_insert _ _ _ p).
Qed.

Lemma AddPlayer_new_seat now g playerID playerName initialBalance :
  let g' := (AddPlayer now g playerID playerName initialBalance).2 in
  g' = g \/
  (Status g = Waiting /\ Status g' = Waiting /\
   ((exists i, Players g' = alter (Player.set_IsActive true) i (Players g)) \/
    Players g'
    = Players g
      ++ [Player.mk playerID playerName [] 0 PlayerActive 0 initialBalance
            false])).
Proof.
  unfold AddPlayer. destruct (first_index _ _) as [i|].
  - destruct (GameStatus_eqb _ _) eqn:Hst; cbn [snd]; [|by left].
    apply GameStatus_eqb_eq in Hst. right. split; [done|]. split; [done|].
    left. by exists i.
  - destruct (GameStatus_eqb _ _) eqn:Hst; cbn [negb snd]; [|by left].
    apply GameStatus_eqb_eq in Hst. right. split; [done|]. split; [done|].
    by right.
Qed.

Lemma stake_in_limits_bet lo hi p p' :
  Player.Bet p' = Player.Bet p ->
  stake_in_limits lo hi p -> stake_in_limits lo hi p'.
Proof. unfold stake_in_limits. by intros ->. Qed.

Lemma has_stake_bet p p' :
  Player.Bet p' = Player.Bet p -> has_stake p -> has_stake p'.
Proof. unfold has_stake. by intros ->. Qed.

Lemma stakes_reachable allowed g :
  reachable_by allowed g ->
  Forall (stake_in_limits (MinBet g) (MaxBet g)) (Players g) /\
  (Status g = InProgress -> Forall has_stake (Players g)).
Proof.
  induction 1 as [id rnd now tableID minBet maxBet|g now op Hreach IH Hok].
  { split; [constructor|]. intros _. constructor. }
  destruct IH as [IHl IHs].
  destruct (exec_identity now op g) as (_ & _ & _ & -> & ->).
  set (L := stake_in_limits (MinBet g) (MaxBet g)) in *.
  assert (HL : forall p p', Player.Bet p' = Player.Bet p -> L p -> L p')
    by apply stake_in_limits_bet.
  destruct op as [playerID playerName initialBalance|playerID|playerID amount
                 | |playerID|playerID|rnd| ]; cbn [exec].
  - (* AddPlayer *)
    destruct (AddPlayer_new_seat now g playerID playerName initialBalance)
      as [->|(Hst & Hst' & [(i & E)|E])]; [done|..];
      cbv zeta in Hst', E; rewrite Hst', E;
      (split; [|intros ?; done]).
    + by apply stake_alter.
    + apply Forall_app. split; [done|]. constructor; [by left|constructor].
  - (* RemovePlayer *)
    destruct (RemovePlayer_cases now g playerID) as [->|(i & ->)]; [done|].
    cbn [Players Status set_Players set_UpdatedAt]. split.
    + apply Forall_app. split; [by apply Forall_take|by apply Forall_drop].
    + intros Hp. specialize (IHs Hp). apply Forall_app.
      split; [by apply Forall_take|by apply Forall_drop].
  - (* PlaceBet *)
    destruct (PlaceBet_stake now g playerID amount)
      as [->|(i & p & Hst & Hlim & Hp & ->)]; [done|].
    cbn [Players Status set_Players set_UpdatedAt]. rewrite Hst.
    split; [|intros ?; done].
    apply Forall_insert; [done|]. by right.
  - (* Start *)
    split; [by apply Start_stakes|].
    destruct (Start_cases now g) as [->|(_ & _ & Hbets & E)]; [done|].
    intros _. by apply (Start_stakes has_stake has_stake_bet).
  - (* Hit *)
    split; [by apply Hit_stakes|].
    destruct (Hit_status now g playerID) as [->|[Hst _]]; [done|].
    intros _. by apply (Hit_stakes has_stake has_stake_bet), IHs.
  - (* Stand *)
    split; [by apply Stand_stakes|].
    destruct (Stand_status now g playerID) as [->|[Hst _]]; [done|].
    intros _. by apply (Stand_stakes has_stake has_stake_bet), IHs.
  - (* PrepareForNextRound *)
    unfold PrepareForNextRound.
    cbn [Players Status set_Players set_UpdatedAt set_Status].
    split; [|intros ?; done].
    apply Forall_fmap, Forall_true. intros p. by left.
  - (* the host closes the idle table *)
    unfold CloseIdleTable. destruct (_ =? _)%nat; [|done].
    cbn [Players Status set_Status]. split; [done|]. intros ?; done.
Qed.

(** X27.  Stakes within the limits.  In every state the engine reaches,
    whatever the calls, the bet of every seat is 0 or lies between the
    table's [MinBet] and [MaxBet]; and while a round is in progress every
    seat at the table has a bet other than 0. *)
Theorem stakes_within_limits allowed g :
  reachable_by allowed g ->
  (forall p, p ∈ Players g ->
     Player.Bet p = 0 \/ MinBet g <= Player.Bet p <= MaxBet g) /\
  (Status g = InProgress ->
     forall p, p ∈ Players g ->
       Player.Bet p <> 0 /\ MinBet g <= Player.Bet p <= MaxBet g).
Proof.
  intros Hreach.
  destruct (stakes_reachable allowed g Hreach) as [Hl Hs].
  rewrite Forall_forall in Hl. split; [exact Hl|].
  intros Hst p Hp. specialize (Hs Hst). rewrite Forall_forall in Hs.
  specialize (Hs p Hp). destruct (Hl p Hp) as [Hzero|Hin]; [done|].
  by split.
Qed.

Lemma stakes_within_limits_witness :
  exists p, Players round_of_two !! O = Some p /\ Player.Bet p <> 0 /\
            MinBet round_of_two <= Player.Bet p <= MaxBet round_of_two.
Proof.
  assert (Hreach : reachable round_of_two).
  { unfold round_of_two. apply reachable_run; [|done]. constructor. }
  destruct (stakes_within_limits _ _ Hreach) as [_ Hs].
  assert (Hp : exists p, Players round_of_two !! O = Some p).
  { eexists. vm_compute. reflexivity. }
  destruct Hp as [p Hp]. exists p. split; [exact Hp|].
  apply list_elem_of_lookup_2 in Hp. apply Hs; [|exact Hp].
  vm_compute. reflexivity.
Defined.

End StakesKept.


(** * The dealer during a round *)

Section DealerShows.

Lemma DealInitialCards_dealer g :
  exists c1 c2,
    Dealer (DealInitialCards g)
    = Dealer.mk (Dealer.Hand (Dealer g)
                 ++ [Card.set_Face true c1; Card.set_Face false c2])
                (GetValue c1).
Proof.
  unfold DealInitialCards.
  destruct (deal_players (Deck g) (Players g)) as [deck1 players].
  destruct (DrawCard deck1) as [[c1 ok1] deck2].
  destruct (DrawCard deck2) as [[c2 ok2] deck3].
  exists c1, c2. cbn [Dealer set_Dealer]. by rewrite <- app_assoc.
Qed.

Lemma NextPlayer_dealer now g :
  Status g = InProgress -> Status (NextPlayer now g) = InProgress ->
  Dealer (NextPlayer now g) = Dealer g.
Proof.
  intros Hst Hst'.
  destruct (NextPlayer_cases now g) as [E|[(j & p & _ & _ & E)|E]];
    rewrite E in *; [done..|].
  by rewrite DealerTurn_status in Hst'.
Qed.

(** X28.  The dealer's hole card.  In every state the engine reaches,
    whatever the calls, while a round is in progress the dealer holds
    exactly two cards, the first face up and the second face down, and
    the dealer's score is the value of the first card alone. *)
Theorem dealer_shows_one_card allowed g :
  reachable_by allowed g -> Status g = InProgress ->
  shows_one_card (Dealer g).
Proof.
  induction 1 as [id rnd now tableID minBet maxBet|g now op Hreach IH Hok];
    [done|].
  pose proof (between_rounds _ _ Hreach) as [Hfresh _].
  destruct op as [playerID playerName initialBalance|playerID|playerID amount
                 | |playerID|playerID|rnd| ]; cbn [exec].
  - destruct (AddPlayer_cases now g playerID playerName initialBalance)
      as [->|(Hst & [(i & p & Hp & ->)|(p & Hhand & Hact & ->)])]; [done|..];
      intros Hst'; cbn in Hst'; congruence.
  - destruct (RemovePlayer_cases now g playerID) as [->|(i & ->)]; done.
  - destruct (PlaceBet_cases now g playerID amount)
      as [->|(i & p & q & Hp & Hhand & Hact & ->)]; done.
  - destruct (Start_cases now g) as [->|(Hst & _ & _ & ->)]; [done|].
    intros _. cbn [snd].
    change (Dealer (update_player 0 (Player.set_IsActive true)
                      (set_CurrentPlayerIndex 0
                         (set_UpdatedAt now (set_Status InProgress ?x)))))
      with (Dealer x).
    destruct (Hfresh ltac:(by right)) as (_ & Hempty & _).
    destruct (DealInitialCards_dealer g) as (c1 & c2 & ->).
    exists c1, c2. by rewrite Hempty.
  - destruct (Hit_cases now g playerID)
      as [->|(i & p & card & rest & Hst & _ & _ & _ & _ & ->)]; [done|].
    cbn [snd]. destruct (_ <? _).
    + intros Hst'.
      change (Status (set_UpdatedAt now ?x)) with (Status x) in Hst'.
      change (Dealer (set_UpdatedAt now ?x)) with (Dealer x).
      rewrite NextPlayer_dealer by done. by apply IH.
    + intros _. by apply IH.
  - destruct (Stand_cases now g playerID)
      as [->|(i & p & Hst & _ & _ & _ & ->)]; [done|].
    cbn [snd]. intros Hst'.
    change (Status (set_UpdatedAt now ?x)) with (Status x) in Hst'.
    change (Dealer (set_UpdatedAt now ?x)) with (Dealer x).
    rewrite NextPlayer_dealer by done. by apply IH.
  - intros Hst'. done.
  - unfold CloseIdleTable. destruct (_ =? _)%nat; [|done].
    intros Hst'. done.
Qed.

Lemma dealer_shows_one_card_witness : shows_one_card (Dealer round_of_two).
Proof.
  apply (dealer_shows_one_card (fun _ _ => True)); [|vm_compute; reflexivity].
  unfold round_of_two. apply reachable_run; [|done]. constructor.
Defined.

End DealerShows.

(** * Whose move it is *)

Section WhoseMove.

Lemma acting_seat_is_current g i p :
  reachable_by keeps_seats g -> Status g = InProgress ->
  Players g !! i = Some p -> Player.IsActive p = true ->
  i = CurrentPlayerIndex g.
Proof.
  intros Hreach Hst Hp Hact.
  destruct (current_seat_reachable g Hreach Hst) as (p0 & Hp0 & Hact0).
  destruct (decide (i = CurrentPlayerIndex g)) as [|Hne]; [done|].
  pose proof (turn_invariant_reachable g Hreach Hst) as Hone.
  pose proof (active_seats_two _ _ _ _ _ Hne Hp Hp0) as Htwo.
  unfold flag in Htwo. rewrite Hact, Hact0 in Htwo. lia.
Qed.

(** X29.  Only the player whose turn it is can move.  In every state
    reached by calls that remove no seat during a round, a [Hit] or a
    [Stand] that succeeds was made for the player seated at
    [CurrentPlayerIndex], in a round in progress, and that seat was
    Active. *)
Theorem only_current_player_moves now g playerID :
  reachable_by keeps_seats g ->
  (Hit now g playerID).1.2 = true \/ (Stand now g playerID).1 = true ->
  Status g = InProgress /\
  exists p, Players g !! CurrentPlayerIndex g = Some p /\
            Player.ID p = playerID /\ Player.IsActive p = true /\
            Player.Status p = PlayerActive.
Proof.
  intros Hreach Hmove.
  assert (Hseat : exists i p, Status g = InProgress /\
            Players g !! i = Some p /\ may_act playerID p = true).
  { destruct Hmove as [Hhit|Hstand].
    - destruct (Hit_cases now g playerID)
        as [E|(i & p & card & rest & Hst & _ & Hp & Hact & _)].
      + by rewrite E in Hhit.
      + by exists i, p.
    - destruct (Stand_cases now g playerID)
        as [E|(i & p & Hst & _ & Hp & Hact & _)].
      + by rewrite E in Hstand.
      + by exists i, p. }
  destruct Hseat as (i & p & Hst & Hp & Hact).
  apply may_act_true in Hact as (Hid & Hflag & Hactive).
  split; [done|]. exists p.
  by rewrite <- (acting_seat_is_current g i p Hreach Hst Hp Hflag).
Qed.

Lemma only_current_player_moves_witness :
  exists p, Players round_of_two !! CurrentPlayerIndex round_of_two = Some p /\
            Player.ID p = "p1" /\ Player.IsActive p = true /\
            Player.Status p = PlayerActive.
Proof.
  assert (Hreach : reachable_by keeps_seats round_of_two).
  { unfold round_of_two. cbn [run].
    repeat (apply reachable_call; [|intros ? ?; discriminate]).
    apply reachable_new. }
  destruct (only_current_player_moves 7 round_of_two "p1" Hreach)
    as [_ Hseat]; [|exact Hseat].
  right. vm_compute. reflexivity.
Defined.

End WhoseMove.

(** * A broadcast *)

Section Broadcast.

Variable client : cptr -> Client.t.

Lemma drop_client_closed c h h' :
  drop_client client c h = Some h' -> Hub.closed h' = {[c]} ∪ Hub.closed h.
Proof.
  unfold drop_client, close_send.
  destruct (decide (c ∈ Hub.closed h)); cbn [mbind option_bind]; [done|].
  by intros [= <-].
Qed.

Lemma broadcast_exact full order : forall h,
  hub_consistent client h -> NoDup order ->
  (forall c, c ∈ order -> c ∈ Hub.clients h) ->
  exists h',
    broadcast client full order h = Some h' /\
    hub_consistent client h' /\
    (forall x, x ∈ Hub.clients h' <->
       x ∈ Hub.clients h /\ ~ (x ∈ order /\ full x = true)) /\
    (forall x, x ∈ Hub.closed h' <->
       x ∈ Hub.closed h \/ (x ∈ order /\ full x = true)).
Proof.
  induction order as [|c order IH]; intros h Hcons Hnd Hin.
  { exists h. split; [done|]. split; [done|]. split.
    - intros x. split; [|tauto]. intros Hx. split; [done|].
      intros [Hx' _]. by apply elem_of_nil in Hx'.
    - intros x. split; [tauto|]. intros [|[Hx' _]]; [done|].
      by apply elem_of_nil in Hx'. }
  apply NoDup_cons in Hnd as [Hfresh Hnd].
  assert (Hc : c ∈ Hub.clients h) by (apply Hin; by left).
  pose proof Hcons as (Hopen & _).
  cbn [broadcast]. unfold send_or_drop.
  destruct (decide (c ∈ Hub.closed h)) as [Hx|_]; [by destruct (Hopen c)|].
  destruct (full c) eqn:Hfull.
  - destruct (drop_client_consistent client c h Hcons Hc)
      as (h1 & E1 & Hcons1 & Hcl).
    pose proof (drop_client_closed c h h1 E1) as Hclosed.
    rewrite E1. cbn [mbind option_bind].
    destruct (IH h1 Hcons1 Hnd) as (h' & E & Hcons' & Hclients & Hcloseds).
    { intros x Hx. rewrite Hcl. apply elem_of_difference.
      split; [apply Hin; by right|]. intros ->%elem_of_singleton. done. }
    exists h'. split; [done|]. split; [done|]. split.
    + intros x. rewrite Hclients, Hcl, elem_of_difference, elem_of_singleton,
        elem_of_cons.
      split.
      * intros [[Hx Hne] Hnot]. split; [done|].
        intros [[->|Hx'] Hf]; [done|]. by apply Hnot.
      * intros [Hx Hnot]. split; [split; [done|]|].
        -- intros ->. apply Hnot. split; [by left|done].
        -- intros [Hx' Hf]. apply Hnot. split; [by right|done].
    + intros x. rewrite Hcloseds, Hclosed, elem_of_union, elem_of_singleton,
        elem_of_cons.
      split.
      * intros [[->|Hx]|[Hx Hf]].
        -- right. split; [by left|done].
        -- by left.
        -- right. split; [by right|done].
      * intros [Hx|[[->|Hx] Hf]].
        -- left. by right.
        -- left. by left.
        -- right. by split.
  - cbn [mbind option_bind].
    destruct (IH h Hcons Hnd) as (h' & E & Hcons' & Hclients & Hcloseds).
    { intros x Hx. apply Hin. by right. }
    exists h'. split; [done|]. split; [done|]. split.
    + intros x. rewrite Hclients, elem_of_cons. split.
      * intros [Hx Hnot]. split; [done|].
        intros [[->|Hx'] Hf]; [congruence|]. by apply Hnot.
      * intros [Hx Hnot]. split; [done|].
        intros [Hx' Hf]. apply Hnot. split; [by right|done].
    + intros x. rewrite Hcloseds, elem_of_cons. split.
      * intros [Hx|[Hx Hf]]; [by left|]. right. split; [by right|done].
      * intros [Hx|[[->|Hx] Hf]]; [by left|congruence|]. right. by split.
Qed.

(** X30.  What a broadcast leaves.  In a state [Run] has reached, a
    broadcast, in whatever order [range] yields the clients, is handled
    without a panic and removes exactly the clients whose queue is full:
    these are closed, the others stay registered with their channels
    open, and no table and no player id leads to a client that was
    removed. *)
Theorem broadcast_drops_full h order full :
  hub_reachable client h -> order ≡ₚ elements (Hub.clients h) ->
  exists h',
    broadcast client full order h = Some h' /\
    hub_reachable client h' /\
    (forall c, c ∈ Hub.clients h' <-> c ∈ Hub.clients h /\ full c = false) /\
    (forall c, c ∈ Hub.closed h' <->
       c ∈ Hub.closed h \/ (c ∈ Hub.clients h /\ full c = true)) /\
    (forall tableID c, c ∈ table_recipients h' tableID -> full c = false) /\
    (forall playerID c, player_recipient h' playerID = Some c ->
       full c = false).
Proof.
  intros Hreach Horder.
  pose proof (hub_reachable_consistent client h Hreach) as Hcons.
  assert (Hmem : forall c, c ∈ order <-> c ∈ Hub.clients h).
  { intros c. by rewrite Horder, elem_of_elements. }
  destruct (broadcast_exact full order h Hcons)
    as (h' & E & Hcons' & Hclients & Hcloseds).
  { rewrite Horder. apply NoDup_elements. }
  { intros c. by rewrite Hmem. }
  assert (Hkept : forall c, c ∈ Hub.clients h' <->
                    c ∈ Hub.clients h /\ full c = false).
  { intros c. rewrite Hclients, Hmem. split.
    - intros [Hc Hnot]. split; [done|].
      destruct (full c); [by destruct Hnot|done].
    - intros [Hc Hf]. split; [done|]. intros [_ Hf']. congruence. }
  exists h'. split; [done|]. split; [|split; [done|split; [|split]]].
  - by apply (hub_next client h (EvBroadcast order full)).
  - intros c. rewrite Hcloseds, Hmem. done.
  - intros tableID c Hc. destruct Hcons' as (_ & Htables & _).
    unfold table_recipients in Hc.
    destruct (Hub.tables h' !! tableID) as [m|] eqn:Hm; simpl in Hc;
      [|by apply elem_of_empty in Hc].
    destruct (Htables tableID m c Hm Hc) as (Hin & _).
    by apply Hkept in Hin as [_ ?].
  - intros playerID c Hc. destruct Hcons' as (_ & _ & Hplayers).
    destruct (Hplayers playerID c Hc) as (Hin & _).
    by apply Hkept in Hin as [_ ?].
Qed.

End Broadcast.

Lemma broadcast_drops_full_witness :
  exists h',
    broadcast two_clients (fun _ => true) [1%nat]
      (register two_clients 1%nat NewHub) = Some h' /\
    (forall c, c ∈ Hub.clients h' <->
       c ∈ Hub.clients (register two_clients 1%nat NewHub) /\ true = false).
Proof.
  assert (Hreach : hub_reachable two_clients (register two_clients 1%nat NewHub)).
  { apply (hub_next two_clients NewHub (EvRegister 1%nat));
      [constructor| |reflexivity].
    split; apply not_elem_of_empty. }
  assert (Horder : [1%nat] ≡ₚ elements (Hub.clients (register two_clients 1%nat NewHub))).
  { vm_compute. reflexivity. }
  destruct (broadcast_drops_full two_clients _ [1%nat] (fun _ => true)
              Hreach Horder) as (h' & E & _ & Hkept & _).
  exists h'. split; [exact E|exact Hkept].
Defined.
